(** * portal: the syslog input binding (portal/input/syslog/usyslog.py)

    A shallow embedding of the Python module that binds the native usyslog
    parser: the exception classes, the [SyslogMessageHead] accumulator, the
    parser callbacks and the [Parser] wrapper.  Python objects live in an
    explicit store, so that aliasing between [sd], [current_sde] and the
    dictionaries built by [as_dict] is visible. *)

From Stdlib Require Import String Ascii.
From Stdlib Require Import Strings.Byte.
From Stdlib Require Import List ZArith Lia Bool PeanoNat.
Import ListNotations.
Local Open Scope list_scope.

Set Implicit Arguments.

(* ================================================================= *)
(** ** Python values and the object store *)

Definition bytestring := list byte.
Definition loc := nat.

Definition bs (s : string) : bytestring := list_byte_of_string s.

(** Hashable values used as dictionary keys in this module: [None] and
    byte strings. *)
Inductive pykey : Type :=
| KNone
| KStr (s : bytestring).

Inductive pyval : Type :=
| VNone
| VInt (z : Z)
| VStr (s : bytestring)
| VUnicode (u : list N)
| VRef (l : loc).

Definition bytes_eqb (x y : bytestring) : bool :=
  if list_eq_dec Byte.byte_eq_dec x y then true else false.

Definition pykey_eqb (x y : pykey) : bool :=
  match x, y with
  | KNone, KNone => true
  | KStr s, KStr t => bytes_eqb s t
  | _, _ => false
  end.

(** A [dict] keeps its entries in insertion order; storing under a key
    that is present replaces the value in place. *)
Definition pydict := list (pykey * pyval).

Fixpoint dict_get (k : pykey) (d : pydict) : option pyval :=
  match d with
  | [] => None
  | (k', v) :: d' => if pykey_eqb k k' then Some v else dict_get k d'
  end.

Fixpoint dict_set (k : pykey) (v : pyval) (d : pydict) : pydict :=
  match d with
  | [] => [(k, v)]
  | (k', v') :: d' =>
      if pykey_eqb k k' then (k', v) :: d' else (k', v') :: dict_set k v d'
  end.

Definition dict_keys (d : pydict) : list pykey := map fst d.

(** class SyslogMessageHead: the instance attributes set by [reset]. *)
Record SyslogMessageHead : Type := mkHead {
  priority : pyval;
  version : pyval;
  timestamp : pyval;
  hostname : pyval;
  appname : pyval;
  processid : pyval;
  messageid : pyval;
  sd : loc;
  current_sde : option loc;
  current_sd_field : pykey
}.

Inductive obj : Type :=
| OBlank                              (* an instance before [__init__] ran *)
| OHead (h : SyslogMessageHead)
| ODict (d : pydict).

(** What [print] was given, one entry per call. *)
Record world : Type := mkWorld {
  heap : list obj;
  handles : list loc;                 (* live [ffi.new_handle] handles *)
  stdout : list pyval
}.

Definition empty_world : world := mkWorld [] [] [].

Inductive exn : Type :=
| AttributeError
| TypeError
| KeyError
| UnicodeDecodeError
| RuntimeError
| SystemError.

Inductive result (A : Type) : Type :=
| Ok (a : A)
| Raise (e : exn).
Arguments Ok {A} a.
Arguments Raise {A} e.

(** Python statements: a state monad over the store in which an
    exception keeps the effects performed before it was raised. *)
Definition py (A : Type) : Type := world -> world * result A.

Definition ret {A} (a : A) : py A := fun w => (w, Ok a).
Definition raise {A} (e : exn) : py A := fun w => (w, Raise e).
Definition bind {A B} (m : py A) (f : A -> py B) : py B :=
  fun w => match m w with
           | (w', Ok a) => f a w'
           | (w', Raise e) => (w', Raise e)
           end.

Declare Scope py_scope.
Delimit Scope py_scope with py.
Notation "x <- m ;; k" := (bind m (fun x => k))
  (at level 61, m at next level, right associativity) : py_scope.
Notation "m ;;; k" := (bind m (fun _ => k))
  (at level 61, right associativity) : py_scope.
Open Scope py_scope.

Fixpoint upd {A} (l : nat) (x : A) (xs : list A) : list A :=
  match xs, l with
  | [], _ => []
  | _ :: xs', O => x :: xs'
  | y :: xs', S l' => y :: upd l' x xs'
  end.

Definition alloc (o : obj) : py loc :=
  fun w => (mkWorld (heap w ++ [o]) (handles w) (stdout w), Ok (length (heap w))).

Definition load (l : loc) : py obj :=
  fun w => match nth_error (heap w) l with
           | Some o => (w, Ok o)
           | None => (w, Raise SystemError)
           end.

Definition store (l : loc) (o : obj) : py unit :=
  fun w => if l <? length (heap w)
           then (mkWorld (upd l o (heap w)) (handles w) (stdout w), Ok tt)
           else (w, Raise SystemError).

Definition print (v : pyval) : py unit :=
  fun w => (mkWorld (heap w) (handles w) (stdout w ++ [v]), Ok tt).

Fixpoint for_each {A} (xs : list A) (body : A -> py unit) : py unit :=
  match xs with
  | [] => ret tt
  | x :: xs' => body x ;;; for_each xs' body
  end.

(** Attribute access on [self] for the methods of [SyslogMessageHead]. *)
Definition get_head (self : loc) : py SyslogMessageHead :=
  o <- load self ;;
  match o with
  | OHead h => ret h
  | _ => raise AttributeError
  end.

Definition load_dict (l : loc) : py pydict :=
  o <- load l ;;
  match o with
  | ODict d => ret d
  | _ => raise TypeError
  end.

(** [d[k]] and [d[k] = v] on a dictionary object. *)
Definition getitem (d : loc) (k : pykey) : py pyval :=
  c <- load_dict d ;;
  match dict_get k c with
  | Some v => ret v
  | None => raise KeyError
  end.

Definition setitem (d : loc) (k : pykey) (v : pyval) : py unit :=
  c <- load_dict d ;;
  store d (ODict (dict_set k v c)).

Definition as_ref (v : pyval) : py loc :=
  match v with
  | VRef l => ret l
  | _ => raise TypeError
  end.

(* ================================================================= *)
(** ** class SyslogMessageHead *)

Definition initial_head (d : loc) : SyslogMessageHead :=
  mkHead (VStr []) (VStr []) (VStr []) (VStr []) (VStr []) (VStr [])
         (VStr []) d None KNone.

(** [reset]: the seven head fields become [''], [sd] a new empty dict,
    [current_sde] and [current_sd_field] [None]. *)
Definition reset (self : loc) : py unit :=
  o <- load self ;;
  match o with
  | ODict _ => raise AttributeError
  | _ => d <- alloc (ODict []) ;;
         store self (OHead (initial_head d))
  end.

(** [SyslogMessageHead()]: a new instance, then [__init__], which calls
    [self.reset()]. *)
Definition SyslogMessageHead_new : py loc :=
  self <- alloc OBlank ;;
  reset self ;;;
  ret self.

Definition get_sd (self : loc) (name : pykey) : py pyval :=
  h <- get_head self ;;
  o <- load (sd h) ;;
  match o with
  | ODict d => ret (match dict_get name d with
                    | Some v => v
                    | None => VNone
                    end)
  | _ => raise AttributeError
  end.

(** [hash(x)], which a dictionary takes of the key it is given: a
    [dict] is unhashable, the other values of this module hash. *)
Definition py_hash (x : pyval) : py unit :=
  match x with
  | VRef l => o <- load l ;;
              match o with
              | ODict _ => raise TypeError
              | _ => ret tt
              end
  | _ => ret tt
  end.

(** The key of this module's dictionaries, [None] or a byte string,
    that a value is equal to, if there is one. *)
Definition as_key (x : pyval) : option pykey :=
  match x with
  | VNone => Some KNone
  | VStr s => Some (KStr s)
  | _ => None
  end.

(** [d.get(x)] on the entries of a dictionary, for a hashable [x]. *)
Definition dict_get_value (x : pyval) (d : pydict) : pyval :=
  match as_key x with
  | Some k => match dict_get k d with
              | Some v => v
              | None => VNone
              end
  | None => VNone
  end.

(** [get_sd] given any object as [name]: [self.sd.get(name)] hashes
    the name, then looks it up. *)
Definition get_sd_any (self : loc) (name : pyval) : py pyval :=
  h <- get_head self ;;
  o <- load (sd h) ;;
  match o with
  | ODict d => py_hash name ;;; ret (dict_get_value name d)
  | _ => raise AttributeError
  end.

Definition create_sde (self : loc) (sd_name : pykey) : py unit :=
  e <- alloc (ODict []) ;;
  h <- get_head self ;;
  store self (OHead (mkHead (priority h) (version h) (timestamp h)
                            (hostname h) (appname h) (processid h)
                            (messageid h) (sd h) (Some e)
                            (current_sd_field h))) ;;;
  setitem (sd h) sd_name (VRef e).

Definition set_sd_field (self : loc) (sd_fieldname : pykey) : py unit :=
  h <- get_head self ;;
  store self (OHead (mkHead (priority h) (version h) (timestamp h)
                            (hostname h) (appname h) (processid h)
                            (messageid h) (sd h) (current_sde h)
                            sd_fieldname)).

Definition set_sd_value (self : loc) (value : pyval) : py unit :=
  h <- get_head self ;;
  match current_sde h with
  | None => raise TypeError
  | Some e => setitem e (current_sd_field h) value
  end.

(** The two builtins [as_dict] relies on: [str(x)] and
    [x.decode('utf-8')] on a byte string ([None] when the bytes are not
    valid UTF-8). *)
Record builtins : Type := mkBuiltins {
  py_str : pyval -> bytestring;
  decode_utf8 : bytestring -> option (list N)
}.

Definition decode (B : builtins) (v : pyval) : py pyval :=
  match v with
  | VStr s => match decode_utf8 B s with
              | Some u => ret (VUnicode u)
              | None => raise UnicodeDecodeError
              end
  | _ => raise AttributeError
  end.

Definition self_sd (self : loc) : py loc :=
  h <- get_head self ;; ret (sd h).

Definition as_dict (B : builtins) (self : loc) : py pyval :=
  sd_copy <- alloc (ODict []) ;;
  h <- get_head self ;;
  dictionary <- alloc (ODict
    [ (KStr (bs "priority"), VStr (py_str B (priority h)));
      (KStr (bs "version"), VStr (py_str B (version h)));
      (KStr (bs "timestamp"), VStr (py_str B (timestamp h)));
      (KStr (bs "hostname"), VStr (py_str B (hostname h)));
      (KStr (bs "appname"), VStr (py_str B (appname h)));
      (KStr (bs "processid"), VStr (py_str B (processid h)));
      (KStr (bs "messageid"), VStr (py_str B (messageid h)));
      (KStr (bs "sd"), VRef sd_copy) ]) ;;
  names <- (s <- self_sd self ;; c <- load_dict s ;; ret (dict_keys c)) ;;
  for_each names (fun sd_name =>
    e <- alloc (ODict []) ;;
    setitem sd_copy sd_name (VRef e) ;;;
    fields <- (s <- self_sd self ;; v <- getitem s sd_name ;;
               src <- as_ref v ;; c <- load_dict src ;; ret (dict_keys c)) ;;
    for_each fields (fun sd_fieldname =>
      u <- (s <- self_sd self ;; v <- getitem s sd_name ;;
            src <- as_ref v ;; x <- getitem src sd_fieldname ;;
            decode B x) ;;
      c <- (v <- getitem sd_copy sd_name ;; as_ref v) ;;
      setitem c sd_fieldname u)) ;;;
  ret (VRef dictionary).

(* ================================================================= *)
(** ** The exception classes *)

Inductive cls : Type :=
| Exception
| SyslogError
| UnknownTypeError
| ParsingError
| MessageHandlerError.

Definition cls_eqb (c d : cls) : bool :=
  match c, d with
  | Exception, Exception
  | SyslogError, SyslogError
  | UnknownTypeError, UnknownTypeError
  | ParsingError, ParsingError
  | MessageHandlerError, MessageHandlerError => true
  | _, _ => false
  end.

(** The base class named in each [class] statement. *)
Definition base (c : cls) : option cls :=
  match c with
  | Exception => None
  | SyslogError => Some Exception
  | UnknownTypeError => Some SyslogError
  | ParsingError => Some SyslogError
  | MessageHandlerError => Some SyslogError
  end.

Fixpoint issubclass_fuel (fuel : nat) (c d : cls) : bool :=
  cls_eqb c d ||
  match fuel, base c with
  | S fuel', Some c' => issubclass_fuel fuel' c' d
  | _, _ => false
  end.

Definition issubclass (c d : cls) : bool := issubclass_fuel 4 c d.

(** An exception instance with the attributes its [__init__] sets.
    [Builtin text] stands for an exception of a class defined elsewhere,
    whose [str()] is [text]. *)
Inductive pyexc : Type :=
| Builtin (text : string)
| ESyslogError (msg : string)
| EUnknownTypeError (msg : string)
| EParsingError (msg : string)
| EMessageHandlerError (msg : string) (cause : pyexc).

Definition class_of (e : pyexc) : cls :=
  match e with
  | Builtin _ => Exception
  | ESyslogError _ => SyslogError
  | EUnknownTypeError _ => UnknownTypeError
  | EParsingError _ => ParsingError
  | EMessageHandlerError _ _ => MessageHandlerError
  end.

Definition isinstance (e : pyexc) (c : cls) : bool := issubclass (class_of e) c.

(** [except c:] handles [e] exactly when [e] is an instance of [c]. *)
Definition except_catches (c : cls) (e : pyexc) : bool := isinstance e c.

Definition exc_msg (e : pyexc) : option string :=
  match e with
  | Builtin _ => None
  | ESyslogError m | EUnknownTypeError m | EParsingError m
  | EMessageHandlerError m _ => Some m
  end.

Definition exc_cause (e : pyexc) : option pyexc :=
  match e with
  | EMessageHandlerError _ c => Some c
  | _ => None
  end.

(** [__str__]: [SyslogError] returns [self.msg]; [MessageHandlerError]
    overrides it with
    ['MessageHandler exception: {} - {}'.format(self.msg, self.cause)]. *)
Fixpoint exc_str (e : pyexc) : string :=
  match e with
  | Builtin text => text
  | ESyslogError m | EUnknownTypeError m | EParsingError m => m
  | EMessageHandlerError m c =>
      ("MessageHandler exception: " ++ m ++ " - " ++ exc_str c)%string
  end.

Fixpoint is_prefix (p s : string) : bool :=
  match p, s with
  | EmptyString, _ => true
  | String a p', String c s' => Ascii.eqb a c && is_prefix p' s'
  | _, _ => false
  end.

Fixpoint contains (s sub : string) : bool :=
  is_prefix sub s ||
  match s with
  | EmptyString => false
  | String _ s' => contains s' sub
  end.

(* ================================================================= *)
(** ** The native parser: declarations of the [ffi.cdef] block *)

Module usyslog.

(** [struct pbuffer]: [bytes] holds the first [position] bytes of the
    allocation, [size] is its capacity. *)
Record pbuffer : Type := mkBuffer {
  bytes : bytestring;
  size : nat
}.

Definition position (pb : pbuffer) : nat := length (bytes pb).

(** [struct syslog_msg_head]: a [char *] is the memory it points to, or
    [None] for a null pointer. *)
Record syslog_msg_head : Type := mkMsgHead {
  priority : Z;
  version : Z;
  timestamp : option bytestring;
  timestamp_len : nat;
  hostname : option bytestring;
  hostname_len : nat;
  appname : option bytestring;
  appname_len : nat;
  processid : option bytestring;
  processid_len : nat;
  messageid : option bytestring;
  messageid_len : nat
}.

Definition zero_msg_head : syslog_msg_head :=
  mkMsgHead 0 0 None 0 None 0 None 0 None 0 None 0.

(** Modelled from the spec: the values of the [state] field, whose
    constants are declared in usyslog.h.  "START, PRIORITY, VERSION,
    TIMESTAMP, HOSTNAME, APPNAME, PROCESSID, MESSAGEID, SD_OR_BODY,
    SD_ELEMENT_NAME, SD_FIELD_NAME, SD_FIELD_VALUE, BODY, COMPLETE, plus a
    terminal ERROR state". *)
Inductive pstate : Type :=
| START | PRIORITY | VERSION | TIMESTAMP | HOSTNAME | APPNAME | PROCESSID
| MESSAGEID | SD_OR_BODY | SD_ELEMENT_NAME | SD_FIELD_NAME | SD_FIELD_VALUE
| BODY | COMPLETE | ERROR.

(** Modelled from the spec: the values of [token_state], the "sub-state
    for escape/quote handling"; usyslog.h is not part of the sources. *)
Inductive tstate : Type :=
| TS_NONE          (* no token-level context *)
| TS_NIL           (* the nil structured-data marker was read *)
| TS_OPEN          (* a field name is complete, the opening quote is due *)
| TS_QUOTED        (* inside a quoted value *)
| TS_ESCAPE        (* after a backslash inside a quoted value *)
| TS_CLOSED.       (* a value or an element was just closed *)

(** Modelled from the spec: the error kinds of the [error] field:
    "MalformedPriority, MalformedVersion, MissingSeparator,
    UnterminatedStructuredData, InvalidEscape, CallbackAborted";
    [NoError] is the zero value. *)
Inductive perror : Type :=
| NoError
| MalformedPriority
| MalformedVersion
| MissingSeparator
| UnterminatedStructuredData
| InvalidEscape
| CallbackAborted.

(** [struct syslog_parser].  The two owned pointers [msg_head] and
    [buffer] are represented by the structures they point to;
    [app_data] is a handle or null. *)
Record syslog_parser : Type := mkParser {
  flags : Z;
  token_state : tstate;
  state : pstate;
  error : perror;
  msg_head : syslog_msg_head;
  message_length : Z;
  remaining : Z;
  buffer : pbuffer;
  app_data : option nat
}.

(** The callback types [syslog_cb] (called with the parser) and
    [syslog_data_cb] (called with the parser, [at] and [len]), run
    against the embedding layer's state [A] and returning the C [int];
    the pair [at], [len] is the byte string it designates. *)
Definition syslog_cb (A : Type) : Type := syslog_parser -> A -> A * Z.
Definition syslog_data_cb (A : Type) : Type :=
  syslog_parser -> bytestring -> A -> A * Z.

(** [struct syslog_parser_settings]. *)
Record syslog_parser_settings (A : Type) : Type := mkSettings {
  on_msg_begin : syslog_cb A;
  on_msg_head : syslog_cb A;
  on_sd_element : syslog_data_cb A;
  on_sd_field : syslog_data_cb A;
  on_sd_value : syslog_data_cb A;
  on_msg : syslog_data_cb A;
  on_msg_complete : syslog_cb A
}.

(** What [ffi.new] yields for a [syslog_parser]: zero-initialised
    memory. *)
Definition zero_parser : syslog_parser :=
  mkParser 0 TS_NONE START NoError zero_msg_head 0 0 (mkBuffer [] 0) None.

Definition set_state (p : syslog_parser) (s : pstate) : syslog_parser :=
  mkParser (flags p) (token_state p) s (error p) (msg_head p)
           (message_length p) (remaining p) (buffer p) (app_data p).

Definition set_token_state (p : syslog_parser) (t : tstate) : syslog_parser :=
  mkParser (flags p) t (state p) (error p) (msg_head p)
           (message_length p) (remaining p) (buffer p) (app_data p).

Definition set_error (p : syslog_parser) (e : perror) : syslog_parser :=
  mkParser (flags p) (token_state p) (state p) e (msg_head p)
           (message_length p) (remaining p) (buffer p) (app_data p).

Definition set_msg_head (p : syslog_parser) (h : syslog_msg_head)
  : syslog_parser :=
  mkParser (flags p) (token_state p) (state p) (error p) h
           (message_length p) (remaining p) (buffer p) (app_data p).

Definition set_buffer (p : syslog_parser) (pb : pbuffer) : syslog_parser :=
  mkParser (flags p) (token_state p) (state p) (error p) (msg_head p)
           (message_length p) (remaining p) pb (app_data p).

Definition set_app_data (p : syslog_parser) (h : option nat) : syslog_parser :=
  mkParser (flags p) (token_state p) (state p) (error p) (msg_head p)
           (message_length p) (remaining p) (buffer p) h.

End usyslog.

(* ================================================================= *)
(** ** The native parser: the functions behind [lib]

    usyslog.c is compiled by [ffi.verify] and is not part of the
    sources; its functions are modelled from the specification. *)

Module lib.
Import usyslog.

(** Modelled from the spec: the byte classes the tokenizer of usyslog.c
    tells apart, "digit, separator, bracket, quote, escape". *)
Definition is_digit (c : byte) : bool :=
  ((48 <=? Byte.to_N c) && (Byte.to_N c <=? 57))%N.

(** Modelled from the spec: a printable US-ASCII byte, as the head
    fields and the structured-data names of RFC 5424, the reference
    grammar, are made of. *)
Definition is_print (c : byte) : bool :=
  ((33 <=? Byte.to_N c) && (Byte.to_N c <=? 126))%N.

(** Modelled from the spec: the delimiters of the grammar. *)
Definition LT : byte := x3c.         (* '<' *)
Definition GT : byte := x3e.         (* '>' *)
Definition SP : byte := x20.         (* ' ' *)
Definition LBRACKET : byte := x5b.   (* '[' *)
Definition RBRACKET : byte := x5d.   (* ']' *)
Definition EQUALS : byte := x3d.     (* '=' *)
Definition DQUOTE : byte := x22.     (* the double quote *)
Definition BACKSLASH : byte := x5c.
Definition DASH : byte := x2d.       (* '-', the nil value *)
Definition LF : byte := x0a.         (* the message delimiter *)

(** Modelled from the spec: the message delimiter of a delimiter-framed
    transport ("newline- vs length-prefixed"); the octet-counting mode
    is not modelled and [message_length], [remaining] stay zero. *)
Definition is_delimiter (c : byte) : bool := Byte.eqb c LF.

(** Modelled from the spec: the tokenizer's decision.  "given the
    current state/token_state and the next unconsumed byte, decide one
    of: consume-and-continue, consume-and-emit-span (token complete),
    consume-and-transition-state (structural delimiter), or reject
    (malformed)". *)
Inductive action : Type :=
| Continue (ts : tstate)
| Emit (st : pstate) (ts : tstate)
| Transition (st : pstate) (ts : tstate)
| Reject (e : perror).

(** Modelled from the spec: a head field is a token that a space
    ends; "a stream that violates the fixed head field order is a
    structural error". *)
Definition head_token (c : byte) (next : pstate) : action :=
  if Byte.eqb c SP then Emit next TS_NONE
  else if is_print c then Continue TS_NONE
  else Reject MissingSeparator.

(** Modelled from the spec: the grammar of usyslog.c, with RFC 5424 as
    the reference the specification names.  The states follow one
    another in parse order; inside a quoted value "a backslash escapes
    the immediately following double quote, closing bracket or
    backslash; any other post-backslash byte is a syntax error", and
    "an unescaped closing bracket or double quote inside a value is a
    terminator". *)
Definition tokenize (st : pstate) (ts : tstate) (c : byte) : action :=
  match st with
  | START =>
      if Byte.eqb c LT then Transition PRIORITY TS_NONE
      else Reject MalformedPriority
  | PRIORITY =>
      if is_digit c then Continue TS_NONE
      else if Byte.eqb c GT then Emit VERSION TS_NONE
      else Reject MalformedPriority
  | VERSION =>
      if is_digit c then Continue TS_NONE
      else if Byte.eqb c SP then Emit TIMESTAMP TS_NONE
      else Reject MalformedVersion
  | TIMESTAMP => head_token c HOSTNAME
  | HOSTNAME => head_token c APPNAME
  | APPNAME => head_token c PROCESSID
  | PROCESSID => head_token c MESSAGEID
  | MESSAGEID => head_token c SD_OR_BODY
  | SD_OR_BODY =>
      match ts with
      | TS_NONE =>
          if Byte.eqb c LBRACKET then Transition SD_ELEMENT_NAME TS_NONE
          else if Byte.eqb c DASH then Transition SD_OR_BODY TS_NIL
          else Reject MissingSeparator
      | TS_NIL =>
          if Byte.eqb c SP then Transition BODY TS_NONE
          else if is_delimiter c then Transition COMPLETE TS_NONE
          else Reject MissingSeparator
      | _ =>
          if Byte.eqb c LBRACKET then Transition SD_ELEMENT_NAME TS_NONE
          else if Byte.eqb c SP then Transition BODY TS_NONE
          else if is_delimiter c then Transition COMPLETE TS_NONE
          else Reject MissingSeparator
      end
  | SD_ELEMENT_NAME =>
      if Byte.eqb c SP then Emit SD_FIELD_NAME TS_NONE
      else if Byte.eqb c RBRACKET then Emit SD_OR_BODY TS_CLOSED
      else if Byte.eqb c EQUALS || Byte.eqb c DQUOTE
      then Reject UnterminatedStructuredData
      else if is_print c then Continue TS_NONE
      else Reject UnterminatedStructuredData
  | SD_FIELD_NAME =>
      if Byte.eqb c EQUALS then Emit SD_FIELD_VALUE TS_OPEN
      else if Byte.eqb c RBRACKET || Byte.eqb c DQUOTE
      then Reject UnterminatedStructuredData
      else if is_print c then Continue TS_NONE
      else Reject UnterminatedStructuredData
  | SD_FIELD_VALUE =>
      match ts with
      | TS_OPEN =>
          if Byte.eqb c DQUOTE then Transition SD_FIELD_VALUE TS_QUOTED
          else Reject UnterminatedStructuredData
      | TS_QUOTED =>
          if Byte.eqb c BACKSLASH then Continue TS_ESCAPE
          else if Byte.eqb c DQUOTE then Emit SD_FIELD_VALUE TS_CLOSED
          else if Byte.eqb c RBRACKET then Emit SD_OR_BODY TS_CLOSED
          else if is_delimiter c then Reject UnterminatedStructuredData
          else Continue TS_QUOTED
      | TS_ESCAPE =>
          if Byte.eqb c DQUOTE || Byte.eqb c RBRACKET || Byte.eqb c BACKSLASH
          then Continue TS_QUOTED
          else Reject InvalidEscape
      | _ =>
          if Byte.eqb c SP then Transition SD_FIELD_NAME TS_NONE
          else if Byte.eqb c RBRACKET then Transition SD_OR_BODY TS_CLOSED
          else Reject UnterminatedStructuredData
      end
  | BODY => Continue ts
  | COMPLETE | ERROR => Reject MissingSeparator
  end.

(** Modelled from the spec: the numeric value of a token of digits. *)
Definition digit_value (c : byte) : Z := Z.of_N (Byte.to_N c) - 48.

Definition decimal (tok : bytestring) : Z :=
  fold_left (fun acc c => acc * 10 + digit_value c)%Z tok 0%Z.

Definition leading_zero (tok : bytestring) : bool :=
  match tok with
  | c :: _ :: _ => Byte.eqb c x30
  | _ => false
  end.

(** Modelled from the spec: "priority values 0-191 parse to the
    corresponding numeric value; values with a leading zero, more than 3
    digits, or a non-digit are rejected". *)
Definition parse_priority (tok : bytestring) : option Z :=
  if forallb is_digit tok && (1 <=? length tok) && (length tok <=? 3)
     && negb (leading_zero tok) && (decimal tok <=? 191)%Z
  then Some (decimal tok) else None.

(** Modelled from the spec: the version is a "small positive integer"
    (one to three digits, the first not zero, as in RFC 5424). *)
Definition parse_version (tok : bytestring) : option Z :=
  if forallb is_digit tok && (1 <=? length tok) && (length tok <=? 3)
     && (1 <=? decimal tok)%Z && negb (leading_zero tok)
  then Some (decimal tok) else None.

(** Modelled from the spec: the callbacks usyslog.c invokes, recorded
    with what each was given ("same kinds, same field contents"). *)
Inductive invocation : Type :=
| Call_msg_begin
| Call_msg_head (h : syslog_msg_head)
| Call_sd_element (s : bytestring)
| Call_sd_field (s : bytestring)
| Call_sd_value (s : bytestring)
| Call_msg (s : bytestring)
| Call_msg_complete.

(** Modelled from the spec: the status [uslg_parser_exec] returns,
    "distinguishing consumed cleanly, consumed up to error at offset N,
    and aborted by callback". *)
Inductive status : Type :=
| Consumed (n : nat)
| ErrorAt (e : perror) (offset : nat)
| Aborted (rc : Z) (offset : nat).

(** Modelled from the spec: a byte span, "a non-owning view (offset +
    length)" into the chunk, or into the carry buffer for a token that
    crossed a chunk boundary. *)
Inductive span : Type :=
| InChunk (offset len : nat)
| InCarry (len : nat).

(** Modelled from the spec: the bytes of the chunk between two
    offsets, and the bytes a span designates. *)
Definition slice (data : bytestring) (from to : nat) : bytestring :=
  firstn (to - from) (skipn from data).

Definition span_bytes (data : bytestring) (p : syslog_parser) (sp : span)
  : bytestring :=
  match sp with
  | InChunk offset len => firstn len (skipn offset data)
  | InCarry len => firstn len (bytes (buffer p))
  end.

(** Modelled from the spec: the growable carry buffer keeps its
    capacity when its contents are dropped ("capacity may be retained")
    and grows to fit what is appended. *)
Definition clear_carry (p : syslog_parser) : syslog_parser :=
  set_buffer p (mkBuffer [] (size (buffer p))).

Definition push_carry (p : syslog_parser) (s : bytestring) : syslog_parser :=
  set_buffer p (mkBuffer (bytes (buffer p) ++ s)
                         (Nat.max (size (buffer p))
                                  (position (buffer p) + length s))).

(** Modelled from the spec: a violation "sets error and moves to ERROR,
    halting consumption mid-chunk". *)
Definition fail (p : syslog_parser) (e : perror) : syslog_parser :=
  clear_carry (set_error (set_state p ERROR) e).

(** Modelled from the spec: after one byte the state machine goes on
    with the next one or halts with a status. *)
Inductive step (A : Type) : Type :=
| Next (p : syslog_parser) (a : A) (mark : nat) (calls : list invocation)
| Halt (p : syslog_parser) (a : A) (s : status) (calls : list invocation).
Arguments Next {A} p a mark calls.
Arguments Halt {A} p a s calls.

Definition after {A} (calls : list invocation) (r : step A) : step A :=
  match r with
  | Next p a mark cs => Next p a mark (calls ++ cs)
  | Halt p a s cs => Halt p a s (calls ++ cs)
  end.

(** Modelled from the spec: "any callback is permitted to signal abort
    (non-zero return) which the machine treats identically to a
    structural violation", reported as [CallbackAborted]. *)
Definition invoke {A} (r : A * Z) (c : invocation) (i : nat)
    (p : syslog_parser) (k : A -> step A) : step A :=
  let (a, rc) := r in
  if (rc =? 0)%Z then after [c] (k a)
  else Halt (fail p CallbackAborted) a (Aborted rc i) [c].

(** Modelled from the spec: the span of a completed token "points into
    the carry buffer (not the original chunk) for spans that crossed a
    boundary, and into the original chunk otherwise"; the carry buffer
    is first extended with the new bytes. *)
Definition take_token (p : syslog_parser) (data : bytestring) (mark i : nat)
  : syslog_parser * span :=
  if position (buffer p) =? 0 then (p, InChunk mark (i - mark))
  else let p' := push_carry p (slice data mark i) in
       (p', InCarry (position (buffer p'))).

(** Modelled from the spec: a transition of the state machine; no
    token is in flight after it, and the carry buffer is empty. *)
Definition arrive (p : syslog_parser) (st : pstate) (ts : tstate)
  : syslog_parser :=
  set_token_state (set_state (clear_carry p) st) ts.

Definition reject {A} (p : syslog_parser) (a : A) (e : perror) (i : nat)
  : step A :=
  Halt (fail p e) a (ErrorAt e i) [].

(** Modelled from the spec: the message head accumulator keeps each
    head field as it "tokenizes to completion". *)
Definition set_string_field (st : pstate) (tok : bytestring)
    (h : syslog_msg_head) : syslog_msg_head :=
  let n := length tok in
  match st with
  | TIMESTAMP =>
      mkMsgHead (priority h) (version h) (Some tok) n
                (hostname h) (hostname_len h) (appname h) (appname_len h)
                (processid h) (processid_len h)
                (messageid h) (messageid_len h)
  | HOSTNAME =>
      mkMsgHead (priority h) (version h) (timestamp h) (timestamp_len h)
                (Some tok) n (appname h) (appname_len h)
                (processid h) (processid_len h)
                (messageid h) (messageid_len h)
  | APPNAME =>
      mkMsgHead (priority h) (version h) (timestamp h) (timestamp_len h)
                (hostname h) (hostname_len h) (Some tok) n
                (processid h) (processid_len h)
                (messageid h) (messageid_len h)
  | PROCESSID =>
      mkMsgHead (priority h) (version h) (timestamp h) (timestamp_len h)
                (hostname h) (hostname_len h) (appname h) (appname_len h)
                (Some tok) n (messageid h) (messageid_len h)
  | MESSAGEID =>
      mkMsgHead (priority h) (version h) (timestamp h) (timestamp_len h)
                (hostname h) (hostname_len h) (appname h) (appname_len h)
                (processid h) (processid_len h) (Some tok) n
  | _ => h
  end.

Definition set_priority (n : Z) (h : syslog_msg_head) : syslog_msg_head :=
  mkMsgHead n (version h) (timestamp h) (timestamp_len h)
            (hostname h) (hostname_len h) (appname h) (appname_len h)
            (processid h) (processid_len h) (messageid h) (messageid_len h).

Definition set_version (n : Z) (h : syslog_msg_head) : syslog_msg_head :=
  mkMsgHead (priority h) n (timestamp h) (timestamp_len h)
            (hostname h) (hostname_len h) (appname h) (appname_len h)
            (processid h) (processid_len h) (messageid h) (messageid_len h).

(** Modelled from the spec: what the completion of a token does,
    by the state it was collected in: the head fields are accumulated
    and "exposed together" by [on_msg_head] "once all seven head fields
    are parsed"; [on_sd_element], [on_sd_field] and [on_sd_value] fire
    when a name, a field name or a value completes. *)
Definition complete_token {A} (cbs : syslog_parser_settings A) (i : nat)
    (st : pstate) (ts : tstate) (tok : bytestring)
    (p : syslog_parser) (a : A) : step A :=
  let next q a' := Next (arrive q st ts) a' (S i) [] in
  match state p with
  | PRIORITY =>
      match parse_priority tok with
      | Some n => next (set_msg_head p (set_priority n (msg_head p))) a
      | None => reject p a MalformedPriority i
      end
  | VERSION =>
      match parse_version tok with
      | Some n => next (set_msg_head p (set_version n (msg_head p))) a
      | None => reject p a MalformedVersion i
      end
  | TIMESTAMP | HOSTNAME | APPNAME | PROCESSID =>
      match tok with
      | [] => reject p a MissingSeparator i
      | _ => next (set_msg_head p (set_string_field (state p) tok
                                                    (msg_head p))) a
      end
  | MESSAGEID =>
      match tok with
      | [] => reject p a MissingSeparator i
      | _ =>
          let q := set_msg_head p (set_string_field MESSAGEID tok
                                                    (msg_head p)) in
          invoke (on_msg_head cbs q a) (Call_msg_head (msg_head q)) i q
                 (next q)
      end
  | SD_ELEMENT_NAME =>
      invoke (on_sd_element cbs p tok a) (Call_sd_element tok) i p (next p)
  | SD_FIELD_NAME =>
      invoke (on_sd_field cbs p tok a) (Call_sd_field tok) i p (next p)
  | SD_FIELD_VALUE =>
      invoke (on_sd_value cbs p tok a) (Call_sd_value tok) i p (next p)
  | _ => next p a
  end.

(** Modelled from the spec: a structural delimiter.  [on_msg_begin]
    fires "on recognizing the opening priority delimiter", where the
    message head is reset; [on_msg_complete] fires when the delimiter
    ends a message that has no body. *)
Definition structural {A} (cbs : syslog_parser_settings A) (i : nat)
    (st : pstate) (ts : tstate) (p : syslog_parser) (a : A) : step A :=
  let next q a' := Next (arrive q st ts) a' (S i) [] in
  match state p, st with
  | START, _ =>
      let q := set_msg_head p zero_msg_head in
      invoke (on_msg_begin cbs q a) Call_msg_begin i q (next q)
  | _, COMPLETE =>
      invoke (on_msg_complete cbs p a) Call_msg_complete i p (next p)
  | _, _ => next p a
  end.

(** Modelled from the spec: [on_msg] fires "one or more times as body
    bytes become available": each body byte is handed to [on_msg] when
    it is consumed, as the span of length one at its offset, so that the
    body is never buffered and the invocations are the same "for any
    arbitrary split" of the bytes into chunks; [on_msg_complete] fires
    when the delimiter is reached. *)
Definition body_byte {A} (cbs : syslog_parser_settings A) (i : nat)
    (p : syslog_parser) (a : A) (c : byte) : step A :=
  if is_delimiter c then
    invoke (on_msg_complete cbs p a) Call_msg_complete i p
           (fun a' => Next (arrive p COMPLETE TS_NONE) a' (S i) [])
  else
    invoke (on_msg cbs p [c] a) (Call_msg [c]) i p
           (fun a' => Next p a' (S i) []).

(** Modelled from the spec: the step of the state machine on the byte
    [c] at offset [i] of the chunk [data]; [mark] is the offset at
    which the token in flight starts in this chunk. *)
Definition feed {A} (cbs : syslog_parser_settings A) (data : bytestring)
    (mark i : nat) (p : syslog_parser) (a : A) (c : byte) : step A :=
  match state p with
  | BODY => body_byte cbs i p a c
  | _ =>
      match tokenize (state p) (token_state p) c with
      | Reject e => reject p a e i
      | Continue ts => Next (set_token_state p ts) a mark []
      | Transition st ts => structural cbs i st ts p a
      | Emit st ts =>
          let (q, sp) := take_token p data mark i in
          complete_token cbs i st ts (span_bytes data q sp) q a
      end
  end.

(** Modelled from the spec: what a call of [uslg_parser_exec] leaves:
    the parser, the state of the embedding layer, the status and the
    callbacks that were invoked. *)
Record outcome (A : Type) : Type := mkOutcome {
  o_parser : syslog_parser;
  o_world : A;
  o_status : status;
  o_calls : list invocation
}.
Arguments mkOutcome {A} _ _ _ _.

Definition calls_before {A} (calls : list invocation) (o : outcome A)
  : outcome A :=
  mkOutcome (o_parser o) (o_world o) (o_status o) (calls ++ o_calls o).

(** Modelled from the spec: the end of the chunk.  "When a chunk ends
    mid-token, the tokenizer copies the consumed-so-far bytes of that
    token into the carry buffer and returns"; in [BODY] no token is in
    flight and nothing is carried. *)
Definition chunk_end {A} (data : bytestring) (i mark : nat)
    (p : syslog_parser) (a : A) : outcome A :=
  match state p with
  | BODY | COMPLETE | ERROR => mkOutcome p a (Consumed i) []
  | _ => mkOutcome (push_carry p (slice data mark i)) a (Consumed i) []
  end.

(** Modelled from the spec: the loop over the bytes of one chunk;
    [rest] is what follows offset [i].  "COMPLETE and ERROR are terminal
    until reset". *)
Fixpoint run {A} (cbs : syslog_parser_settings A) (data rest : bytestring)
    (i mark : nat) (p : syslog_parser) (a : A) : outcome A :=
  match rest with
  | [] => chunk_end data i mark p a
  | c :: rest' =>
      match state p with
      | COMPLETE | ERROR => mkOutcome p a (Consumed i) []
      | _ =>
          match feed cbs data mark i p a c with
          | Next p' a' mark' calls =>
              calls_before calls (run cbs data rest' (S i) mark' p' a')
          | Halt p' a' s calls => mkOutcome p' a' s calls
          end
      end
  end.

(** Modelled from the spec: [init] "allocate and zero a parser bound to
    an opaque context handle passed back on every callback". *)
Definition uslg_parser_init (parser : syslog_parser) (app_data : option nat)
  : syslog_parser * Z :=
  (set_app_data zero_parser app_data, 0%Z).

(** Modelled from the spec: [reset] "return to START, clear head/SD
    accumulators and carry buffer contents (capacity may be retained),
    clear error". *)
Definition uslg_parser_reset (parser : syslog_parser) : syslog_parser :=
  mkParser (flags parser) TS_NONE START NoError zero_msg_head 0 0
           (mkBuffer [] (size (buffer parser))) (app_data parser).

(** Modelled from the spec: [exec] "feed a chunk; invokes zero or more
    callbacks from settings; returns a status"; "once error is non-zero,
    no further bytes are consumed until reset is called" and a call then
    "is a no-op that reports the same error". *)
Definition uslg_parser_exec {A} (parser : syslog_parser)
    (settings : syslog_parser_settings A) (a : A)
    (data : bytestring) (length : nat) : outcome A :=
  match error parser with
  | NoError => run settings (firstn length data) (firstn length data)
                   0 0 parser a
  | e => mkOutcome parser a (ErrorAt e 0) []
  end.

End lib.

(* ================================================================= *)
(** ** cffi primitives *)

(** [ffi.new_handle(x)] and [ffi.from_handle(h)]: a handle designates
    the object it was made from for as long as it is kept alive. *)
Definition new_handle (l : loc) : py nat :=
  fun w => (mkWorld (heap w) (handles w ++ [l]) (stdout w),
            Ok (length (handles w))).

Definition from_handle (h : option nat) : py loc :=
  fun w => match h with
           | Some n => match nth_error (handles w) n with
                       | Some l => (w, Ok l)
                       | None => (w, Raise SystemError)
                       end
           | None => (w, Raise SystemError)
           end.

Fixpoint until_nul (s : bytestring) : bytestring :=
  match s with
  | [] => []
  | c :: s' => if Byte.eqb c x00 then [] else c :: until_nul s'
  end.

(** [ffi.string(cdata, maxlen)] on a [char *]: the bytes up to the
    first null byte, at most [maxlen] of them. *)
Definition ffi_string (cdata : option bytestring) (maxlen : nat) : py pyval :=
  match cdata with
  | Some m => ret (VStr (until_nul (firstn maxlen m)))
  | None => raise RuntimeError
  end.

(** [@ffi.callback("int (...)")]: the C caller gets the integer the
    function returns, and 0 when it raises. *)
Definition ffi_callback (f : py Z) : world -> world * Z :=
  fun w => match f w with
           | (w', Ok rc) => (w', rc)
           | (w', Raise _) => (w', 0%Z)
           end.

(** [obj.attr = v] on a [SyslogMessageHead] instance. *)
Definition setattr (l : loc) (f : SyslogMessageHead -> SyslogMessageHead)
  : py unit :=
  h <- get_head l ;;
  store l (OHead (f h)).

Definition with_priority (v : pyval) (h : SyslogMessageHead) :=
  mkHead v (version h) (timestamp h) (hostname h) (appname h) (processid h)
         (messageid h) (sd h) (current_sde h) (current_sd_field h).
Definition with_version (v : pyval) (h : SyslogMessageHead) :=
  mkHead (priority h) v (timestamp h) (hostname h) (appname h) (processid h)
         (messageid h) (sd h) (current_sde h) (current_sd_field h).
Definition with_timestamp (v : pyval) (h : SyslogMessageHead) :=
  mkHead (priority h) (version h) v (hostname h) (appname h) (processid h)
         (messageid h) (sd h) (current_sde h) (current_sd_field h).
Definition with_hostname (v : pyval) (h : SyslogMessageHead) :=
  mkHead (priority h) (version h) (timestamp h) v (appname h) (processid h)
         (messageid h) (sd h) (current_sde h) (current_sd_field h).
Definition with_appname (v : pyval) (h : SyslogMessageHead) :=
  mkHead (priority h) (version h) (timestamp h) (hostname h) v (processid h)
         (messageid h) (sd h) (current_sde h) (current_sd_field h).
Definition with_processid (v : pyval) (h : SyslogMessageHead) :=
  mkHead (priority h) (version h) (timestamp h) (hostname h) (appname h) v
         (messageid h) (sd h) (current_sde h) (current_sd_field h).
Definition with_messageid (v : pyval) (h : SyslogMessageHead) :=
  mkHead (priority h) (version h) (timestamp h) (hostname h) (appname h)
         (processid h) v (sd h) (current_sde h) (current_sd_field h).

Definition print_attr (l : loc) (f : SyslogMessageHead -> pyval) : py unit :=
  h <- get_head l ;; print (f h).

(* ================================================================= *)
(** ** The callbacks *)

Definition on_msg_begin (parser : usyslog.syslog_parser)
  : world -> world * Z :=
  ffi_callback (print (VStr (bs "on_msg_begin")) ;;; ret 0%Z).

Definition on_msg_head (parser : usyslog.syslog_parser)
  : world -> world * Z :=
  ffi_callback (
    print (VStr (bs "on_msg_head")) ;;;
    msg_head <- from_handle (usyslog.app_data parser) ;;
    print (VRef msg_head) ;;;
    let mh := usyslog.msg_head parser in
    setattr msg_head (with_priority (VInt (usyslog.priority mh))) ;;;
    setattr msg_head (with_version (VInt (usyslog.version mh))) ;;;
    v <- ffi_string (usyslog.timestamp mh) (usyslog.timestamp_len mh) ;;
    setattr msg_head (with_timestamp v) ;;;
    v <- ffi_string (usyslog.hostname mh) (usyslog.hostname_len mh) ;;
    setattr msg_head (with_hostname v) ;;;
    v <- ffi_string (usyslog.appname mh) (usyslog.appname_len mh) ;;
    setattr msg_head (with_appname v) ;;;
    v <- ffi_string (usyslog.processid mh) (usyslog.processid_len mh) ;;
    setattr msg_head (with_processid v) ;;;
    v <- ffi_string (usyslog.messageid mh) (usyslog.messageid_len mh) ;;
    setattr msg_head (with_messageid v) ;;;
    print_attr msg_head priority ;;;
    print_attr msg_head version ;;;
    print_attr msg_head timestamp ;;;
    print_attr msg_head hostname ;;;
    print_attr msg_head appname ;;;
    print_attr msg_head processid ;;;
    print_attr msg_head messageid ;;;
    ret 0%Z).

Definition on_sd_element (parser : usyslog.syslog_parser) (at_ : bytestring)
  : world -> world * Z :=
  ffi_callback (print (VStr (bs "on_sd_element")) ;;; ret 0%Z).

Definition on_sd_field (parser : usyslog.syslog_parser) (at_ : bytestring)
  : world -> world * Z :=
  ffi_callback (print (VStr (bs "on_sd_field")) ;;; ret 0%Z).

Definition on_sd_value (parser : usyslog.syslog_parser) (at_ : bytestring)
  : world -> world * Z :=
  ffi_callback (print (VStr (bs "on_sd_value")) ;;; ret 0%Z).

Definition on_msg (parser : usyslog.syslog_parser) (at_ : bytestring)
  : world -> world * Z :=
  ffi_callback (print (VStr (bs "on_msg")) ;;; ret 0%Z).

Definition on_msg_complete (parser : usyslog.syslog_parser)
  : world -> world * Z :=
  ffi_callback (print (VStr (bs "on_msg_complete")) ;;; ret 0%Z).

(* ================================================================= *)
(** ** class Parser *)

(** The settings structure [Parser.__init__] fills in, one slot per
    callback. *)
Definition callbacks : usyslog.syslog_parser_settings world :=
  usyslog.mkSettings on_msg_begin on_msg_head on_sd_element on_sd_field
                     on_sd_value on_msg on_msg_complete.

(** The settings of a consumer that rejects every message: its
    [on_msg_begin] returns 7. *)
Definition rejecting : usyslog.syslog_parser_settings world :=
  usyslog.mkSettings (fun _ => ffi_callback (ret 7%Z)) on_msg_head
                     on_sd_element on_sd_field on_sd_value on_msg
                     on_msg_complete.

Record Parser : Type := mkParserObject {
  _msg_head : loc;
  _msg_head_ctype : nat;
  _cparser : usyslog.syslog_parser;
  _cparser_settings : usyslog.syslog_parser_settings world
}.

(** [Parser.__init__(self, msg_delegate)]. *)
Definition Parser_init (msg_delegate : pyval) : py Parser :=
  msg_head <- SyslogMessageHead_new ;;
  msg_head_ctype <- new_handle msg_head ;;
  let cparser := usyslog.zero_parser in
  let cparser := fst (lib.uslg_parser_init cparser (Some msg_head_ctype)) in
  ret (mkParserObject msg_head msg_head_ctype cparser callbacks).

(** What [Parser.read] leaves behind: the store, the instance with its
    native parser advanced, the value the call evaluates to, and the
    callbacks that ran meanwhile. *)
Record read_result : Type := mkRead {
  r_world : world;
  r_self : Parser;
  r_value : result pyval;
  r_calls : list lib.invocation
}.

(** [Parser.read(self, bytearray)]: the call to [lib.uslg_parser_exec]
    is an expression statement and the method has no [return]. *)
Definition Parser_read (self : Parser) (bytearray : bytestring) (w : world)
  : read_result :=
  let o := lib.uslg_parser_exec (_cparser self) (_cparser_settings self) w
                                bytearray (length bytearray) in
  mkRead (lib.o_world o)
         (mkParserObject (_msg_head self) (_msg_head_ctype self)
                         (lib.o_parser o) (_cparser_settings self))
         (Ok VNone)
         (lib.o_calls o).

(** The exception a call of [read] raises, as an instance; the
    exceptions of the store are of builtin classes. *)
Definition exn_name (e : exn) : string :=
  match e with
  | AttributeError => "AttributeError"
  | TypeError => "TypeError"
  | KeyError => "KeyError"
  | UnicodeDecodeError => "UnicodeDecodeError"
  | RuntimeError => "RuntimeError"
  | SystemError => "SystemError"
  end.

Definition read_raises (r : read_result) : option pyexc :=
  match r_value r with
  | Ok _ => None
  | Raise e => Some (Builtin (exn_name e))
  end.

(** Successive [read] calls on one instance, one per chunk. *)
Fixpoint read_chunks (self : Parser) (chunks : list bytestring) (w : world)
  : read_result :=
  match chunks with
  | [] => mkRead w self (Ok VNone) []
  | c :: chunks' =>
      let r := Parser_read self c w in
      let r' := read_chunks (r_self r) chunks' (r_world r) in
      mkRead (r_world r') (r_self r') (r_value r') (r_calls r ++ r_calls r')
  end.

(** The value of an attribute of a [Parser] instance. *)
Inductive attribute : Type :=
| AttrObject (l : loc)
| AttrHandle (h : nat)
| AttrCData (p : usyslog.syslog_parser)
| AttrSettings (s : usyslog.syslog_parser_settings world)
| AttrMethod (name : string).

(** [self.name]: the instance attributes set by [__init__], then the
    methods of the class; anything else is an [AttributeError]. *)
Definition Parser_getattr (self : Parser) (name : string) : py attribute :=
  if String.eqb name "_msg_head" then ret (AttrObject (_msg_head self))
  else if String.eqb name "_msg_head_ctype"
  then ret (AttrHandle (_msg_head_ctype self))
  else if String.eqb name "_cparser" then ret (AttrCData (_cparser self))
  else if String.eqb name "_cparser_settings"
  then ret (AttrSettings (_cparser_settings self))
  else if String.eqb name "__init__" || String.eqb name "read"
          || String.eqb name "reset"
  then ret (AttrMethod name)
  else raise AttributeError.

(** [x.reset()] on an attribute value: only the [SyslogMessageHead]
    instance has such a method; cdata structures and handles expose no
    methods. *)
Definition call_reset (x : attribute) : py pyval :=
  match x with
  | AttrObject l => reset l ;;; ret VNone
  | _ => raise AttributeError
  end.

(** [Parser.reset(self)]: [self.cparser.reset()]. *)
Definition Parser_reset (self : Parser) : py pyval :=
  x <- Parser_getattr self "cparser" ;;
  call_reset x.

(* ================================================================= *)
(** ** Observations on the store *)

Definition head_at (w : world) (l : loc) : option SyslogMessageHead :=
  match nth_error (heap w) l with
  | Some (OHead h) => Some h
  | _ => None
  end.

Definition dict_at (w : world) (l : loc) : option pydict :=
  match nth_error (heap w) l with
  | Some (ODict d) => Some d
  | _ => None
  end.

(** The elements a dictionary of element references designates. *)
Fixpoint resolve (w : world) (d : pydict) : option (list (pykey * pydict)) :=
  match d with
  | [] => Some []
  | (k, VRef l) :: d' =>
      match dict_at w l, resolve w d' with
      | Some e, Some r => Some ((k, e) :: r)
      | _, _ => None
      end
  | _ :: _ => None
  end.

(** The state of an accumulator as its user sees it: attribute values,
    with the dictionaries behind [sd] and [current_sde] read through. *)
Record head_state : Type := mkState {
  s_fields : list pyval;
  s_sd : list (pykey * pydict);
  s_current_sde : option pydict;
  s_current_sd_field : pykey
}.

Definition head_fields (h : SyslogMessageHead) : list pyval :=
  [priority h; version h; timestamp h; hostname h; appname h; processid h;
   messageid h].

Definition observe (w : world) (self : loc) : option head_state :=
  match head_at w self with
  | None => None
  | Some h =>
      match dict_at w (sd h) with
      | None => None
      | Some d =>
          match resolve w d with
          | None => None
          | Some elements =>
              match current_sde h with
              | None => Some (mkState (head_fields h) elements None
                                      (current_sd_field h))
              | Some e =>
                  match dict_at w e with
                  | Some c => Some (mkState (head_fields h) elements (Some c)
                                            (current_sd_field h))
                  | None => None
                  end
              end
          end
      end
  end.

(** The state [reset] describes. *)
Definition initial_state : head_state :=
  mkState [VStr []; VStr []; VStr []; VStr []; VStr []; VStr []; VStr []]
          [] None KNone.

(* ================================================================= *)
(** ** Sample data *)

(** The message of the specification's end-to-end scenario A and its
    head, in the accumulator and in the native parser. *)
Definition scenario_a : bytestring :=
  bs "<34>1 2003-10-11T22:14:15.003Z mymachine su 1234 ID47 - BOMsu root failed".

Definition head_34 : SyslogMessageHead :=
  mkHead (VInt 34) (VInt 1) (VStr (bs "2003-10-11T22:14:15.003Z"))
         (VStr (bs "mymachine")) (VStr (bs "su")) (VStr (bs "1234"))
         (VStr (bs "ID47")) 1 None KNone.

Definition scenario_a_head : usyslog.syslog_msg_head :=
  usyslog.mkMsgHead 34 1 (Some (bs "2003-10-11T22:14:15.003Z")) 24
    (Some (bs "mymachine")) 9 (Some (bs "su")) 2
    (Some (bs "1234")) 4 (Some (bs "ID47")) 4.

(** A [Parser] constructed in the empty store and fed the given chunks;
    should [__init__] raise, an instance with a zeroed native parser. *)
Definition used_parser (msg_delegate : pyval) (chunks : list bytestring)
  : read_result :=
  match Parser_init msg_delegate empty_world with
  | (w, Ok self) => read_chunks self chunks w
  | (w, Raise _) =>
      mkRead w (mkParserObject 0 0 usyslog.zero_parser callbacks)
             (Raise SystemError) []
  end.

(* ================================================================= *)
(** ** Sequences of structured-data operations *)

Inductive sd_op : Type :=
| CreateSde (sd_name : pykey)
| SetSdField (sd_fieldname : pykey)
| SetSdValue (value : pyval).

Definition run_op (self : loc) (op : sd_op) : py unit :=
  match op with
  | CreateSde sd_name => create_sde self sd_name
  | SetSdField sd_fieldname => set_sd_field self sd_fieldname
  | SetSdValue value => set_sd_value self value
  end.

(** The calls are made one after the other; a call that raises leaves
    the store as it was when the exception occurred. *)
Fixpoint run_ops (self : loc) (ops : list sd_op) (w : world) : world :=
  match ops with
  | [] => w
  | op :: ops' => run_ops self ops' (fst (run_op self op w))
  end.

Definition pykey_eq_dec (x y : pykey) : {x = y} + {x <> y}.
Proof.
  decide equality. apply (list_eq_dec Byte.byte_eq_dec).
Defined.

(** Element names are unique in [sd] and field names are unique in
    every element [sd] refers to. *)
Definition sd_unique (w : world) (self : loc) : Prop :=
  exists h d,
    head_at w self = Some h /\
    dict_at w (sd h) = Some d /\
    NoDup (dict_keys d) /\
    forall k v, In (k, v) d ->
      exists l e, v = VRef l /\ dict_at w l = Some e /\ NoDup (dict_keys e).

(** The invariant the three operations maintain: [sd] is a dictionary
    of references to element dictionaries, none of which is [sd]
    itself, all with unique keys, and the current element is one of
    them. *)
Definition sd_inv (w : world) (self : loc) : Prop :=
  exists h d,
    head_at w self = Some h /\
    dict_at w (sd h) = Some d /\
    NoDup (dict_keys d) /\
    (forall k v, In (k, v) d ->
       exists l e, v = VRef l /\ l <> sd h /\
                   dict_at w l = Some e /\ NoDup (dict_keys e)) /\
    (forall l, current_sde h = Some l -> exists name, In (name, VRef l) d).

(** Once an element was created there is a current element. *)
Definition has_current (w : world) (self : loc) : Prop :=
  exists h l, head_at w self = Some h /\ current_sde h = Some l.

(* ================================================================= *)
(** ** Reasoning about statements *)

(** [wp m Q E w]: run from [w], the statement [m] ends in a store
    satisfying [Q a] when it returns [a], and [E] when it raises. *)
Definition wp {A} (m : py A) (Q : A -> world -> Prop) (E : world -> Prop)
    (w : world) : Prop :=
  match m w with
  | (w', Ok a) => Q a w'
  | (w', Raise _) => E w'
  end.

(** A statement that only reads. *)
Definition reads {A} (m : py A) : Prop := forall w, fst (m w) = w.

(** [ext n w w']: the store [w'] has every object of [w] below [n] as it
    was, and the same handles and output. *)
Definition ext (n : nat) (w w' : world) : Prop :=
  length (heap w) <= length (heap w') /\
  (forall l, l < n -> nth_error (heap w') l = nth_error (heap w) l) /\
  handles w' = handles w /\
  stdout w' = stdout w.

(** The dictionaries [as_dict] builds, while it runs: the result
    dictionary at [n + 1], [sd_copy] at [n], and the element copies
    above, which hold decoded strings only. *)
Definition copies (n : nat) (dd : pydict) (w : world) : Prop :=
  n + 1 < length (heap w) /\
  dict_at w (n + 1) = Some dd /\
  exists cd,
    dict_at w n = Some cd /\
    forall k v, In (k, v) cd ->
      exists l ce, v = VRef l /\ n + 1 < l /\ dict_at w l = Some ce /\
                   forall f u, In (f, u) ce -> exists y, u = VUnicode y.

(** The values of every element of the accumulator are byte strings
    that decode. *)
Definition decodable (B : builtins) (w : world) (self : loc) : Prop :=
  forall h d k l e f x,
    head_at w self = Some h -> dict_at w (sd h) = Some d ->
    In (k, VRef l) d -> dict_at w l = Some e -> In (f, x) e ->
    exists s u, x = VStr s /\ decode_utf8 B s = Some u.

Definition decoded (B : builtins) (x : pyval) : pyval :=
  match x with
  | VStr s => match decode_utf8 B s with
              | Some u => VUnicode u
              | None => VNone
              end
  | _ => VNone
  end.

Definition decoded_dict (B : builtins) (e : pydict) : pydict :=
  map (fun fx => (fst fx, decoded B (snd fx))) e.

(** Sample builtins for byte strings of US-ASCII text, where [str] of a
    byte string is the string itself and decoding maps every byte to
    its code point. *)
Definition ascii_builtins : builtins :=
  mkBuiltins (fun v => match v with VStr s => s | _ => [] end)
             (fun s => Some (map Byte.to_N s)).

(** An accumulator that received the element of the specification's
    scenario B with its first field. *)
Definition sample_accumulator : world :=
  run_ops 0 [CreateSde (KStr (bs "exampleSDID@32473"));
             SetSdField (KStr (bs "iut")); SetSdValue (VStr (bs "3"))]
          (fst (SyslogMessageHead_new empty_world)).

Definition sample_state : head_state :=
  mkState [VStr []; VStr []; VStr []; VStr []; VStr []; VStr []; VStr []]
          [(KStr (bs "exampleSDID@32473"),
            [(KStr (bs "iut"), VStr (bs "3"))])]
          (Some [(KStr (bs "iut"), VStr (bs "3"))])
          (KStr (bs "iut")).

(* ================================================================= *)
(** ** Callback sequences *)

(** Settings whose callbacks do nothing and never abort. *)
Definition quiet : usyslog.syslog_parser_settings unit :=
  usyslog.mkSettings (fun _ a => (a, 0%Z)) (fun _ a => (a, 0%Z))
                     (fun _ _ a => (a, 0%Z)) (fun _ _ a => (a, 0%Z))
                     (fun _ _ a => (a, 0%Z)) (fun _ _ a => (a, 0%Z))
                     (fun _ a => (a, 0%Z)).

(** No callback of the settings ever signals an abort. *)
Definition never_abort {A} (cbs : usyslog.syslog_parser_settings A) : Prop :=
  (forall p a, snd (usyslog.on_msg_begin cbs p a) = 0%Z) /\
  (forall p a, snd (usyslog.on_msg_head cbs p a) = 0%Z) /\
  (forall p s a, snd (usyslog.on_sd_element cbs p s a) = 0%Z) /\
  (forall p s a, snd (usyslog.on_sd_field cbs p s a) = 0%Z) /\
  (forall p s a, snd (usyslog.on_sd_value cbs p s a) = 0%Z) /\
  (forall p s a, snd (usyslog.on_msg cbs p s a) = 0%Z) /\
  (forall p a, snd (usyslog.on_msg_complete cbs p a) = 0%Z).

(** A parser with its carry buffer left out. *)
Definition erase (p : usyslog.syslog_parser) : usyslog.syslog_parser :=
  usyslog.set_buffer p (usyslog.mkBuffer [] 0).

(** What a step or an outcome says of the parser, without the state of
    the embedding layer. *)
Definition step_view {A} (r : lib.step A) : lib.step unit :=
  match r with
  | lib.Next p _ mark calls => lib.Next p tt mark calls
  | lib.Halt p _ s calls => lib.Halt p tt s calls
  end.

Definition outcome_view {A} (o : lib.outcome A) : lib.outcome unit :=
  lib.mkOutcome (lib.o_parser o) tt (lib.o_status o) (lib.o_calls o).

(** The token in flight: what the carry buffer holds, then the bytes of
    the chunk from [mark] to [i]. *)
Definition in_flight (p : usyslog.syslog_parser) (data : bytestring)
    (mark i : nat) : bytestring :=
  usyslog.bytes (usyslog.buffer p) ++ lib.slice data mark i.

(** Two positions in two chunks at which the parser is in the same
    situation: same fields and same token in flight. *)
Definition same_situation (p1 : usyslog.syslog_parser) (d1 : bytestring)
    (m1 i1 : nat) (p2 : usyslog.syslog_parser) (d2 : bytestring)
    (m2 i2 : nat) : Prop :=
  erase p1 = erase p2 /\
  match usyslog.state p1 with
  | usyslog.BODY | usyslog.COMPLETE | usyslog.ERROR => True
  | _ => in_flight p1 d1 m1 i1 = in_flight p2 d2 m2 i2
  end.

(** Parsers that differ at most in the capacity of the carry buffer
    and, in the states that do not read it, in its contents. *)
Definition same_parser (p q : usyslog.syslog_parser) : Prop :=
  erase p = erase q /\
  match usyslog.state p with
  | usyslog.BODY | usyslog.COMPLETE | usyslog.ERROR => True
  | _ => usyslog.bytes (usyslog.buffer p) = usyslog.bytes (usyslog.buffer q)
  end.

(** Two steps that agree: the same callbacks were invoked, and both go
    on in the same situation or both halt with the same parser. *)
Definition same_step (d1 : bytestring) (i1 : nat) (d2 : bytestring)
    (i2 : nat) (r1 r2 : lib.step unit) : Prop :=
  match r1, r2 with
  | lib.Next q1 _ n1 c1, lib.Next q2 _ n2 c2 =>
      c1 = c2 /\ n1 <= S i1 /\ n2 <= S i2 /\
      same_situation q1 d1 n1 (S i1) q2 d2 n2 (S i2)
  | lib.Halt q1 _ _ c1, lib.Halt q2 _ _ c2 =>
      c1 = c2 /\ same_parser q1 q2 /\
      usyslog.error q1 <> usyslog.NoError
  | _, _ => False
  end.

(** A step that halts on an abort had a non-zero return code from the
    callback and leaves the parser in [ERROR] with the error
    [CallbackAborted]. *)
Definition abort_recorded {A} (r : lib.step A) : Prop :=
  match r with
  | lib.Halt p _ (lib.Aborted rc _) _ =>
      rc <> 0%Z /\ usyslog.error p = usyslog.CallbackAborted /\
      usyslog.state p = usyslog.ERROR
  | _ => True
  end.

(** The states in which the parser consumes nothing more. *)
Definition halted (st : usyslog.pstate) : bool :=
  match st with
  | usyslog.COMPLETE | usyslog.ERROR => true
  | _ => false
  end.

(** Successive [uslg_parser_exec] calls on one parser, one per chunk. *)
Fixpoint exec_chunks {A} (p : usyslog.syslog_parser)
    (cbs : usyslog.syslog_parser_settings A) (a : A)
    (chunks : list bytestring) : lib.outcome A :=
  match chunks with
  | [] => lib.mkOutcome p a (lib.Consumed 0) []
  | c :: chunks' =>
      let o := lib.uslg_parser_exec p cbs a c (length c) in
      lib.calls_before (lib.o_calls o)
        (exec_chunks (lib.o_parser o) cbs (lib.o_world o) chunks')
  end.

(** Scenario A delivered in two chunks, the boundary inside the body;
    one byte per chunk, it is [map (fun c => [c]) scenario_a]. *)
Definition scenario_a_chunks : list bytestring :=
  [bs "<34>1 2003-10-11T22:14:15.003Z mymachine su 1234 ID47 - BOMsu";
   bs " root failed"].

(** The three outcomes a status tells apart. *)
Inductive kind : Type :=
| ConsumedCleanly
| StoppedOnError
| AbortedByCallback.

Definition outcome_kind (s : lib.status) : kind :=
  match s with
  | lib.Consumed _ => ConsumedCleanly
  | lib.ErrorAt _ _ => StoppedOnError
  | lib.Aborted _ _ => AbortedByCallback
  end.

(* ================================================================= *)
(** ** Declaring the fields of an element *)

Definition is_create (op : sd_op) : bool :=
  match op with
  | CreateSde _ => true
  | _ => false
  end.

(** The two calls that declare one field of the current element, and
    the dictionary a sequence of such declarations builds. *)
Definition declare (fv : pykey * pyval) : list sd_op :=
  [SetSdField (fst fv); SetSdValue (snd fv)].

Definition dict_of (pairs : list (pykey * pyval)) : pydict :=
  fold_left (fun e fv => dict_set (fst fv) (snd fv) e) pairs [].

(** The argument of the last [set_sd_field] call, [None] if there was
    none. *)
Definition last_field (ops : list sd_op) : pykey :=
  fold_left (fun k op => match op with SetSdField f => f | _ => k end)
            ops KNone.

(** The names given to [create_sde], each at its first occurrence. *)
Definition add_name (ks : list pykey) (n : pykey) : list pykey :=
  if existsb (pykey_eqb n) ks then ks else ks ++ [n].

Definition created (ops : list sd_op) : list pykey :=
  fold_left (fun ks op => match op with
                          | CreateSde n => add_name ks n
                          | _ => ks
                          end) ops [].

(* ================================================================= *)
(** ** What the callbacks maintain *)

(** What a callback may rely on: the parser carries the [app_data]
    handle it was initialised with. *)
Definition parser_ok (h : option nat) (p : usyslog.syslog_parser) : Prop :=
  usyslog.app_data p = h.

Definition not_aborted (s : lib.status) : Prop :=
  match s with
  | lib.Aborted _ _ => False
  | _ => True
  end.

Definition step_ok {A} (h : option nat) (Inv : A -> Prop) (r : lib.step A)
  : Prop :=
  match r with
  | lib.Next p a _ _ => parser_ok h p /\ Inv a
  | lib.Halt p a s _ => parser_ok h p /\ Inv a /\ not_aborted s
  end.

Definition outcome_ok {A} (h : option nat) (Inv : A -> Prop)
    (o : lib.outcome A) : Prop :=
  parser_ok h (lib.o_parser o) /\ Inv (lib.o_world o) /\
  not_aborted (lib.o_status o).

(** The object a handle designates in a store, if any. *)
Definition designated (w : world) (h : option nat) : option loc :=
  match snd (from_handle h w) with
  | Ok l => Some l
  | Raise _ => None
  end.

(** An object without the seven head fields. *)
Definition forget_fields (o : obj) : obj :=
  match o with
  | OHead h => OHead (mkHead VNone VNone VNone VNone VNone VNone VNone
                             (sd h) (current_sde h) (current_sd_field h))
  | _ => o
  end.

(** [read_frame self w w']: from [w] to [w'] output was added and the
    head fields of the accumulator [self] may have changed; nothing
    else did. *)
Definition read_frame (self : option loc) (w w' : world) : Prop :=
  handles w' = handles w /\
  (exists out, stdout w' = stdout w ++ out) /\
  map forget_fields (heap w') = map forget_fields (heap w) /\
  forall l, self <> Some l -> nth_error (heap w') l = nth_error (heap w) l.

(* ================================================================= *)
(** * Properties *)

Unset Implicit Arguments.

(** ** The store *)

Lemma length_upd (A : Type) (l : nat) (x : A) (xs : list A) :
  length (upd l x xs) = length xs.
Proof.
  revert l; induction xs as [|y xs IH]; intros [|l]; simpl; auto.
Qed.

Lemma nth_error_upd_eq (A : Type) (l : nat) (x : A) (xs : list A) :
  l < length xs -> nth_error (upd l x xs) l = Some x.
Proof.
  revert l; induction xs as [|y xs IH]; intros [|l] H; simpl in *;
    try lia; auto.
  apply IH; lia.
Qed.

Lemma nth_error_upd_neq (A : Type) (l l' : nat) (x : A) (xs : list A) :
  l <> l' -> nth_error (upd l x xs) l' = nth_error xs l'.
Proof.
  revert l l'; induction xs as [|y xs IH]; intros [|l] [|l'] H; simpl;
    try congruence; auto.
Qed.

Lemma upd_upd (A : Type) (l : nat) (x y : A) (xs : list A) :
  upd l x (upd l y xs) = upd l x xs.
Proof.
  revert l; induction xs as [|z xs IH]; intros [|l]; simpl; auto.
  now rewrite IH.
Qed.

Lemma nth_error_snoc (A : Type) (xs : list A) (x : A) :
  nth_error (xs ++ [x]) (length xs) = Some x.
Proof.
  rewrite nth_error_app2 by lia. now rewrite Nat.sub_diag.
Qed.

Lemma nth_error_in_bounds (A : Type) (xs : list A) (l : nat) (x : A) :
  nth_error xs l = Some x -> l < length xs.
Proof.
  intros H. apply nth_error_Some. congruence.
Qed.

Lemma head_at_bound w l h : head_at w l = Some h -> l < length (heap w).
Proof.
  unfold head_at. destruct (nth_error (heap w) l) eqn:E; [|discriminate].
  intros _. eapply nth_error_in_bounds; eauto.
Qed.

Lemma dict_at_bound w l d : dict_at w l = Some d -> l < length (heap w).
Proof.
  unfold dict_at. destruct (nth_error (heap w) l) eqn:E; [|discriminate].
  intros _. eapply nth_error_in_bounds; eauto.
Qed.

Lemma head_at_load w l h :
  head_at w l = Some h -> nth_error (heap w) l = Some (OHead h).
Proof.
  unfold head_at. destruct (nth_error (heap w) l) as [[| |]|]; congruence.
Qed.

Lemma dict_at_load w l d :
  dict_at w l = Some d -> nth_error (heap w) l = Some (ODict d).
Proof.
  unfold dict_at. destruct (nth_error (heap w) l) as [[| |]|]; congruence.
Qed.

(** ** [reset] and construction *)

Lemma reset_instance w self o :
  nth_error (heap w) self = Some o ->
  (forall d, o <> ODict d) ->
  reset self w =
  (mkWorld (upd self (OHead (initial_head (length (heap w))))
                (heap w ++ [ODict []]))
           (handles w) (stdout w), Ok tt).
Proof.
  intros H Ho. pose proof (nth_error_in_bounds _ _ _ _ H) as Hb.
  unfold reset, bind, load. rewrite H.
  assert (E : (self <? length (heap w ++ [ODict []])) = true).
  { apply Nat.ltb_lt. rewrite length_app. simpl. lia. }
  destruct o as [| |d]; [| |now destruct (Ho d)];
    unfold alloc, store; simpl; rewrite E; reflexivity.
Qed.

Lemma reset_head w self h :
  head_at w self = Some h ->
  reset self w =
  (mkWorld (upd self (OHead (initial_head (length (heap w))))
                (heap w ++ [ODict []]))
           (handles w) (stdout w), Ok tt).
Proof.
  intros H. apply reset_instance with (o := OHead h).
  - now apply head_at_load.
  - discriminate.
Qed.

Lemma observe_after_reset hp hd so self :
  self < length hp ->
  observe (mkWorld (upd self (OHead (initial_head (length hp)))
                        (hp ++ [ODict []])) hd so) self
  = Some initial_state.
Proof.
  intros Hb. unfold observe, head_at, dict_at. simpl.
  rewrite nth_error_upd_eq by (rewrite length_app; simpl; lia).
  simpl. rewrite nth_error_upd_neq by lia. rewrite nth_error_snoc.
  reflexivity.
Qed.

(** C8: a freshly constructed [SyslogMessageHead] is in the state [reset]
    produces from any accumulator: the seven head fields are [''], [sd]
    is an empty dict, [current_sde] and [current_sd_field] are [None];
    a second [reset] leaves that state as it is. *)
Theorem fresh_head_is_reset_state (w : world) (self : loc)
    (h : SyslogMessageHead) (Hself : head_at w self = Some h) :
  (exists l, snd (SyslogMessageHead_new w) = Ok l /\
             observe (fst (SyslogMessageHead_new w)) l = Some initial_state) /\
  snd (reset self w) = Ok tt /\
  observe (fst (reset self w)) self = Some initial_state /\
  snd (reset self (fst (reset self w))) = Ok tt /\
  observe (fst (reset self (fst (reset self w)))) self
  = observe (fst (reset self w)) self.
Proof.
  split.
  - exists (length (heap w)).
    unfold SyslogMessageHead_new, bind. simpl.
    rewrite (reset_instance _ (length (heap w)) OBlank);
      [|simpl; apply nth_error_snoc|discriminate].
    simpl. split; [reflexivity|].
    rewrite length_app. simpl.
    replace (length (heap w) + 1) with (length (heap w ++ [OBlank]))
      by (rewrite length_app; reflexivity).
    apply observe_after_reset. rewrite length_app. simpl. lia.
  - pose proof (head_at_bound _ _ _ Hself) as Hb.
    rewrite (reset_head _ _ _ Hself). simpl.
    assert (H1 : head_at
              (mkWorld (upd self (OHead (initial_head (length (heap w))))
                            (heap w ++ [ODict []])) (handles w) (stdout w))
              self = Some (initial_head (length (heap w)))).
    { unfold head_at. simpl.
      rewrite nth_error_upd_eq by (rewrite length_app; simpl; lia).
      reflexivity. }
    rewrite (reset_head _ _ _ H1). simpl.
    repeat split.
    + now apply observe_after_reset.
    + transitivity (Some initial_state).
      * apply observe_after_reset.
        rewrite length_upd, length_app. lia.
      * symmetry. now apply observe_after_reset.
Qed.

Lemma fresh_head_is_reset_state_witness :
  snd (reset 0 (fst (SyslogMessageHead_new empty_world))) = Ok tt /\
  observe (fst (reset 0 (fst (SyslogMessageHead_new empty_world)))) 0
  = Some initial_state.
Proof.
  pose proof (fresh_head_is_reset_state
                (fst (SyslogMessageHead_new empty_world)) 0
                (initial_head 1) eq_refl) as H.
  split; [exact (proj1 (proj2 H)) | exact (proj1 (proj2 (proj2 H)))].
Defined.

(** ** [get_sd] *)

Lemma get_sd_key (w : world) (self : loc) (k : pykey)
    (h : SyslogMessageHead) (d : pydict) :
  head_at w self = Some h -> dict_at w (sd h) = Some d ->
  get_sd self k w
  = (w, Ok (match dict_get k d with Some v => v | None => VNone end)).
Proof.
  intros Hself Hsd. unfold get_sd, get_head, bind, load.
  rewrite (head_at_load _ _ _ Hself). simpl.
  rewrite (dict_at_load _ _ _ Hsd). reflexivity.
Qed.

Lemma get_sd_any_run (w : world) (self : loc) (name : pyval)
    (h : SyslogMessageHead) (d : pydict) :
  head_at w self = Some h -> dict_at w (sd h) = Some d ->
  get_sd_any self name w
  = bind (py_hash name) (fun _ => ret (dict_get_value name d)) w.
Proof.
  intros Hself Hsd. unfold get_sd_any.
  assert (G : get_head self w = (w, Ok h)).
  { unfold get_head, bind, load. now rewrite (head_at_load _ _ _ Hself). }
  unfold bind at 1. rewrite G.
  unfold bind at 1. unfold load at 1.
  now rewrite (dict_at_load _ _ _ Hsd).
Qed.

(** C9, as the code has it: for a hashable name, [get_sd] returns what
    [sd] stores under it, [None] when there is no such element, and
    does not raise; for an unhashable name, a [dict], [self.sd.get]
    raises [TypeError]; the store is the same afterwards in every
    case. *)
Theorem get_sd_raises_on_unhashable_only (w : world) (self : loc)
    (name : pyval) (h : SyslogMessageHead) (d : pydict)
    (Hself : head_at w self = Some h) (Hsd : dict_at w (sd h) = Some d) :
  (forall k v, dict_get k d = Some v -> get_sd self k w = (w, Ok v)) /\
  (forall k, dict_get k d = None -> get_sd self k w = (w, Ok VNone)) /\
  (forall k, as_key name = Some k ->
             get_sd_any self name w = get_sd self k w) /\
  ((forall l, name <> VRef l) ->
   get_sd_any self name w = (w, Ok (dict_get_value name d))) /\
  (forall l o, name = VRef l -> nth_error (heap w) l = Some o ->
               (forall e, o <> ODict e) ->
               get_sd_any self name w = (w, Ok VNone)) /\
  (forall l e, name = VRef l -> dict_at w l = Some e ->
               get_sd_any self name w = (w, Raise TypeError)).
Proof.
  rewrite (get_sd_any_run w self name h d Hself Hsd).
  split; [|split; [|split; [|split; [|split]]]].
  - intros k v Hv. rewrite (get_sd_key w self k h d Hself Hsd).
    now rewrite Hv.
  - intros k Hv. rewrite (get_sd_key w self k h d Hself Hsd).
    now rewrite Hv.
  - intros k Hk. rewrite (get_sd_key w self k h d Hself Hsd).
    unfold dict_get_value. rewrite Hk.
    destruct name; try discriminate; reflexivity.
  - intros Hn. destruct name; try reflexivity. now destruct (Hn l).
  - intros l o -> Ho Hd. unfold py_hash. cbv beta delta [bind load].
    rewrite Ho. destruct o as [|h0|e]; try reflexivity.
    now destruct (Hd e).
  - intros l e -> He. unfold py_hash. cbv beta delta [bind load].
    now rewrite (dict_at_load _ _ _ He).
Qed.

Lemma get_sd_raises_on_unhashable_only_witness :
  let w := fst (create_sde 0 (KStr (bs "origin"))
                           (fst (SyslogMessageHead_new empty_world))) in
  get_sd 0 (KStr (bs "origin")) w = (w, Ok (VRef 2)) /\
  get_sd 0 (KStr (bs "meta")) w = (w, Ok VNone) /\
  get_sd_any 0 (VStr (bs "origin")) w = (w, Ok (VRef 2)) /\
  get_sd_any 0 (VInt 7) w = (w, Ok VNone) /\
  get_sd_any 0 (VRef 2) w = (w, Raise TypeError).
Proof.
  intros w.
  assert (Hself : head_at w 0 = Some (mkHead (VStr []) (VStr []) (VStr [])
                    (VStr []) (VStr []) (VStr []) (VStr []) 1 (Some 2) KNone))
    by reflexivity.
  assert (Hsd : dict_at w 1 = Some [(KStr (bs "origin"), VRef 2)])
    by reflexivity.
  split; [|split; [|split; [|split]]].
  - exact (proj1 (get_sd_raises_on_unhashable_only w 0 VNone _ _ Hself Hsd)
                 (KStr (bs "origin")) (VRef 2) eq_refl).
  - exact (proj1 (proj2
             (get_sd_raises_on_unhashable_only w 0 VNone _ _ Hself Hsd))
             (KStr (bs "meta")) eq_refl).
  - apply (proj1 (proj2 (proj2 (proj2
             (get_sd_raises_on_unhashable_only w 0 (VStr (bs "origin")) _ _
                Hself Hsd))))).
    discriminate.
  - apply (proj1 (proj2 (proj2 (proj2
             (get_sd_raises_on_unhashable_only w 0 (VInt 7) _ _
                Hself Hsd))))).
    discriminate.
  - exact (proj2 (proj2 (proj2 (proj2 (proj2
             (get_sd_raises_on_unhashable_only w 0 (VRef 2) _ _
                Hself Hsd)))))
             2 [] eq_refl eq_refl).
Defined.

(** C9 as stated fails: [get_sd] raises when it is given a name that
    does not hash, such as the accumulator's own [sd] dictionary. *)
Lemma get_sd_unhashable_name_raises :
  ~ (forall (w : world) (self : loc) (name : pyval)
            (h : SyslogMessageHead) (d : pydict),
        head_at w self = Some h -> dict_at w (sd h) = Some d ->
        exists v, get_sd_any self name w = (w, Ok v)).
Proof.
  intros H.
  destruct (H (fst (SyslogMessageHead_new empty_world)) 0 (VRef 1)
              (initial_head 1) [] eq_refl eq_refl) as [v Hv].
  discriminate Hv.
Qed.

(** ** The exception classes *)

Lemma is_prefix_app (s q : string) : is_prefix s (s ++ q)%string = true.
Proof.
  induction s as [|a s IH]; simpl; [reflexivity|].
  now rewrite Ascii.eqb_refl, IH.
Qed.

Lemma contains_here (s q : string) : contains (s ++ q)%string s = true.
Proof.
  destruct s as [|a s]; destruct q as [|c q]; simpl;
    rewrite ?Ascii.eqb_refl, ?is_prefix_app; reflexivity.
Qed.

Lemma contains_skip (p s sub : string) :
  contains s sub = true -> contains (p ++ s)%string sub = true.
Proof.
  intros H. induction p as [|a p IH]; simpl; [exact H|].
  rewrite IH. apply orb_true_r.
Qed.

Lemma contains_end (s : string) : contains s s = true.
Proof.
  destruct s as [|a s]; simpl; [reflexivity|].
  rewrite Ascii.eqb_refl.
  replace s with (s ++ "")%string at 2 by (induction s; simpl; congruence).
  now rewrite is_prefix_app.
Qed.

(** The class [MessageHandlerError]: an instance keeps the cause it
    wraps, is a [SyslogError] of a class that [except ParsingError] does
    not handle (nor does [except MessageHandlerError] handle a
    [ParsingError]), and its [str()] is built from both the message and
    the cause. *)
Lemma MessageHandlerError_class (msg : string) (cause : pyexc) :
  let e := EMessageHandlerError msg cause in
  exc_cause e = Some cause /\
  exc_msg e = Some msg /\
  isinstance e MessageHandlerError = true /\
  isinstance e SyslogError = true /\
  except_catches ParsingError e = false /\
  (forall m, except_catches MessageHandlerError (EParsingError m) = false) /\
  (forall m, exc_cause (EParsingError m) = None) /\
  exc_str e
  = ("MessageHandler exception: " ++ msg ++ " - " ++ exc_str cause)%string /\
  contains (exc_str e) msg = true /\
  contains (exc_str e) (exc_str cause) = true.
Proof.
  simpl. repeat split; try reflexivity.
  - apply (contains_skip "MessageHandler exception: "). apply contains_here.
  - apply (contains_skip "MessageHandler exception: ").
    apply contains_skip. apply (contains_skip " - "). apply contains_end.
Qed.

(** ** The callbacks *)

Lemma observe_heap (w w' : world) (self : loc) :
  heap w' = heap w -> observe w' self = observe w self.
Proof.
  intros H. unfold observe, head_at, dict_at. rewrite H.
  destruct (nth_error (heap w) self) as [[|h|]|]; try reflexivity.
  destruct (nth_error (heap w) (sd h)) as [[| |d]|]; try reflexivity.
  assert (R : resolve w' d = resolve w d).
  { clear -H. induction d as [|[k [| | | |l]] d IH]; simpl; try reflexivity.
    unfold dict_at. rewrite H, IH. reflexivity. }
  rewrite R. reflexivity.
Qed.

(** C4, as the code has it: [on_msg_begin] prints its name and returns
    0; the store keeps every object as it was, so the accumulator's
    head fields, [sd], [current_sde] and [current_sd_field] are what
    they were before the callback. *)
Theorem on_msg_begin_keeps_accumulator (parser : usyslog.syslog_parser)
    (w : world) :
  snd (on_msg_begin parser w) = 0%Z /\
  heap (fst (on_msg_begin parser w)) = heap w /\
  handles (fst (on_msg_begin parser w)) = handles w /\
  stdout (fst (on_msg_begin parser w))
  = stdout w ++ [VStr (bs "on_msg_begin")] /\
  forall self, observe (fst (on_msg_begin parser w)) self = observe w self.
Proof.
  repeat split. intros self. now apply observe_heap.
Qed.

(** C4 as stated fails: an accumulator that holds the head of the
    previous message still holds it after [on_msg_begin]. *)
Lemma on_msg_begin_does_not_reset :
  ~ (forall (parser : usyslog.syslog_parser) (w : world) (self : loc),
        from_handle (usyslog.app_data parser) w = (w, Ok self) ->
        observe (fst (on_msg_begin parser w)) self = Some initial_state).
Proof.
  intros H.
  specialize (H (usyslog.set_app_data usyslog.zero_parser (Some 0))
                (mkWorld [OHead head_34; ODict []] [0] []) 0 eq_refl).
  discriminate H.
Qed.

Lemma bind_ok (A B : Type) (m : py A) (f : A -> py B) (w w' : world) (a : A) :
  m w = (w', Ok a) -> bind m f w = f a w'.
Proof. intros H. unfold bind. now rewrite H. Qed.


Lemma setattr_head (w : world) (l : loc) (h : SyslogMessageHead)
    (f : SyslogMessageHead -> SyslogMessageHead) :
  head_at w l = Some h ->
  setattr l f w
  = (mkWorld (upd l (OHead (f h)) (heap w)) (handles w) (stdout w), Ok tt).
Proof.
  intros H. pose proof (head_at_bound _ _ _ H) as Hb.
  unfold setattr, get_head, bind, load, store.
  rewrite (head_at_load _ _ _ H). simpl.
  apply Nat.ltb_lt in Hb. now rewrite Hb.
Qed.

Lemma head_at_upd (hp : list obj) (hd : list loc) (so : list pyval)
    (l : loc) (h : SyslogMessageHead) :
  l < length hp -> head_at (mkWorld (upd l (OHead h) hp) hd so) l = Some h.
Proof.
  intros Hb. unfold head_at. simpl. now rewrite nth_error_upd_eq.
Qed.

Lemma print_attr_head (w : world) (l : loc) (h : SyslogMessageHead)
    (f : SyslogMessageHead -> pyval) :
  head_at w l = Some h ->
  print_attr l f w
  = (mkWorld (heap w) (handles w) (stdout w ++ [f h]), Ok tt).
Proof.
  intros H. unfold print_attr, get_head, bind, load.
  now rewrite (head_at_load _ _ _ H).
Qed.

(** What [on_msg_head] assigns, from the parser's message head. *)
Lemma on_msg_head_run (parser : usyslog.syslog_parser) (w : world)
    (n : nat) (self : loc) (h : SyslogMessageHead)
    (ts hn an pid mid : bytestring) :
  let mh := usyslog.msg_head parser in
  let h' :=
    mkHead (VInt (usyslog.priority mh)) (VInt (usyslog.version mh))
           (VStr (until_nul (firstn (usyslog.timestamp_len mh) ts)))
           (VStr (until_nul (firstn (usyslog.hostname_len mh) hn)))
           (VStr (until_nul (firstn (usyslog.appname_len mh) an)))
           (VStr (until_nul (firstn (usyslog.processid_len mh) pid)))
           (VStr (until_nul (firstn (usyslog.messageid_len mh) mid)))
           (sd h) (current_sde h) (current_sd_field h) in
  usyslog.app_data parser = Some n ->
  nth_error (handles w) n = Some self ->
  head_at w self = Some h ->
  usyslog.timestamp mh = Some ts ->
  usyslog.hostname mh = Some hn ->
  usyslog.appname mh = Some an ->
  usyslog.processid mh = Some pid ->
  usyslog.messageid mh = Some mid ->
  on_msg_head parser w
  = (mkWorld (upd self (OHead h') (heap w)) (handles w)
             (stdout w ++ [VStr (bs "on_msg_head"); VRef self]
                ++ head_fields h'),
     0%Z).
Proof.
  intros mh h' Happ Hn Hh Hts Hhn Han Hpid Hmid.
  pose proof (head_at_bound _ _ _ Hh) as Hb.
  unfold on_msg_head, ffi_callback.
  fold mh. rewrite Happ, Hts, Hhn, Han, Hpid, Hmid.
  erewrite bind_ok by reflexivity.
  erewrite bind_ok by (unfold from_handle; simpl; rewrite Hn; reflexivity).
  erewrite bind_ok by reflexivity.
  erewrite bind_ok by (apply setattr_head; exact Hh).
  simpl heap; simpl handles; simpl stdout.
  erewrite bind_ok by (apply setattr_head; apply head_at_upd; exact Hb).
  simpl heap; simpl handles; simpl stdout. rewrite upd_upd.
  unfold ffi_string.
  erewrite bind_ok by reflexivity.
  erewrite bind_ok
    by (apply setattr_head; apply head_at_upd; exact Hb).
  simpl heap; simpl handles; simpl stdout. rewrite upd_upd.
  erewrite bind_ok by reflexivity.
  erewrite bind_ok
    by (apply setattr_head; apply head_at_upd; exact Hb).
  simpl heap; simpl handles; simpl stdout. rewrite upd_upd.
  erewrite bind_ok by reflexivity.
  erewrite bind_ok
    by (apply setattr_head; apply head_at_upd; exact Hb).
  simpl heap; simpl handles; simpl stdout. rewrite upd_upd.
  erewrite bind_ok by reflexivity.
  erewrite bind_ok
    by (apply setattr_head; apply head_at_upd; exact Hb).
  simpl heap; simpl handles; simpl stdout. rewrite upd_upd.
  erewrite bind_ok by reflexivity.
  erewrite bind_ok
    by (apply setattr_head; apply head_at_upd; exact Hb).
  simpl heap; simpl handles; simpl stdout. rewrite upd_upd.
  repeat (erewrite bind_ok
            by (apply print_attr_head; apply head_at_upd; exact Hb);
          simpl heap; simpl handles; simpl stdout).
  unfold ret. unfold with_messageid, with_processid, with_appname,
    with_hostname, with_timestamp, with_version, with_priority. simpl.
  repeat rewrite <- app_assoc. reflexivity.
Qed.

Lemma SyslogMessageHead_new_run (w : world) :
  SyslogMessageHead_new w
  = (mkWorld (upd (length (heap w))
                  (OHead (initial_head (length (heap w ++ [OBlank]))))
                  ((heap w ++ [OBlank]) ++ [ODict []]))
             (handles w) (stdout w),
     Ok (length (heap w))).
Proof.
  unfold SyslogMessageHead_new, bind. simpl.
  rewrite (reset_instance _ (length (heap w)) OBlank);
    [reflexivity|simpl; apply nth_error_snoc|discriminate].
Qed.

Lemma observe_new (w : world) :
  observe (fst (SyslogMessageHead_new w)) (length (heap w))
  = Some initial_state.
Proof.
  rewrite SyslogMessageHead_new_run. simpl.
  apply observe_after_reset. rewrite length_app. simpl. lia.
Qed.

(** C3: when [on_msg_head] runs for a parser whose [app_data] handle
    designates the accumulator [self], the seven head fields of [self]
    are the parser's message head afterwards, its other attributes and
    every other object are untouched, and the callback returns 0; the
    handle [Parser.__init__] binds designates the accumulator it
    created. *)
Theorem on_msg_head_sets_all_fields (parser : usyslog.syslog_parser)
    (w : world) (n : nat) (self : loc) (h : SyslogMessageHead)
    (ts hn an pid mid : bytestring)
    (Happ : usyslog.app_data parser = Some n)
    (Hhandle : from_handle (Some n) w = (w, Ok self))
    (Hself : head_at w self = Some h)
    (Hts : usyslog.timestamp (usyslog.msg_head parser) = Some ts)
    (Hhn : usyslog.hostname (usyslog.msg_head parser) = Some hn)
    (Han : usyslog.appname (usyslog.msg_head parser) = Some an)
    (Hpid : usyslog.processid (usyslog.msg_head parser) = Some pid)
    (Hmid : usyslog.messageid (usyslog.msg_head parser) = Some mid) :
  let mh := usyslog.msg_head parser in
  let w' := fst (on_msg_head parser w) in
  snd (on_msg_head parser w) = 0%Z /\
  head_at w' self
  = Some (mkHead
            (VInt (usyslog.priority mh)) (VInt (usyslog.version mh))
            (VStr (until_nul (firstn (usyslog.timestamp_len mh) ts)))
            (VStr (until_nul (firstn (usyslog.hostname_len mh) hn)))
            (VStr (until_nul (firstn (usyslog.appname_len mh) an)))
            (VStr (until_nul (firstn (usyslog.processid_len mh) pid)))
            (VStr (until_nul (firstn (usyslog.messageid_len mh) mid)))
            (sd h) (current_sde h) (current_sd_field h)) /\
  (forall l, l <> self -> nth_error (heap w') l = nth_error (heap w) l) /\
  handles w' = handles w /\
  (forall (msg_delegate : pyval) (w0 : world),
      exists P,
        snd (Parser_init msg_delegate w0) = Ok P /\
        from_handle (usyslog.app_data (_cparser P))
                    (fst (Parser_init msg_delegate w0))
        = (fst (Parser_init msg_delegate w0), Ok (_msg_head P)) /\
        observe (fst (Parser_init msg_delegate w0)) (_msg_head P)
        = Some initial_state).
Proof.
  intros mh w'.
  assert (Hn : nth_error (handles w) n = Some self).
  { unfold from_handle in Hhandle.
    destruct (nth_error (handles w) n); congruence. }
  pose proof (head_at_bound _ _ _ Hself) as Hb.
  subst w'.
  rewrite (on_msg_head_run parser w n self h ts hn an pid mid
             Happ Hn Hself Hts Hhn Han Hpid Hmid).
  simpl. repeat split.
  - now apply head_at_upd.
  - intros l Hl. now apply nth_error_upd_neq.
  - intros msg_delegate w0. unfold Parser_init.
    erewrite bind_ok by apply SyslogMessageHead_new_run.
    erewrite bind_ok by reflexivity.
    eexists. split; [reflexivity|]. simpl. split.
    + unfold from_handle. simpl. now rewrite nth_error_snoc.
    + erewrite observe_heap; [apply (observe_new w0)|].
      rewrite SyslogMessageHead_new_run. reflexivity.
Qed.

Lemma on_msg_head_sets_all_fields_witness :
  let w := fst (Parser_init VNone empty_world) in
  let parser :=
    usyslog.set_msg_head
      (usyslog.set_app_data usyslog.zero_parser (Some 0))
      (usyslog.mkMsgHead 34 1 (Some (bs "2003-10-11T22:14:15.003Z")) 24
         (Some (bs "mymachine")) 9 (Some (bs "su")) 2
         (Some (bs "1234")) 4 (Some (bs "ID47")) 4) in
  head_at (fst (on_msg_head parser w)) 0 = Some head_34.
Proof.
  intros w parser.
  exact (proj1 (proj2
    (on_msg_head_sets_all_fields parser w 0 0 (initial_head 1)
       (bs "2003-10-11T22:14:15.003Z") (bs "mymachine") (bs "su")
       (bs "1234") (bs "ID47")
       eq_refl eq_refl eq_refl eq_refl eq_refl eq_refl eq_refl eq_refl))).
Defined.

(** ** class Parser *)

(** C1: [Parser.reset] looks up [self.cparser], an attribute [__init__]
    never sets (it sets [_cparser]): the call raises [AttributeError]
    and the store is as before.  A parser that stopped on an error
    therefore stays stopped: the message that a fresh instance parses
    reaches no callback on the reused one, whereas it is parsed as on a
    fresh instance once [lib.uslg_parser_reset], which the [cdef] block
    declares, has been applied to the native parser. *)
Theorem Parser_reset_raises :
  (forall (self : Parser) (w : world),
      Parser_reset self w = (w, Raise AttributeError)) /\
  (let fresh := used_parser VNone [] in
   let stuck := used_parser VNone [bs "x"] in
   usyslog.error (_cparser (r_self stuck)) = usyslog.MalformedPriority /\
   Parser_reset (r_self stuck) (r_world stuck)
   = (r_world stuck, Raise AttributeError) /\
   r_calls (Parser_read (r_self stuck) scenario_a (r_world stuck)) = [] /\
   r_calls (Parser_read (r_self fresh) scenario_a (r_world fresh))
   = lib.Call_msg_begin :: lib.Call_msg_head scenario_a_head
     :: map (fun c => lib.Call_msg [c]) (bs "BOMsu root failed") /\
   r_calls (Parser_read
              (mkParserObject (_msg_head (r_self stuck))
                 (_msg_head_ctype (r_self stuck))
                 (lib.uslg_parser_reset (_cparser (r_self stuck)))
                 (_cparser_settings (r_self stuck)))
              scenario_a (r_world stuck))
   = lib.Call_msg_begin :: lib.Call_msg_head scenario_a_head
     :: map (fun c => lib.Call_msg [c]) (bs "BOMsu root failed")).
Proof.
  split; [reflexivity|]. vm_compute. repeat split.
Qed.

(** C2, as the code has it: [Parser.read] runs [uslg_parser_exec] on
    the chunk and its length, so that the callbacks run and the native
    parser advances, and evaluates to [None] for every chunk; the
    status is not passed on. *)
Theorem Parser_read_discards_status (self : Parser) (data : bytestring)
    (w : world) :
  let o := lib.uslg_parser_exec (_cparser self) (_cparser_settings self) w
                                data (length data) in
  r_value (Parser_read self data w) = Ok VNone /\
  r_world (Parser_read self data w) = lib.o_world o /\
  r_calls (Parser_read self data w) = lib.o_calls o /\
  _cparser (r_self (Parser_read self data w)) = lib.o_parser o /\
  _msg_head (r_self (Parser_read self data w)) = _msg_head self /\
  _msg_head_ctype (r_self (Parser_read self data w)) = _msg_head_ctype self /\
  _cparser_settings (r_self (Parser_read self data w))
  = _cparser_settings self.
Proof. repeat split. Qed.

(** C2 as stated fails: a chunk consumed cleanly and a chunk that stops
    on an error at offset 0 give the same value. *)
Lemma read_value_does_not_tell_outcomes :
  ~ (forall (self : Parser) (w : world) (d1 d2 : bytestring),
        r_value (Parser_read self d1 w) = r_value (Parser_read self d2 w) ->
        outcome_kind
          (lib.o_status (lib.uslg_parser_exec (_cparser self)
                           (_cparser_settings self) w d1 (length d1)))
        = outcome_kind
            (lib.o_status (lib.uslg_parser_exec (_cparser self)
                             (_cparser_settings self) w d2 (length d2)))).
Proof.
  intros H.
  specialize (H (r_self (used_parser VNone []))
                (r_world (used_parser VNone []))
                (bs "<34>1 ") (bs "x") eq_refl).
  vm_compute in H. discriminate H.
Qed.

(** ** Dictionaries *)

Lemma bytes_eqb_eq (x y : bytestring) : bytes_eqb x y = true <-> x = y.
Proof.
  unfold bytes_eqb. destruct (list_eq_dec Byte.byte_eq_dec x y);
    split; congruence.
Qed.

Lemma pykey_eqb_eq (x y : pykey) : pykey_eqb x y = true <-> x = y.
Proof.
  destruct x as [|s], y as [|t]; simpl; try (split; congruence).
  rewrite bytes_eqb_eq. split; congruence.
Qed.

Lemma pykey_eqb_refl (x : pykey) : pykey_eqb x x = true.
Proof. now apply pykey_eqb_eq. Qed.

Lemma pykey_eqb_neq (x y : pykey) : x <> y -> pykey_eqb x y = false.
Proof.
  intros H. destruct (pykey_eqb x y) eqn:E; [|reflexivity].
  apply pykey_eqb_eq in E. contradiction.
Qed.

Lemma dict_get_set_same (k : pykey) (v : pyval) (d : pydict) :
  dict_get k (dict_set k v d) = Some v.
Proof.
  induction d as [|[k' v'] d IH]; simpl.
  - now rewrite pykey_eqb_refl.
  - destruct (pykey_eqb k k') eqn:E; simpl; rewrite E; auto.
Qed.


Lemma dict_set_in (k k0 : pykey) (v v0 : pyval) (d : pydict) :
  In (k, v) (dict_set k0 v0 d) -> In (k, v) d \/ (k = k0 /\ v = v0).
Proof.
  induction d as [|[k' v'] d IH]; simpl.
  - intros [H|[]]. right. split; congruence.
  - destruct (pykey_eqb k0 k') eqn:E; simpl.
    + apply pykey_eqb_eq in E. subst k'.
      intros [H|H]; [right; split; congruence|auto].
    + intros [H|H]; [auto|]. destruct (IH H); auto.
Qed.

Lemma dict_set_keys_in (k k0 : pykey) (v0 : pyval) (d : pydict) :
  In k (dict_keys (dict_set k0 v0 d)) -> In k (dict_keys d) \/ k = k0.
Proof.
  unfold dict_keys. induction d as [|[k' v'] d IH]; simpl.
  - intros [H|[]]. auto.
  - destruct (pykey_eqb k0 k'); simpl.
    + intros [H|H]; auto.
    + intros [H|H]; [auto|]. destruct (IH H); auto.
Qed.

Lemma dict_set_has_key (k : pykey) (v : pyval) (d : pydict) :
  In k (dict_keys (dict_set k v d)).
Proof.
  unfold dict_keys. induction d as [|[k' v'] d IH]; simpl; [auto|].
  destruct (pykey_eqb k k') eqn:E; simpl; [|auto].
  apply pykey_eqb_eq in E. auto.
Qed.

Lemma dict_set_unique (k : pykey) (v : pyval) (d : pydict) :
  NoDup (dict_keys d) -> NoDup (dict_keys (dict_set k v d)).
Proof.
  unfold dict_keys. induction d as [|[k' v'] d IH]; simpl; intros H.
  - constructor; [intros []|constructor].
  - inversion H as [|? ? Hn Hd]; subst.
    destruct (pykey_eqb k k') eqn:E; simpl.
    + now constructor.
    + constructor; [|auto].
      intros Hin. destruct (dict_set_keys_in _ _ _ _ Hin) as [Hi|Hi].
      * contradiction.
      * subst k'. now rewrite pykey_eqb_refl in E.
Qed.

Lemma dict_get_in (k : pykey) (v : pyval) (d : pydict) :
  NoDup (dict_keys d) -> In (k, v) d -> dict_get k d = Some v.
Proof.
  unfold dict_keys. induction d as [|[k' v'] d IH]; simpl; intros Hn Hin.
  - destruct Hin.
  - inversion Hn as [|? ? Hk Hd]; subst.
    destruct Hin as [Hin|Hin].
    + inversion Hin; subst. now rewrite pykey_eqb_refl.
    + destruct (pykey_eqb k k') eqn:E.
      * apply pykey_eqb_eq in E. subst k'. exfalso. apply Hk.
        change k with (fst (k, v)). now apply in_map.
      * auto.
Qed.

Lemma unique_count (k : pykey) (ks : list pykey) :
  NoDup ks -> In k ks -> count_occ pykey_eq_dec ks k = 1.
Proof.
  intros Hn Hin.
  pose proof (proj1 (NoDup_count_occ pykey_eq_dec ks) Hn k) as Hle.
  pose proof (proj1 (count_occ_In pykey_eq_dec ks k) Hin) as Hge.
  lia.
Qed.

(** ** The structured-data operations *)

Lemma dict_at_upd_other (hp : list obj) (hd : list loc) (so : list pyval)
    (l l' : loc) (o : obj) :
  l <> l' ->
  dict_at (mkWorld (upd l o hp) hd so) l' = dict_at (mkWorld hp hd so) l'.
Proof.
  intros H. unfold dict_at. simpl. now rewrite nth_error_upd_neq.
Qed.

Lemma head_at_upd_other (hp : list obj) (hd : list loc) (so : list pyval)
    (l l' : loc) (o : obj) :
  l <> l' ->
  head_at (mkWorld (upd l o hp) hd so) l' = head_at (mkWorld hp hd so) l'.
Proof.
  intros H. unfold head_at. simpl. now rewrite nth_error_upd_neq.
Qed.

Lemma dict_at_upd_same (hp : list obj) (hd : list loc) (so : list pyval)
    (l : loc) (d : pydict) :
  l < length hp -> dict_at (mkWorld (upd l (ODict d) hp) hd so) l = Some d.
Proof.
  intros H. unfold dict_at. simpl. now rewrite nth_error_upd_eq.
Qed.

Lemma dict_at_upd_head (hp : list obj) (hd : list loc) (so : list pyval)
    (l l' : loc) (h : SyslogMessageHead) (o : obj) (e : pydict) :
  head_at (mkWorld hp hd so) l = Some h ->
  dict_at (mkWorld hp hd so) l' = Some e ->
  dict_at (mkWorld (upd l o hp) hd so) l' = Some e.
Proof.
  intros Hh He. rewrite dict_at_upd_other; [exact He|].
  intros ->. unfold head_at, dict_at in *. simpl in *.
  destruct (nth_error hp l') as [[| |]|]; congruence.
Qed.

Lemma dict_at_app (hp x : list obj) (hd : list loc) (so : list pyval)
    (l : loc) (e : pydict) :
  dict_at (mkWorld hp hd so) l = Some e ->
  dict_at (mkWorld (hp ++ x) hd so) l = Some e.
Proof.
  intros H. pose proof (dict_at_bound _ _ _ H) as Hb.
  unfold dict_at in *. simpl in *. now rewrite nth_error_app1.
Qed.

Lemma head_at_app (hp x : list obj) (hd : list loc) (so : list pyval)
    (l : loc) (h : SyslogMessageHead) :
  head_at (mkWorld hp hd so) l = Some h ->
  head_at (mkWorld (hp ++ x) hd so) l = Some h.
Proof.
  intros H. pose proof (head_at_bound _ _ _ H) as Hb.
  unfold head_at in *. simpl in *. now rewrite nth_error_app1.
Qed.

Lemma head_dict_distinct (w : world) (l l' : loc) (h : SyslogMessageHead)
    (d : pydict) :
  head_at w l = Some h -> dict_at w l' = Some d -> l <> l'.
Proof.
  intros Hh Hd ->. unfold head_at, dict_at in *.
  destruct (nth_error (heap w) l') as [[| |]|]; congruence.
Qed.

Lemma setitem_run (w : world) (l : loc) (k : pykey) (v : pyval)
    (d : pydict) :
  dict_at w l = Some d ->
  setitem l k v w
  = (mkWorld (upd l (ODict (dict_set k v d)) (heap w)) (handles w)
             (stdout w), Ok tt).
Proof.
  intros H. pose proof (dict_at_bound _ _ _ H) as Hb.
  unfold setitem, load_dict, bind, load, store.
  rewrite (dict_at_load _ _ _ H). simpl.
  apply Nat.ltb_lt in Hb. now rewrite Hb.
Qed.

Lemma set_sd_field_run (w : world) (self : loc) (f : pykey)
    (h : SyslogMessageHead) :
  head_at w self = Some h ->
  set_sd_field self f w
  = (mkWorld (upd self
                (OHead (mkHead (priority h) (version h) (timestamp h)
                          (hostname h) (appname h) (processid h)
                          (messageid h) (sd h) (current_sde h) f))
                (heap w))
             (handles w) (stdout w), Ok tt).
Proof.
  intros H. pose proof (head_at_bound _ _ _ H) as Hb.
  unfold set_sd_field, get_head, bind, load, store.
  rewrite (head_at_load _ _ _ H). simpl.
  apply Nat.ltb_lt in Hb. now rewrite Hb.
Qed.

Lemma set_sd_value_run (w : world) (self l : loc) (v : pyval)
    (h : SyslogMessageHead) (e : pydict) :
  head_at w self = Some h ->
  current_sde h = Some l ->
  dict_at w l = Some e ->
  set_sd_value self v w
  = (mkWorld (upd l (ODict (dict_set (current_sd_field h) v e)) (heap w))
             (handles w) (stdout w), Ok tt).
Proof.
  intros Hh Hc He. unfold set_sd_value, get_head.
  erewrite bind_ok
    by (unfold bind, load; rewrite (head_at_load _ _ _ Hh); reflexivity).
  rewrite Hc. now apply setitem_run.
Qed.

Lemma set_sd_value_none (w : world) (self : loc) (v : pyval)
    (h : SyslogMessageHead) :
  head_at w self = Some h ->
  current_sde h = None ->
  set_sd_value self v w = (w, Raise TypeError).
Proof.
  intros Hh Hc. unfold set_sd_value, get_head.
  erewrite bind_ok
    by (unfold bind, load; rewrite (head_at_load _ _ _ Hh); reflexivity).
  now rewrite Hc.
Qed.

Lemma create_sde_run (w : world) (self : loc) (n : pykey)
    (h : SyslogMessageHead) (d : pydict) :
  head_at w self = Some h ->
  dict_at w (sd h) = Some d ->
  create_sde self n w
  = (mkWorld
       (upd (sd h) (ODict (dict_set n (VRef (length (heap w))) d))
          (upd self
             (OHead (mkHead (priority h) (version h) (timestamp h)
                       (hostname h) (appname h) (processid h)
                       (messageid h) (sd h) (Some (length (heap w)))
                       (current_sd_field h)))
             (heap w ++ [ODict []])))
       (handles w) (stdout w), Ok tt).
Proof.
  intros Hh Hd. destruct w as [hp hd so]. simpl in *.
  pose proof (head_at_bound _ _ _ Hh) as Hb. simpl in Hb.
  assert (Hl : nth_error (hp ++ [ODict []]) self = Some (OHead h)).
  { rewrite nth_error_app1 by exact Hb. exact (head_at_load _ _ _ Hh). }
  unfold create_sde.
  erewrite bind_ok by reflexivity.
  erewrite bind_ok
    by (unfold get_head, bind, load; simpl; rewrite Hl; reflexivity).
  erewrite bind_ok
    by (unfold store; simpl; rewrite length_app; simpl;
        destruct (Nat.ltb_spec self (length hp + 1)); [reflexivity|lia]).
  erewrite setitem_run; [reflexivity|].
  apply dict_at_upd_head with (h := h).
  - now apply head_at_app.
  - now apply dict_at_app.
Qed.

Lemma dict_set_stores (k : pykey) (v : pyval) (d : pydict) :
  exists k', In (k', v) (dict_set k v d).
Proof.
  induction d as [|[k0 v0] d [k' IH]]; simpl.
  - exists k. auto.
  - destruct (pykey_eqb k k0); [exists k0|exists k']; simpl; auto.
Qed.

Lemma sd_inv_new (w : world) :
  sd_inv (fst (SyslogMessageHead_new w)) (length (heap w)).
Proof.
  rewrite SyslogMessageHead_new_run. simpl.
  assert (Hb : length (heap w) < length (heap w ++ [OBlank]))
    by (rewrite length_app; simpl; lia).
  exists (initial_head (length (heap w ++ [OBlank]))), [].
  split; [|split; [|split; [|split]]].
  - apply head_at_upd. rewrite length_app. lia.
  - simpl sd. rewrite dict_at_upd_other by lia.
    unfold dict_at. simpl. now rewrite nth_error_snoc.
  - constructor.
  - intros k v [].
  - simpl. discriminate.
Qed.

Lemma sd_inv_step (w : world) (self : loc) (op : sd_op) :
  sd_inv w self -> sd_inv (fst (run_op self op w)) self.
Proof.
  intros (h & d & Hh & Hd & Hn & Hrefs & Hcur).
  pose proof (head_at_bound _ _ _ Hh) as Hbh.
  pose proof (dict_at_bound _ _ _ Hd) as Hbd.
  pose proof (head_dict_distinct _ _ _ _ _ Hh Hd) as Hne.
  destruct w as [hp hd so]. simpl in Hbh, Hbd.
  destruct op as [n|f|v]; simpl run_op.
  - (* create_sde *)
    rewrite (create_sde_run _ _ n _ _ Hh Hd). simpl.
    eexists _, _.
    split; [|split; [|split; [|split]]].
    + rewrite head_at_upd_other by auto.
      apply head_at_upd. rewrite length_app. lia.
    + simpl sd. apply dict_at_upd_same.
      rewrite length_upd, length_app. lia.
    + now apply dict_set_unique.
    + intros k v Hin. simpl sd.
      destruct (dict_set_in _ _ _ _ _ Hin) as [Hold|[-> ->]].
      * destruct (Hrefs _ _ Hold) as (l & e & -> & Hl & He & Hu).
        exists l, e. repeat split; auto.
        rewrite dict_at_upd_other by auto.
        apply dict_at_upd_head with (h := h).
        -- now apply head_at_app.
        -- now apply dict_at_app.
      * exists (length hp), []. repeat split.
        -- lia.
        -- rewrite dict_at_upd_other by lia.
           rewrite dict_at_upd_other by lia.
           unfold dict_at. simpl. now rewrite nth_error_snoc.
        -- constructor.
    + simpl. intros l [= <-]. apply dict_set_stores.
  - (* set_sd_field *)
    rewrite (set_sd_field_run _ _ f _ Hh). simpl.
    eexists _, d.
    split; [|split; [|split; [|split]]].
    + now apply head_at_upd.
    + simpl sd. now apply dict_at_upd_head with (h := h).
    + exact Hn.
    + intros k v Hin. simpl sd.
      destruct (Hrefs _ _ Hin) as (l & e & -> & Hl & He & Hu).
      exists l, e. repeat split; auto.
      now apply dict_at_upd_head with (h := h).
    + simpl. exact Hcur.
  - (* set_sd_value *)
    destruct (current_sde h) as [l|] eqn:Hc.
    + destruct (Hcur l eq_refl) as (name & Hin).
      destruct (Hrefs _ _ Hin) as (l' & e & [= <-] & Hl & He & Hu).
      rewrite (set_sd_value_run _ _ l v _ _ Hh Hc He). simpl.
      pose proof (head_dict_distinct _ _ _ _ _ Hh He) as Hne'.
      pose proof (dict_at_bound _ _ _ He) as Hbl. simpl in Hbl.
      exists h, d.
      split; [|split; [|split; [|split]]].
      * rewrite head_at_upd_other by auto. exact Hh.
      * rewrite dict_at_upd_other by auto. exact Hd.
      * exact Hn.
      * intros k v0 Hin0.
        destruct (Hrefs _ _ Hin0) as (l0 & e0 & -> & Hl0 & He0 & Hu0).
        destruct (Nat.eq_dec l l0) as [<-|Hd0].
        -- eexists l, _. repeat split; auto.
           ++ now apply dict_at_upd_same.
           ++ now apply dict_set_unique.
        -- exists l0, e0. repeat split; auto.
           now rewrite dict_at_upd_other.
      * rewrite Hc. exact Hcur.
    + rewrite (set_sd_value_none _ _ v _ Hh Hc). simpl.
      exists h, d. repeat split; auto. now rewrite Hc.
Qed.

Lemma sd_inv_run (ops : list sd_op) (w : world) (self : loc) :
  sd_inv w self -> sd_inv (run_ops self ops w) self.
Proof.
  revert w. induction ops as [|op ops IH]; intros w H; simpl; [exact H|].
  apply IH. now apply sd_inv_step.
Qed.

Lemma run_ops_app (ops1 ops2 : list sd_op) (w : world) (self : loc) :
  run_ops self (ops1 ++ ops2) w = run_ops self ops2 (run_ops self ops1 w).
Proof.
  revert w. induction ops1 as [|op ops1 IH]; intros w; simpl; auto.
Qed.

Lemma sd_inv_unique (w : world) (self : loc) :
  sd_inv w self -> sd_unique w self.
Proof.
  intros (h & d & Hh & Hd & Hn & Hrefs & _).
  exists h, d. repeat split; auto.
  intros k v Hin. destruct (Hrefs _ _ Hin) as (l & e & -> & _ & He & Hu).
  now exists l, e.
Qed.

Lemma has_current_step (w : world) (self : loc) (op : sd_op) :
  sd_inv w self -> has_current w self ->
  has_current (fst (run_op self op w)) self.
Proof.
  intros (h & d & Hh & Hd & Hn & Hrefs & Hcur) (h' & l & Hh' & Hc).
  rewrite Hh in Hh'. injection Hh' as <-.
  pose proof (head_at_bound _ _ _ Hh) as Hbh.
  pose proof (head_dict_distinct _ _ _ _ _ Hh Hd) as Hne.
  destruct w as [hp hd so]. simpl in Hbh.
  destruct op as [n|f|v]; simpl run_op.
  - rewrite (create_sde_run _ _ n _ _ Hh Hd). simpl.
    eexists _, _. split.
    + rewrite head_at_upd_other by auto.
      apply head_at_upd. rewrite length_app. lia.
    + reflexivity.
  - rewrite (set_sd_field_run _ _ f _ Hh). simpl.
    eexists _, l. split; [now apply head_at_upd|exact Hc].
  - destruct (Hcur l Hc) as (name & Hin).
    destruct (Hrefs _ _ Hin) as (l' & e & [= <-] & Hl & He & Hu).
    rewrite (set_sd_value_run _ _ l v _ _ Hh Hc He). simpl.
    exists h, l. split; [|exact Hc].
    rewrite head_at_upd_other; [exact Hh|].
    intros ->. eapply head_dict_distinct; eauto.
Qed.

Lemma has_current_run (ops : list sd_op) (w : world) (self : loc) :
  sd_inv w self -> has_current w self ->
  has_current (run_ops self ops w) self.
Proof.
  revert w. induction ops as [|op ops IH]; intros w Hi Hc; simpl; [exact Hc|].
  apply IH; [now apply sd_inv_step|now apply has_current_step].
Qed.

Lemma declare_run (w : world) (self l : loc) (h : SyslogMessageHead)
    (e d : pydict) (f : pykey) (v : pyval) :
  head_at w self = Some h ->
  current_sde h = Some l ->
  dict_at w l = Some e ->
  dict_at w (sd h) = Some d ->
  l <> sd h ->
  let h' := mkHead (priority h) (version h) (timestamp h) (hostname h)
                   (appname h) (processid h) (messageid h) (sd h)
                   (current_sde h) f in
  let w' := run_ops self [SetSdField f; SetSdValue v] w in
  head_at w' self = Some h' /\
  dict_at w' l = Some (dict_set f v e) /\
  dict_at w' (sd h) = Some d.
Proof.
  intros Hh Hc He Hd Hl h' w'. subst w'. simpl.
  pose proof (head_at_bound _ _ _ Hh) as Hbh.
  pose proof (dict_at_bound _ _ _ He) as Hbl.
  pose proof (head_dict_distinct _ _ _ _ _ Hh He) as Hne.
  destruct w as [hp hd so]. simpl in Hbh, Hbl.
  rewrite (set_sd_field_run _ _ f _ Hh). simpl. fold h'.
  assert (Hh1 : head_at (mkWorld (upd self (OHead h') hp) hd so) self
                = Some h') by now apply head_at_upd.
  assert (He1 : dict_at (mkWorld (upd self (OHead h') hp) hd so) l = Some e)
    by now apply dict_at_upd_head with (h := h).
  rewrite (set_sd_value_run _ _ l v _ _ Hh1 Hc He1). simpl.
  repeat split.
  - rewrite head_at_upd_other by auto. exact Hh1.
  - apply dict_at_upd_same. now rewrite length_upd.
  - rewrite dict_at_upd_other by auto.
    now apply dict_at_upd_head with (h := h).
Qed.

(** C7: whatever sequence of [create_sde], [set_sd_field] and
    [set_sd_value] calls an accumulator receives, element names are
    unique in [sd] and field names are unique within every element;
    [create_sde] leaves a single entry for the name, bound to a new
    empty element, and setting a field twice in the current element
    leaves a single entry for it, holding the later value. *)
Theorem sd_field_names_unique (w : world) (ops1 ops2 : list sd_op)
    (n f : pykey) (v1 v2 : pyval) :
  let self := length (heap w) in
  let w0 := fst (SyslogMessageHead_new w) in
  sd_unique (run_ops self ops1 w0) self /\
  (let w1 := run_ops self (ops1 ++ [CreateSde n]) w0 in
   exists h d l,
     head_at w1 self = Some h /\
     dict_at w1 (sd h) = Some d /\
     dict_get n d = Some (VRef l) /\
     count_occ pykey_eq_dec (dict_keys d) n = 1 /\
     dict_at w1 l = Some [] /\
     current_sde h = Some l /\
     length (heap (run_ops self ops1 w0)) <= l) /\
  (let w2 := run_ops self
               (ops1 ++ [CreateSde n] ++ ops2 ++
                [SetSdField f; SetSdValue v1; SetSdField f; SetSdValue v2])
               w0 in
   exists h d l e name,
     head_at w2 self = Some h /\
     current_sde h = Some l /\
     dict_at w2 (sd h) = Some d /\
     dict_get name d = Some (VRef l) /\
     dict_at w2 l = Some e /\
     dict_get f e = Some v2 /\
     count_occ pykey_eq_dec (dict_keys e) f = 1 /\
     sd_unique w2 self).
Proof.
  intros self w0.
  pose proof (sd_inv_new w) as H0. fold self w0 in H0.
  pose proof (sd_inv_run ops1 _ _ H0) as H1.
  split; [now apply sd_inv_unique|].
  assert (Hcreate :
    let w1 := run_ops self (ops1 ++ [CreateSde n]) w0 in
    exists h d l,
      head_at w1 self = Some h /\
      dict_at w1 (sd h) = Some d /\
      dict_get n d = Some (VRef l) /\
      count_occ pykey_eq_dec (dict_keys d) n = 1 /\
      dict_at w1 l = Some [] /\
      current_sde h = Some l /\
      length (heap (run_ops self ops1 w0)) <= l).
  { intros w1. subst w1. rewrite run_ops_app. simpl.
    destruct H1 as (h & d & Hh & Hd & Hn & Hrefs & Hcur).
    pose proof (head_at_bound _ _ _ Hh) as Hbh.
    pose proof (dict_at_bound _ _ _ Hd) as Hbd.
    pose proof (head_dict_distinct _ _ _ _ _ Hh Hd) as Hne.
    destruct (run_ops self ops1 w0) as [hp hd so]. simpl in Hbh, Hbd.
    rewrite (create_sde_run _ _ n _ _ Hh Hd). simpl.
    eexists _, _, (length hp).
    split; [|split; [|split; [|split; [|split; [|split]]]]].
    - rewrite head_at_upd_other by auto.
      apply head_at_upd. rewrite length_app. lia.
    - simpl sd. apply dict_at_upd_same.
      rewrite length_upd, length_app. lia.
    - apply dict_get_set_same.
    - apply unique_count; [now apply dict_set_unique|].
      apply dict_set_has_key.
    - rewrite dict_at_upd_other by lia.
      rewrite dict_at_upd_other by lia.
      unfold dict_at. simpl. now rewrite nth_error_snoc.
    - reflexivity.
    - lia. }
  split; [exact Hcreate|].
  intros w2. subst w2.
  rewrite app_assoc, (app_assoc _ ops2), run_ops_app.
  assert (Hinv : sd_inv (run_ops self ((ops1 ++ [CreateSde n]) ++ ops2) w0)
                        self) by now apply sd_inv_run.
  assert (Hhas : has_current
                   (run_ops self ((ops1 ++ [CreateSde n]) ++ ops2) w0) self).
  { rewrite run_ops_app. apply has_current_run.
    - now apply sd_inv_run.
    - destruct Hcreate as (h & d & l & Hh & _ & _ & _ & _ & Hc & _).
      now exists h, l. }
  set (wB := run_ops self ((ops1 ++ [CreateSde n]) ++ ops2) w0) in *.
  destruct Hinv as (h & d & Hh & Hd & Hn & Hrefs & Hcur).
  destruct Hhas as (h' & l & Hh' & Hc).
  rewrite Hh in Hh'. injection Hh' as <-.
  destruct (Hcur l Hc) as (name & Hin).
  destruct (Hrefs _ _ Hin) as (l' & e & [= <-] & Hl & He & Hu).
  change [SetSdField f; SetSdValue v1; SetSdField f; SetSdValue v2]
    with ([SetSdField f; SetSdValue v1] ++ [SetSdField f; SetSdValue v2]).
  rewrite run_ops_app.
  destruct (declare_run wB self l h e d f v1 Hh Hc He Hd Hl)
    as (Hh1 & He1 & Hd1).
  set (w1 := run_ops self [SetSdField f; SetSdValue v1] wB) in *.
  destruct (declare_run w1 self l _ _ d f v2 Hh1 Hc He1 Hd1 Hl)
    as (Hh2 & He2 & Hd2).
  simpl sd in *. simpl current_sde in *.
  eexists _, d, l, _, name.
  split; [exact Hh2|]. split; [exact Hc|]. split; [exact Hd2|].
  split; [now apply dict_get_in|]. split; [exact He2|].
  split; [apply dict_get_set_same|].
  split.
  - apply unique_count; [|apply dict_set_has_key].
    now apply dict_set_unique, dict_set_unique.
  - apply sd_inv_unique. unfold w1. rewrite <- run_ops_app.
    apply sd_inv_run. exists h, d. repeat split; auto.
Qed.

(** ** [as_dict] *)

Lemma wp_bind (A B : Type) (m : py A) (f : A -> py B)
    (Q : B -> world -> Prop) (E : world -> Prop) (w : world) :
  wp m (fun a w' => wp (f a) Q E w') E w -> wp (bind m f) Q E w.
Proof.
  unfold wp, bind. destruct (m w) as [w' [a|e]]; auto.
Qed.

Lemma wp_mono (A : Type) (m : py A) (Q Q' : A -> world -> Prop)
    (E E' : world -> Prop) (w : world) :
  wp m Q E w ->
  (forall a w', Q a w' -> Q' a w') -> (forall w', E w' -> E' w') ->
  wp m Q' E' w.
Proof.
  unfold wp. destruct (m w) as [w' [a|e]]; auto.
Qed.

Lemma wp_for_each (A : Type) (body : A -> py unit)
    (Inv : list A -> world -> Prop) (E : world -> Prop) (xs : list A) :
  (forall done x rest w,
      xs = done ++ x :: rest -> Inv done w ->
      wp (body x) (fun _ w' => Inv (done ++ [x]) w') E w) ->
  forall w, Inv [] w -> wp (for_each xs body) (fun _ w' => Inv xs w') E w.
Proof.
  intros Hbody.
  assert (G : forall rest done w,
             xs = done ++ rest -> Inv done w ->
             wp (for_each rest body) (fun _ w' => Inv xs w') E w).
  { induction rest as [|x rest IH]; intros done w Hxs Hinv; simpl.
    - rewrite app_nil_r in Hxs. subst. exact Hinv.
    - apply wp_bind.
      apply wp_mono with (Q := fun _ w' => Inv (done ++ [x]) w') (E := E);
        [now apply (Hbody done x rest)| |auto].
      intros _ w' Hw'. apply (IH (done ++ [x])); [|exact Hw'].
      now rewrite <- app_assoc. }
  intros w H. now apply (G xs []).
Qed.

Lemma reads_bind (A B : Type) (m : py A) (f : A -> py B) :
  reads m -> (forall a, reads (f a)) -> reads (bind m f).
Proof.
  intros Hm Hf w. unfold bind. specialize (Hm w).
  destruct (m w) as [w' [a|e]]; simpl in *; subst; auto.
  apply Hf.
Qed.

Lemma reads_ret (A : Type) (a : A) : reads (ret a).
Proof. intros w. reflexivity. Qed.

Lemma reads_raise (A : Type) (e : exn) : reads (@raise A e).
Proof. intros w. reflexivity. Qed.

Lemma reads_load (l : loc) : reads (load l).
Proof.
  intros w. unfold load. now destruct (nth_error (heap w) l).
Qed.

Lemma reads_get_head (l : loc) : reads (get_head l).
Proof.
  apply reads_bind; [apply reads_load|].
  intros [| |]; (apply reads_ret || apply reads_raise).
Qed.

Lemma reads_load_dict (l : loc) : reads (load_dict l).
Proof.
  apply reads_bind; [apply reads_load|].
  intros [| |]; (apply reads_ret || apply reads_raise).
Qed.

Lemma reads_getitem (l : loc) (k : pykey) : reads (getitem l k).
Proof.
  apply reads_bind; [apply reads_load_dict|].
  intros c. destruct (dict_get k c); (apply reads_ret || apply reads_raise).
Qed.

Lemma reads_as_ref (v : pyval) : reads (as_ref v).
Proof. destruct v; (apply reads_ret || apply reads_raise). Qed.

Lemma reads_decode (B : builtins) (v : pyval) : reads (decode B v).
Proof.
  destruct v; simpl; try apply reads_raise.
  destruct (decode_utf8 B s); (apply reads_ret || apply reads_raise).
Qed.

Lemma reads_self_sd (self : loc) : reads (self_sd self).
Proof.
  apply reads_bind; [apply reads_get_head|]. intros h. apply reads_ret.
Qed.

Create HintDb reads.
#[local] Hint Resolve reads_bind reads_ret reads_raise reads_load
  reads_get_head reads_load_dict reads_getitem reads_as_ref reads_decode
  reads_self_sd : reads.



Lemma ext_trans (n : nat) (w1 w2 w3 : world) :
  ext n w1 w2 -> ext n w2 w3 -> ext n w1 w3.
Proof.
  intros (H1 & H2 & H3 & H4) (G1 & G2 & G3 & G4).
  repeat split; try congruence; [lia|].
  intros l Hl. rewrite G2, H2; auto.
Qed.

Lemma ext_alloc (n : nat) (w : world) (o : obj) :
  n <= length (heap w) ->
  ext n w (mkWorld (heap w ++ [o]) (handles w) (stdout w)).
Proof.
  intros H. repeat split; simpl; auto.
  - rewrite length_app. lia.
  - intros l Hl. rewrite nth_error_app1; auto. lia.
Qed.

Lemma ext_upd (n : nat) (w : world) (l : loc) (o : obj) :
  n <= l ->
  ext n w (mkWorld (upd l o (heap w)) (handles w) (stdout w)).
Proof.
  intros H. repeat split; simpl; auto.
  - rewrite length_upd. lia.
  - intros l' Hl. rewrite nth_error_upd_neq; auto. lia.
Qed.

Lemma getitem_ref (d : loc) (k : pykey) (w w' : world) (c : loc) :
  bind (getitem d k) as_ref w = (w', Ok c) ->
  exists cd, dict_at w d = Some cd /\ In (k, VRef c) cd.
Proof.
  unfold dict_at. cbv beta delta [bind getitem load_dict load].
  destruct (nth_error (heap w) d) as [[|h|cd]|]; simpl; try discriminate.
  destruct (dict_get k cd) as [v|] eqn:Eg; simpl; try discriminate.
  destruct v; simpl; try discriminate.
  intros [= <- <-]. exists cd. split; [reflexivity|].
  clear -Eg. induction cd as [|[k' v'] cd IH]; simpl in *; [discriminate|].
  destruct (pykey_eqb k k') eqn:E.
  - apply pykey_eqb_eq in E. left. congruence.
  - right. auto.
Qed.

Lemma bind_result (A C : Type) (m : py A) (f : A -> py C) (P : C -> Prop) :
  (forall a w w' u, f a w = (w', Ok u) -> P u) ->
  forall w w' u, bind m f w = (w', Ok u) -> P u.
Proof.
  intros Hf w w' u. unfold bind.
  destruct (m w) as [w1 [a|e]]; [apply Hf|discriminate].
Qed.

Lemma decode_unicode (B : builtins) (x : pyval) (w w' : world) (u : pyval) :
  decode B x w = (w', Ok u) -> exists y, u = VUnicode y.
Proof.
  destruct x; simpl; try discriminate.
  destruct (decode_utf8 B s); simpl; [|discriminate].
  intros [= _ <-]. eauto.
Qed.

Lemma copies_alloc (n : nat) (dd : pydict) (w : world) (o : obj) :
  copies n dd w ->
  copies n dd (mkWorld (heap w ++ [o]) (handles w) (stdout w)).
Proof.
  intros (Hb & Hdd & cd & Hcd & Hall). destruct w as [hp hd so].
  unfold copies. simpl in *. split; [rewrite length_app; lia|].
  split; [now apply dict_at_app|].
  exists cd. split; [now apply dict_at_app|].
  intros k v Hin. destruct (Hall k v Hin) as (l & ce & -> & Hl & Hce & Hu).
  exists l, ce. repeat split; auto. now apply dict_at_app.
Qed.

(** Binding a name of [sd_copy] to a new empty element copy. *)
Lemma copies_bind_element (n : nat) (dd cd0 : pydict) (w : world)
    (k : pykey) (e : loc) :
  copies n dd w -> dict_at w n = Some cd0 ->
  n + 1 < e -> dict_at w e = Some [] ->
  copies n dd (mkWorld (upd n (ODict (dict_set k (VRef e) cd0)) (heap w))
                       (handles w) (stdout w)).
Proof.
  intros (Hb & Hdd & cd & Hcd & Hall) Hcd0 He Hemp.
  rewrite Hcd in Hcd0. injection Hcd0 as <-.
  destruct w as [hp hd so]. unfold copies. simpl in *.
  split; [rewrite length_upd; lia|].
  split; [rewrite dict_at_upd_other by lia; exact Hdd|].
  eexists. split; [apply dict_at_upd_same; lia|].
  intros k0 v Hin. destruct (dict_set_in _ _ _ _ _ Hin) as [Hold|[-> ->]].
  - destruct (Hall k0 v Hold) as (l & ce & -> & Hl & Hce & Hu).
    exists l, ce. repeat split; auto.
    rewrite dict_at_upd_other by lia. exact Hce.
  - exists e, []. repeat split; auto.
    + rewrite dict_at_upd_other by lia. exact Hemp.
    + intros f u [].
Qed.

(** Storing a decoded value in an element copy. *)
Lemma copies_set_field (n : nat) (dd ce0 : pydict) (w : world)
    (c : loc) (f : pykey) (y : list N) :
  copies n dd w -> n + 1 < c -> dict_at w c = Some ce0 ->
  (forall f' u, In (f', u) ce0 -> exists y', u = VUnicode y') ->
  copies n dd (mkWorld (upd c (ODict (dict_set f (VUnicode y) ce0)) (heap w))
                       (handles w) (stdout w)).
Proof.
  intros (Hb & Hdd & cd & Hcd & Hall) Hc Hce0 Hu0.
  pose proof (dict_at_bound _ _ _ Hce0) as Hbc.
  destruct w as [hp hd so]. unfold copies. simpl in *.
  split; [rewrite length_upd; lia|].
  split; [rewrite dict_at_upd_other by lia; exact Hdd|].
  exists cd. split; [rewrite dict_at_upd_other by lia; exact Hcd|].
  intros k v Hin. destruct (Hall k v Hin) as (l & ce & -> & Hl & Hce & Hu).
  destruct (Nat.eq_dec c l) as [<-|Hne].
  - eexists c, _. repeat split; auto.
    + now apply dict_at_upd_same.
    + intros f' u Hin'.
      destruct (dict_set_in _ _ _ _ _ Hin') as [Hold|[-> ->]]; eauto.
  - exists l, ce. repeat split; auto.
    now rewrite dict_at_upd_other.
Qed.

Lemma wp_read (A : Type) (m : py A) (Q : A -> world -> Prop)
    (E : world -> Prop) (w : world) :
  reads m -> (forall a, m w = (w, Ok a) -> Q a w) -> E w -> wp m Q E w.
Proof.
  intros Hm HQ HE. unfold wp. specialize (Hm w).
  destruct (m w) as [w' [a|e]]; simpl in Hm; subst; auto.
Qed.

Lemma wp_setitem (l : loc) (k : pykey) (v : pyval) (d : pydict)
    (Q : unit -> world -> Prop) (E : world -> Prop) (w : world) :
  dict_at w l = Some d ->
  Q tt (mkWorld (upd l (ODict (dict_set k v d)) (heap w)) (handles w)
                (stdout w)) ->
  wp (setitem l k v) Q E w.
Proof.
  intros Hd HQ. unfold wp. now rewrite (setitem_run _ _ k v _ Hd).
Qed.

Lemma wp_alloc (o : obj) (Q : loc -> world -> Prop) (E : world -> Prop)
    (w : world) :
  Q (length (heap w)) (mkWorld (heap w ++ [o]) (handles w) (stdout w)) ->
  wp (alloc o) Q E w.
Proof. intros H. exact H. Qed.

Lemma as_dict_frame (B : builtins) (self : loc) (w : world) :
  wp (as_dict B self)
     (fun v w' =>
        ext (length (heap w)) w w' /\ v = VRef (length (heap w) + 1) /\
        exists dd, dict_get (KStr (bs "sd")) dd = Some (VRef (length (heap w)))
                   /\ copies (length (heap w)) dd w')
     (fun w' => ext (length (heap w)) w w') w.
Proof.
  set (n := length (heap w)).
  unfold as_dict.
  apply wp_bind, wp_alloc. fold n.
  set (w1 := mkWorld (heap w ++ [ODict []]) (handles w) (stdout w)).
  assert (X1 : ext n w w1) by (apply ext_alloc; unfold n; lia).
  assert (L1 : length (heap w1) = n + 1)
    by (unfold w1, n; simpl; now rewrite length_app).
  assert (D1 : dict_at w1 n = Some []).
  { unfold dict_at, w1, n. simpl. now rewrite nth_error_snoc. }
  clearbody w1.
  apply wp_bind, wp_read; [auto with reads| |exact X1].
  intros h _.
  apply wp_bind, wp_alloc.
  match goal with
  | |- wp _ _ _ (mkWorld (_ ++ [ODict ?x]) _ _) => set (dd := x)
  end.
  set (w2 := mkWorld (heap w1 ++ [ODict dd]) (handles w1) (stdout w1)).
  assert (X2 : ext n w w2).
  { apply (ext_trans _ _ _ _ X1). apply ext_alloc. lia. }
  assert (C2 : copies n dd w2).
  { unfold copies. split; [|split].
    - unfold w2. simpl. rewrite length_app. simpl. lia.
    - unfold w2, dict_at. simpl. rewrite <- L1. now rewrite nth_error_snoc.
    - exists []. split; [|intros k v []].
      destruct w1 as [hp1 hd1 so1]. unfold w2. simpl.
      now apply dict_at_app. }
  clearbody w2.
  rewrite L1.
  apply wp_bind, wp_read; [auto with reads| |exact X2].
  intros names _.
  apply wp_bind.
  apply wp_mono with (Q := fun _ w' => ext n w w' /\ copies n dd w')
                     (E := fun w' => ext n w w').
  2:{ intros _ w' [X C]. unfold wp, ret. split; [exact X|].
      split; [reflexivity|]. exists dd. split; [reflexivity|exact C]. }
  2:{ auto. }
  apply (wp_for_each _ _ (fun _ w' => ext n w w' /\ copies n dd w'));
    [|now split].
  clear w1 X1 w2 L1 D1 X2 C2.
  intros _ sd_name _ w3 _ [X3 C3].
  apply wp_bind, wp_alloc.
  set (w4 := mkWorld (heap w3 ++ [ODict []]) (handles w3) (stdout w3)).
  assert (B3 : n + 1 < length (heap w3)) by apply C3.
  assert (X4 : ext n w w4).
  { apply (ext_trans _ _ _ _ X3). apply ext_alloc. lia. }
  assert (C4 : copies n dd w4) by now apply copies_alloc.
  assert (E4 : dict_at w4 (length (heap w3)) = Some []).
  { unfold dict_at, w4. simpl. now rewrite nth_error_snoc. }
  destruct C4 as (Hb4 & Hdd4 & cd4 & Hcd4 & Hall4).
  apply wp_bind, (wp_setitem _ _ _ cd4); [exact Hcd4|].
  set (w5 := mkWorld _ _ _).
  assert (X5 : ext n w w5).
  { apply (ext_trans _ _ _ _ X4). apply ext_upd. lia. }
  assert (C5 : copies n dd w5).
  { apply (copies_bind_element n dd cd4 w4);
      [unfold copies; eauto 10|exact Hcd4|lia|exact E4]. }
  clearbody w5. clear w4 X4 E4 Hb4 Hdd4 Hcd4 Hall4 cd4 w3 X3 C3 B3.
  apply wp_bind, wp_read; [auto 10 with reads| |exact X5].
  intros fields _.
  apply (wp_for_each _ _ (fun _ w' => ext n w w' /\ copies n dd w'));
    [|now split].
  clear w5 X5 C5.
  intros _ sd_fieldname _ w6 _ [X6 C6].
  apply wp_bind, wp_read; [auto 10 with reads| |exact X6].
  intros u Hu.
  assert (Hy : exists y, u = VUnicode y).
  { match type of Hu with
    | ?m _ = _ =>
        assert (G : forall w0 w0' u0,
                   m w0 = (w0', Ok u0) -> exists y, u0 = VUnicode y)
    end.
    { repeat (apply bind_result; intros ?). apply decode_unicode. }
    exact (G _ _ _ Hu). }
  destruct Hy as [y ->]. clear Hu.
  apply wp_bind, wp_read; [auto 10 with reads| |exact X6].
  intros c Hc. apply getitem_ref in Hc. destruct Hc as (cd & Hcd & Hin).
  pose proof C6 as (Hb6 & Hdd6 & cd6 & Hcd6 & Hall6).
  rewrite Hcd in Hcd6. injection Hcd6 as <-.
  destruct (Hall6 _ _ Hin) as (l & ce & [= <-] & Hl & Hce & Hun).
  apply (wp_setitem _ _ _ ce); [exact Hce|].
  split.
  - apply (ext_trans _ _ _ _ X6). apply ext_upd. lia.
  - now apply copies_set_field.
Qed.

Lemma wp_exact (A : Type) (m : py A) (Q : A -> world -> Prop)
    (E : world -> Prop) (w : world) (a : A) :
  m w = (w, Ok a) -> Q a w -> wp m Q E w.
Proof. intros Hm HQ. unfold wp. now rewrite Hm. Qed.

Lemma get_head_run (w : world) (l : loc) (h : SyslogMessageHead) :
  head_at w l = Some h -> get_head l w = (w, Ok h).
Proof.
  intros H. unfold get_head, bind, load.
  now rewrite (head_at_load _ _ _ H).
Qed.

Lemma load_dict_run (w : world) (l : loc) (d : pydict) :
  dict_at w l = Some d -> load_dict l w = (w, Ok d).
Proof.
  intros H. unfold load_dict, bind, load.
  now rewrite (dict_at_load _ _ _ H).
Qed.

Lemma getitem_run (w : world) (l : loc) (k : pykey) (d : pydict)
    (v : pyval) :
  dict_at w l = Some d -> dict_get k d = Some v ->
  getitem l k w = (w, Ok v).
Proof.
  intros H Hk. unfold getitem.
  erewrite bind_ok by (apply load_dict_run; exact H). now rewrite Hk.
Qed.

Lemma self_sd_run (w : world) (self : loc) (h : SyslogMessageHead) :
  head_at w self = Some h -> self_sd self w = (w, Ok (sd h)).
Proof.
  intros H. unfold self_sd.
  erewrite bind_ok by (apply get_head_run; exact H). reflexivity.
Qed.

Lemma ext_head (n : nat) (w w' : world) (l : loc) (h : SyslogMessageHead) :
  ext n w w' -> l < n -> head_at w l = Some h -> head_at w' l = Some h.
Proof.
  intros (_ & H & _) Hl Hh. unfold head_at in *. now rewrite H.
Qed.

Lemma ext_dict (n : nat) (w w' : world) (l : loc) (d : pydict) :
  ext n w w' -> l < n -> dict_at w l = Some d -> dict_at w' l = Some d.
Proof.
  intros (_ & H & _) Hl Hd. unfold dict_at in *. now rewrite H.
Qed.

Lemma dict_keys_app (d1 d2 : pydict) :
  dict_keys (d1 ++ d2) = dict_keys d1 ++ dict_keys d2.
Proof. apply map_app. Qed.

Lemma dict_set_fresh (k : pykey) (v : pyval) (d : pydict) :
  ~ In k (dict_keys d) -> dict_set k v d = d ++ [(k, v)].
Proof.
  unfold dict_keys. induction d as [|[k' v'] d IH]; simpl; intros H.
  - reflexivity.
  - rewrite pykey_eqb_neq by (intros ->; apply H; auto).
    rewrite IH; auto.
Qed.

Lemma dict_get_app_fresh (k : pykey) (d1 d2 : pydict) :
  ~ In k (dict_keys d1) -> dict_get k (d1 ++ d2) = dict_get k d2.
Proof.
  unfold dict_keys. induction d1 as [|[k' v'] d1 IH]; simpl; intros H.
  - reflexivity.
  - rewrite pykey_eqb_neq by (intros ->; apply H; auto). auto.
Qed.

Lemma decoded_dict_keys (B : builtins) (e : pydict) :
  dict_keys (decoded_dict B e) = dict_keys e.
Proof.
  unfold dict_keys, decoded_dict. rewrite map_map. reflexivity.
Qed.

Lemma decoded_dict_app (B : builtins) (e1 e2 : pydict) :
  decoded_dict B (e1 ++ e2) = decoded_dict B e1 ++ decoded_dict B e2.
Proof. apply map_app. Qed.

Lemma NoDup_app_head (k : pykey) (ks1 ks2 : list pykey) :
  NoDup (ks1 ++ k :: ks2) -> ~ In k ks1.
Proof.
  intros H Hin. apply NoDup_remove_2 in H. apply H.
  apply in_or_app. now left.
Qed.

(** The copy of one element: the inner loop of [as_dict]. *)
Lemma as_dict_fields (B : builtins) (self : loc) (n c l : loc)
    (h : SyslogMessageHead) (d e : pydict) (sd_name : pykey)
    (P : world -> Prop) (w : world) :
  (forall w', P w' ->
     head_at w' self = Some h /\ dict_at w' (sd h) = Some d /\
     dict_at w' l = Some e /\
     exists cd, dict_at w' n = Some cd /\
                dict_get sd_name cd = Some (VRef c)) ->
  (forall w' o, P w' -> c < length (heap w') ->
     P (mkWorld (upd c o (heap w')) (handles w') (stdout w'))) ->
  dict_get sd_name d = Some (VRef l) ->
  NoDup (dict_keys e) ->
  (forall f x, In (f, x) e ->
     exists s u, x = VStr s /\ decode_utf8 B s = Some u) ->
  P w -> dict_at w c = Some [] ->
  wp (for_each (dict_keys e) (fun sd_fieldname =>
        u <- (s <- self_sd self ;; v <- getitem s sd_name ;;
              src <- as_ref v ;; x <- getitem src sd_fieldname ;;
              decode B x) ;;
        c <- (v <- getitem n sd_name ;; as_ref v) ;;
        setitem c sd_fieldname u))
     (fun _ w' => P w' /\ dict_at w' c = Some (decoded_dict B e))
     (fun _ => False) w.
Proof.
  intros HP Hupd Hname Hnd Hdec HPw Hempty.
  set (Inv := fun (done : list pykey) (w' : world) =>
                P w' /\ exists e1 e2, e = e1 ++ e2 /\ done = dict_keys e1 /\
                          dict_at w' c = Some (decoded_dict B e1)).
  apply wp_mono with (Q := fun _ w' => Inv (dict_keys e) w')
                     (E := fun _ => False); [| |auto].
  2:{ intros _ w' (HP' & e1 & e2 & He & Hk & Hc). split; [exact HP'|].
      assert (e2 = []).
      { apply (f_equal (@length _)) in Hk. unfold dict_keys in Hk.
        rewrite !length_map in Hk. rewrite He, length_app in Hk.
        destruct e2; [reflexivity|simpl in Hk; lia]. }
      subst e2. rewrite app_nil_r in He. now subst e1. }
  apply (wp_for_each _ _ Inv).
  2:{ split; [exact HPw|]. exists [], e. auto. }
  unfold Inv. clear Inv.
  intros done f rest w' Hsplit (HP' & e1 & e2 & He & Hk & Hc).
  destruct (HP w' HP') as (Hh & Hd & Hl & cd & Hcdn & Hgetc).
  assert (He2 : exists x e2', e2 = (f, x) :: e2').
  { rewrite He, dict_keys_app, <- Hk in Hsplit.
    apply app_inv_head in Hsplit.
    destruct e2 as [|[f' x] e2']; [discriminate|].
    simpl in Hsplit. injection Hsplit as -> _. eauto. }
  destruct He2 as (x & e2' & ->).
  assert (Hfresh : ~ In f (dict_keys e1)).
  { rewrite He, dict_keys_app in Hnd. simpl in Hnd.
    now apply NoDup_app_head in Hnd. }
  destruct (Hdec f x) as (s & u & -> & Hu).
  { rewrite He. apply in_or_app. right. now left. }
  apply wp_bind.
  apply (wp_exact _ _ _ _ _ (VUnicode u)).
  { erewrite bind_ok by (apply self_sd_run; exact Hh).
    erewrite bind_ok by (eapply getitem_run; [exact Hd|exact Hname]).
    erewrite bind_ok by reflexivity.
    erewrite bind_ok.
    2:{ eapply getitem_run; [exact Hl|].
        rewrite He, dict_get_app_fresh by exact Hfresh.
        simpl. now rewrite pykey_eqb_refl. }
    simpl. now rewrite Hu. }
  apply wp_bind.
  apply (wp_exact _ _ _ _ _ c).
  { erewrite bind_ok by (eapply getitem_run; [exact Hcdn|exact Hgetc]).
    reflexivity. }
  apply (wp_setitem _ _ _ _ _ _ _ Hc).
  pose proof (dict_at_bound _ _ _ Hc) as Hbc.
  split; [now apply Hupd|].
  exists (e1 ++ [(f, VStr s)]), e2'.
  split; [now rewrite <- app_assoc|].
  split; [rewrite dict_keys_app; simpl; now rewrite <- Hk|].
  destruct w' as [hp hd so]. simpl in *.
  rewrite dict_at_upd_same by exact Hbc.
  rewrite dict_set_fresh by (rewrite decoded_dict_keys; exact Hfresh).
  rewrite decoded_dict_app. simpl. unfold decoded. simpl. now rewrite Hu.
Qed.

Lemma dict_get_app_some (k : pykey) (v : pyval) (d1 d2 : pydict) :
  dict_get k d1 = Some v -> dict_get k (d1 ++ d2) = Some v.
Proof.
  induction d1 as [|[k' v'] d1 IH]; simpl; [discriminate|].
  destruct (pykey_eqb k k'); auto.
Qed.

(** The copy [as_dict] builds of a well-formed accumulator whose values
    decode: the statement returns, and [sd_copy] has the names of [sd],
    each bound to a dictionary with the fields of the element under
    their decoded values. *)
Lemma as_dict_copy (B : builtins) (self : loc) (w : world)
    (h : SyslogMessageHead) (d : pydict) :
  head_at w self = Some h ->
  dict_at w (sd h) = Some d ->
  NoDup (dict_keys d) ->
  (forall k v, In (k, v) d ->
     exists l e, v = VRef l /\ dict_at w l = Some e /\
                 NoDup (dict_keys e) /\
                 forall f x, In (f, x) e ->
                   exists s u, x = VStr s /\ decode_utf8 B s = Some u) ->
  wp (as_dict B self)
     (fun v w' =>
        v = VRef (length (heap w) + 1) /\
        exists cd,
          dict_at w' (length (heap w)) = Some cd /\
          dict_keys cd = dict_keys d /\
          forall k l e, In (k, VRef l) d -> dict_at w l = Some e ->
            exists l', dict_get k cd = Some (VRef l') /\
                       dict_at w' l' = Some (decoded_dict B e))
     (fun _ => False) w.
Proof.
  intros Hh Hd Hnd Hel.
  set (n := length (heap w)).
  pose proof (head_at_bound _ _ _ Hh) as Hbs. fold n in Hbs.
  pose proof (dict_at_bound _ _ _ Hd) as Hbd. fold n in Hbd.
  unfold as_dict.
  apply wp_bind, wp_alloc. fold n.
  set (w1 := mkWorld (heap w ++ [ODict []]) (handles w) (stdout w)).
  assert (X1 : ext n w w1) by (apply ext_alloc; unfold n; lia).
  assert (L1 : length (heap w1) = n + 1)
    by (unfold w1, n; simpl; now rewrite length_app).
  assert (D1 : dict_at w1 n = Some []).
  { unfold dict_at, w1, n. simpl. now rewrite nth_error_snoc. }
  clearbody w1.
  apply wp_bind.
  apply (wp_exact _ _ _ _ _ h);
    [apply get_head_run; now apply (ext_head n w)|].
  apply wp_bind, wp_alloc.
  match goal with
  | |- wp _ _ _ (mkWorld (_ ++ [ODict ?x]) _ _) => set (dd := x)
  end.
  set (w2 := mkWorld (heap w1 ++ [ODict dd]) (handles w1) (stdout w1)).
  assert (X2 : ext n w w2).
  { apply (ext_trans _ _ _ _ X1). apply ext_alloc. lia. }
  assert (L2 : n + 1 < length (heap w2)).
  { unfold w2. simpl. rewrite length_app. simpl. lia. }
  assert (D2 : dict_at w2 n = Some []).
  { destruct w1 as [hp1 hd1 so1]. unfold w2. simpl. now apply dict_at_app. }
  clearbody w2. clear dd. rewrite L1.
  apply wp_bind.
  apply (wp_exact _ _ _ _ _ (dict_keys d)).
  { erewrite bind_ok
      by (apply self_sd_run; apply (ext_head n w); eauto).
    erewrite bind_ok
      by (apply load_dict_run; apply (ext_dict n w); eauto).
    reflexivity. }
  set (Inv := fun (done : list pykey) (w' : world) =>
    ext n w w' /\ n + 1 < length (heap w') /\
    exists d1 d2 cd,
      d = d1 ++ d2 /\ done = dict_keys d1 /\
      dict_at w' n = Some cd /\ dict_keys cd = done /\
      forall k l e, In (k, VRef l) d1 -> dict_at w l = Some e ->
        exists l', dict_get k cd = Some (VRef l') /\ n + 1 < l' /\
                   dict_at w' l' = Some (decoded_dict B e)).
  apply wp_bind.
  apply wp_mono with (Q := fun _ w' => Inv (dict_keys d) w')
                     (E := fun _ => False); [| |auto].
  2:{ intros _ w' (X & L & d1 & d2 & cd & Hsp & Hk & Hcd & Hkeys & Hcopy).
      unfold wp, ret. split; [reflexivity|].
      assert (d2 = []).
      { apply (f_equal (@length _)) in Hk. unfold dict_keys in Hk.
        rewrite !length_map in Hk. rewrite Hsp, length_app in Hk.
        destruct d2; [reflexivity|simpl in Hk; lia]. }
      subst d2. rewrite app_nil_r in Hsp. subst d1.
      exists cd. split; [exact Hcd|]. split; [congruence|].
      intros k l e Hin He. destruct (Hcopy k l e Hin He) as (l' & ? & _ & ?).
      eauto. }
  apply (wp_for_each _ _ Inv).
  2:{ split; [exact X2|]. split; [exact L2|].
      exists [], d, []. repeat split; auto. intros k l e []. }
  unfold Inv. clear Inv w1 X1 L1 D1 w2 X2 L2 D2.
  intros done x rest w3 Hsplit
         (X3 & L3 & d1 & d2 & cd & Hsp & Hk & Hcd & Hkeys & Hcopy).
  assert (Hd2 : exists v d2', d2 = (x, v) :: d2').
  { rewrite Hsp, dict_keys_app, <- Hk in Hsplit.
    apply app_inv_head in Hsplit.
    destruct d2 as [|[x' v] d2']; [discriminate|].
    simpl in Hsplit. injection Hsplit as -> _. eauto. }
  destruct Hd2 as (v & d2' & ->).
  assert (Hfresh : ~ In x (dict_keys d1)).
  { rewrite Hsp, dict_keys_app in Hnd. simpl in Hnd.
    now apply NoDup_app_head in Hnd. }
  assert (Hin : In (x, v) d).
  { rewrite Hsp. apply in_or_app. right. now left. }
  destruct (Hel x v Hin) as (l & e & -> & He & Hne & Hdec).
  pose proof (dict_at_bound _ _ _ He) as Hbl. fold n in Hbl.
  assert (Hget : dict_get x d = Some (VRef l)) by now apply dict_get_in.
  apply wp_bind, wp_alloc.
  set (c := length (heap w3)).
  set (w4 := mkWorld (heap w3 ++ [ODict []]) (handles w3) (stdout w3)).
  assert (X4 : ext n w w4).
  { apply (ext_trans _ _ _ _ X3). apply ext_alloc. lia. }
  assert (Hcd4 : dict_at w4 n = Some cd).
  { destruct w3 as [hp3 hd3 so3]. now apply dict_at_app. }
  apply wp_bind, (wp_setitem _ _ _ cd); [exact Hcd4|].
  rewrite dict_set_fresh by (rewrite Hkeys, Hk; exact Hfresh).
  set (w5 := mkWorld _ _ _).
  set (P := fun w' : world =>
    ext n w w' /\ n + 1 < length (heap w') /\
    dict_at w' n = Some (cd ++ [(x, VRef c)]) /\
    forall k l0 e0, In (k, VRef l0) d1 -> dict_at w l0 = Some e0 ->
      exists l', dict_get k cd = Some (VRef l') /\ n + 1 < l' /\ l' <> c /\
                 dict_at w' l' = Some (decoded_dict B e0)).
  assert (HP5 : P w5 /\ dict_at w5 c = Some []).
  { unfold P, w5, w4. destruct w3 as [hp3 hd3 so3]. simpl in *. fold c.
    split; [split; [|split; [|split]]|].
    - apply (ext_trans _ _ _ _ X4). apply ext_upd. lia.
    - simpl. rewrite length_upd, length_app. simpl. lia.
    - apply dict_at_upd_same. rewrite length_app. lia.
    - intros k l0 e0 Hin0 He0.
      destruct (Hcopy k l0 e0 Hin0 He0) as (l' & Hg & Hl' & Hc').
      pose proof (dict_at_bound _ _ _ Hc') as Hb'. simpl in Hb'.
      exists l'. repeat split; auto; [unfold c; lia|].
      rewrite dict_at_upd_other by lia. now apply dict_at_app.
    - rewrite dict_at_upd_other by (unfold c; lia).
      unfold dict_at, c. simpl. now rewrite nth_error_snoc. }
  destruct HP5 as [HP5 Hemp5]. clearbody w5. clear w4 X4 Hcd4.
  assert (HPfacts : forall w', P w' ->
     head_at w' self = Some h /\ dict_at w' (sd h) = Some d /\
     dict_at w' l = Some e /\
     exists cd', dict_at w' n = Some cd' /\
                 dict_get x cd' = Some (VRef c)).
  { intros w' (X & _ & Hn & _).
    split; [now apply (ext_head n w)|].
    split; [now apply (ext_dict n w)|].
    split; [now apply (ext_dict n w)|].
    eexists. split; [exact Hn|].
    rewrite dict_get_app_fresh by (rewrite Hkeys, Hk; exact Hfresh).
    simpl. now rewrite pykey_eqb_refl. }
  assert (Hc3 : n + 1 < c) by (unfold c; lia).
  apply wp_bind.
  apply (wp_exact _ _ _ _ _ (dict_keys e)).
  { destruct (HPfacts w5 HP5) as (Hh5 & Hd5 & Hl5 & _).
    erewrite bind_ok by (apply self_sd_run; exact Hh5).
    erewrite bind_ok by (eapply getitem_run; [exact Hd5|exact Hget]).
    erewrite bind_ok by reflexivity.
    erewrite bind_ok by (apply load_dict_run; exact Hl5).
    reflexivity. }
  apply wp_mono with
    (Q := fun _ w' => P w' /\ dict_at w' c = Some (decoded_dict B e))
    (E := fun _ => False); [| |auto].
  - apply (as_dict_fields B self n c l h d e x P w5); auto; try lia.
    intros w' o (X & L & Hn & Hold) Hbc. unfold P.
    destruct w' as [hp hd so]. simpl in *.
    split; [|split; [|split]].
    + apply (ext_trans _ _ _ _ X). apply ext_upd. lia.
    + simpl. rewrite length_upd. exact L.
    + rewrite dict_at_upd_other by lia. exact Hn.
    + intros k l0 e0 Hin0 He0.
      destruct (Hold k l0 e0 Hin0 He0) as (l' & Hg & Hl' & Hne' & Hc').
      exists l'. repeat split; auto.
      rewrite dict_at_upd_other by auto. exact Hc'.
  - intros _ w' ((X & L & Hn & Hold) & Hc).
    split; [exact X|]. split; [exact L|].
    exists (d1 ++ [(x, VRef l)]), d2', (cd ++ [(x, VRef c)]).
    split; [rewrite Hsp, <- app_assoc; reflexivity|].
    split; [rewrite dict_keys_app, Hk; reflexivity|].
    split; [exact Hn|].
    split; [rewrite dict_keys_app, Hkeys; reflexivity|].
    intros k l0 e0 Hin0 He0.
    apply in_app_or in Hin0. destruct Hin0 as [Hin0|[Hin0|[]]].
    + destruct (Hold k l0 e0 Hin0 He0) as (l' & Hg & Hl' & _ & Hc').
      exists l'. repeat split; auto. now apply dict_get_app_some.
    + injection Hin0 as <- <-. rewrite He in He0. injection He0 as <-.
      exists c. repeat split; auto.
      rewrite dict_get_app_fresh by (rewrite Hkeys, Hk; exact Hfresh).
      simpl. now rewrite pykey_eqb_refl.
Qed.

Lemma resolve_frame (w w' : world) (d : pydict)
    (els : list (pykey * pydict)) :
  (forall l, l < length (heap w) ->
             nth_error (heap w') l = nth_error (heap w) l) ->
  resolve w d = Some els -> resolve w' d = Some els.
Proof.
  intros Hsame. revert els.
  induction d as [|[k v] d IH]; intros els; simpl; [auto|].
  destruct v as [| | | |l]; try discriminate.
  destruct (dict_at w l) as [e|] eqn:He; [|discriminate].
  destruct (resolve w d) as [r|]; [|discriminate].
  intros [= <-]. rewrite (IH r eq_refl).
  pose proof (dict_at_bound _ _ _ He) as Hb.
  unfold dict_at in *. rewrite Hsame by exact Hb. now rewrite He.
Qed.

Lemma observe_frame (w w' : world) (self : loc) (st : head_state) :
  (forall l, l < length (heap w) ->
             nth_error (heap w') l = nth_error (heap w) l) ->
  observe w self = Some st -> observe w' self = Some st.
Proof.
  intros Hsame. unfold observe.
  destruct (head_at w self) as [h|] eqn:Hh; [|discriminate].
  pose proof (head_at_bound _ _ _ Hh) as Hbh.
  assert (Hh' : head_at w' self = Some h).
  { unfold head_at in *. now rewrite Hsame. }
  rewrite Hh'.
  destruct (dict_at w (sd h)) as [d|] eqn:Hd; [|discriminate].
  pose proof (dict_at_bound _ _ _ Hd) as Hbd.
  assert (Hd' : dict_at w' (sd h) = Some d).
  { unfold dict_at in *. now rewrite Hsame. }
  rewrite Hd'.
  destruct (resolve w d) as [els|] eqn:Hr; [|discriminate].
  rewrite (resolve_frame w w' d els Hsame Hr).
  destruct (current_sde h) as [e|]; [|auto].
  destruct (dict_at w e) as [c|] eqn:Hc; [|discriminate].
  pose proof (dict_at_bound _ _ _ Hc) as Hbc.
  assert (Hc' : dict_at w' e = Some c).
  { unfold dict_at in *. now rewrite Hsame. }
  now rewrite Hc'.
Qed.

Lemma resolve_copy (B : builtins) (w w' : world) (d cd : pydict)
    (els : list (pykey * pydict)) :
  dict_keys cd = dict_keys d ->
  NoDup (dict_keys d) ->
  resolve w d = Some els ->
  (forall k l e, In (k, VRef l) d -> dict_at w l = Some e ->
     exists l', dict_get k cd = Some (VRef l') /\
                dict_at w' l' = Some (decoded_dict B e)) ->
  resolve w' cd
  = Some (map (fun ne => (fst ne, decoded_dict B (snd ne))) els).
Proof.
  revert cd els. induction d as [|[k v] d IH]; intros cd els Hk Hn Hr Hc.
  - destruct cd; [|discriminate]. simpl in Hr. injection Hr as <-.
    reflexivity.
  - destruct cd as [|[k' v'] cd]; [discriminate|].
    simpl in Hk. injection Hk as -> Hk.
    simpl in Hn. inversion Hn as [|? ? Hnk Hnd]; subst.
    simpl in Hr. destruct v as [| | | |l]; try discriminate.
    destruct (dict_at w l) as [e|] eqn:He; [|discriminate].
    destruct (resolve w d) as [r|] eqn:Hrd; [|discriminate].
    injection Hr as <-.
    destruct (Hc k l e (or_introl eq_refl) He) as (l' & Hg & Hl').
    simpl in Hg. rewrite pykey_eqb_refl in Hg. injection Hg as ->.
    simpl. rewrite Hl'.
    rewrite (IH cd r Hk Hnd eq_refl); [reflexivity|].
    intros k0 l0 e0 Hin0 He0.
    destruct (Hc k0 l0 e0 (or_intror Hin0) He0) as (l0' & Hg0 & Hl0').
    exists l0'. split; [|exact Hl0'].
    simpl in Hg0. rewrite pykey_eqb_neq in Hg0; [exact Hg0|].
    intros ->. apply Hnk. change k with (fst (k, VRef l0)).
    now apply in_map.
Qed.

(** C10: [as_dict] leaves every object of the store as it was, the
    accumulator included; the dictionary it returns, its ['sd'] entry
    and every element under it are objects created by the call, the
    elements holding decoded strings, so that no change to them reaches
    the accumulator; for an accumulator whose values decode, the ['sd']
    entry has the accumulator's elements and fields, decoded. *)
Theorem as_dict_builds_fresh_copy (B : builtins) (w : world) (self : loc)
    (st : head_state) (Hobs : observe w self = Some st) :
  let n := length (heap w) in
  let w' := fst (as_dict B self w) in
  ext n w w' /\
  observe w' self = Some st /\
  (forall v, snd (as_dict B self w) = Ok v ->
     v = VRef (n + 1) /\
     exists dd, dict_get (KStr (bs "sd")) dd = Some (VRef n) /\
                copies n dd w') /\
  (forall w'',
     (forall l, l < n -> nth_error (heap w'') l = nth_error (heap w') l) ->
     observe w'' self = Some st) /\
  (sd_inv w self -> decodable B w self ->
   exists cd,
     snd (as_dict B self w) = Ok (VRef (n + 1)) /\
     dict_at w' n = Some cd /\
     resolve w' cd
     = Some (map (fun ne => (fst ne, decoded_dict B (snd ne))) (s_sd st))).
Proof.
  intros n w'.
  pose proof (as_dict_frame B self w) as F. unfold wp in F. fold n in F.
  assert (X : ext n w w').
  { unfold w'. destruct (as_dict B self w) as [w1 [v|e]]; simpl;
      [apply F|exact F]. }
  split; [exact X|].
  split; [apply (observe_frame w); [apply X|exact Hobs]|].
  split.
  { intros v Hv. unfold w'.
    destruct (as_dict B self w) as [w1 [v1|e]]; simpl in *; [|discriminate].
    injection Hv as ->. destruct F as (_ & -> & dd & Hdd & Hc).
    split; [reflexivity|]. now exists dd. }
  split.
  { intros w'' Hsame. apply (observe_frame w); [|exact Hobs].
    intros l Hl. rewrite Hsame by exact Hl. now apply X. }
  intros (h & d & Hh & Hd & Hn & Hrefs & _) Hdec.
  assert (C : wp (as_dict B self)
     (fun v w' =>
        v = VRef (length (heap w) + 1) /\
        exists cd,
          dict_at w' (length (heap w)) = Some cd /\
          dict_keys cd = dict_keys d /\
          forall k l e, In (k, VRef l) d -> dict_at w l = Some e ->
            exists l', dict_get k cd = Some (VRef l') /\
                       dict_at w' l' = Some (decoded_dict B e))
     (fun _ => False) w).
  { apply (as_dict_copy B self w h d Hh Hd Hn).
    intros k v Hin. destruct (Hrefs k v Hin) as (l & e & -> & _ & He & Hu).
    exists l, e. repeat split; auto.
    intros f x Hf. exact (Hdec h d k l e f x Hh Hd Hin He Hf). }
  unfold wp in C. fold n in C. unfold w'.
  destruct (as_dict B self w) as [w1 [v|e]]; simpl; [|destruct C].
  destruct C as (-> & cd & Hcd & Hkeys & Hcopy).
  exists cd. split; [reflexivity|]. split; [exact Hcd|].
  apply (resolve_copy B w w1 d cd); auto.
  unfold observe in Hobs. rewrite Hh, Hd in Hobs.
  destruct (resolve w d) as [els|]; [|discriminate].
  destruct (current_sde h) as [c|];
    [destruct (dict_at w c); [|discriminate]|];
    injection Hobs as <-; reflexivity.
Qed.

Lemma as_dict_builds_fresh_copy_witness :
  observe (fst (as_dict ascii_builtins 0 sample_accumulator)) 0
  = Some sample_state /\
  exists cd,
    snd (as_dict ascii_builtins 0 sample_accumulator) = Ok (VRef 4) /\
    dict_at (fst (as_dict ascii_builtins 0 sample_accumulator)) 3 = Some cd /\
    resolve (fst (as_dict ascii_builtins 0 sample_accumulator)) cd
    = Some [(KStr (bs "exampleSDID@32473"),
             [(KStr (bs "iut"), VUnicode [51%N])])].
Proof.
  pose proof (as_dict_builds_fresh_copy ascii_builtins sample_accumulator 0
                sample_state eq_refl) as H.
  split; [exact (proj1 (proj2 H))|].
  apply (proj2 (proj2 (proj2 (proj2 H)))).
  - exact (sd_inv_run _ _ _ (sd_inv_new empty_world)).
  - intros h d k l e f x Hh Hd Hin He Hf.
    injection Hh as <-. injection Hd as <-.
    destruct Hin as [Hin|[]]. injection Hin as <- <-.
    injection He as <-.
    destruct Hf as [Hf|[]]. injection Hf as <- <-.
    eexists _, _. split; reflexivity.
Defined.

(** ** Slices of a chunk *)

Lemma slice_empty (d : bytestring) (i : nat) : lib.slice d i i = [].
Proof. unfold lib.slice. now rewrite Nat.sub_diag. Qed.

Lemma slice_next (d rest : bytestring) (m i : nat) (c : byte) :
  m <= i -> skipn i d = c :: rest ->
  lib.slice d m (S i) = lib.slice d m i ++ [c].
Proof.
  intros Hm Hs. unfold lib.slice.
  assert (Hlen : i < length d).
  { apply (f_equal (@length _)) in Hs. rewrite length_skipn in Hs.
    simpl in Hs. lia. }
  assert (Hsk : skipn (i - m) (skipn m d) = c :: rest).
  { rewrite skipn_skipn. replace (i - m + m) with i by lia. exact Hs. }
  rewrite <- (firstn_skipn (i - m) (skipn m d)) at 1.
  rewrite Hsk.
  replace (S i - m) with (length (firstn (i - m) (skipn m d)) + 1).
  - rewrite firstn_app_2. reflexivity.
  - rewrite length_firstn, length_skipn. lia.
Qed.

Lemma slice_app (c1 c2 : bytestring) (m i : nat) :
  m <= i -> i <= length c1 -> lib.slice (c1 ++ c2) m i = lib.slice c1 m i.
Proof.
  intros Hm Hi. unfold lib.slice. rewrite skipn_app.
  rewrite firstn_app.
  replace (i - m - length (skipn m c1)) with 0
    by (rewrite length_skipn; lia).
  simpl. now rewrite app_nil_r.
Qed.

(** ** The parser up to its carry buffer *)

Lemma erase_fields (p q : usyslog.syslog_parser) :
  erase p = erase q ->
  usyslog.flags p = usyslog.flags q /\
  usyslog.token_state p = usyslog.token_state q /\
  usyslog.state p = usyslog.state q /\
  usyslog.error p = usyslog.error q /\
  usyslog.msg_head p = usyslog.msg_head q /\
  usyslog.message_length p = usyslog.message_length q /\
  usyslog.remaining p = usyslog.remaining q /\
  usyslog.app_data p = usyslog.app_data q.
Proof.
  destruct p, q. unfold erase, usyslog.set_buffer. simpl.
  intros [= -> -> -> -> -> -> -> ->]. repeat split.
Qed.

Lemma erase_intro (p q : usyslog.syslog_parser) :
  usyslog.flags p = usyslog.flags q ->
  usyslog.token_state p = usyslog.token_state q ->
  usyslog.state p = usyslog.state q ->
  usyslog.error p = usyslog.error q ->
  usyslog.msg_head p = usyslog.msg_head q ->
  usyslog.message_length p = usyslog.message_length q ->
  usyslog.remaining p = usyslog.remaining q ->
  usyslog.app_data p = usyslog.app_data q ->
  erase p = erase q.
Proof.
  destruct p, q. unfold erase, usyslog.set_buffer. simpl.
  intros -> -> -> -> -> -> -> ->. reflexivity.
Qed.

Lemma token_content (p q : usyslog.syslog_parser) (data : bytestring)
    (mark i : nat) (sp : lib.span) :
  lib.take_token p data mark i = (q, sp) ->
  lib.span_bytes data q sp = in_flight p data mark i /\ erase q = erase p.
Proof.
  unfold lib.take_token, in_flight, usyslog.position.
  destruct (length (usyslog.bytes (usyslog.buffer p)) =? 0) eqn:E.
  - intros [= <- <-]. apply Nat.eqb_eq in E.
    destruct (usyslog.bytes (usyslog.buffer p)); [|discriminate].
    split; reflexivity.
  - intros [= <- <-]. simpl. split; [|now destruct p].
    apply firstn_all.
Qed.

Lemma same_step_arrive (d1 d2 : bytestring) (i1 i2 : nat)
    (q1 q2 : usyslog.syslog_parser) (st : usyslog.pstate)
    (ts : usyslog.tstate) (calls : list lib.invocation) :
  erase q1 = erase q2 ->
  same_step d1 i1 d2 i2
    (lib.Next (lib.arrive q1 st ts) tt (S i1) calls)
    (lib.Next (lib.arrive q2 st ts) tt (S i2) calls).
Proof.
  intros H. apply erase_fields in H.
  destruct H as (? & ? & ? & ? & ? & ? & ? & ?).
  simpl. split; [reflexivity|]. split; [lia|]. split; [lia|].
  split.
  - apply erase_intro; simpl; auto.
  - unfold in_flight. rewrite !slice_empty. simpl. now destruct st.
Qed.

Lemma same_step_fail (d1 d2 : bytestring) (i1 i2 : nat)
    (q1 q2 : usyslog.syslog_parser) (e : usyslog.perror) (s1 s2 : lib.status)
    (calls : list lib.invocation) :
  erase q1 = erase q2 -> e <> usyslog.NoError ->
  same_step d1 i1 d2 i2
    (lib.Halt (lib.fail q1 e) tt s1 calls)
    (lib.Halt (lib.fail q2 e) tt s2 calls).
Proof.
  intros H He. apply erase_fields in H.
  destruct H as (? & ? & ? & ? & ? & ? & ? & ?).
  simpl. split; [reflexivity|]. split; [|exact He]. split.
  - apply erase_intro; simpl; auto.
  - exact I.
Qed.

Lemma same_step_after (d1 d2 : bytestring) (i1 i2 : nat)
    (r1 r2 : lib.step unit) (calls : list lib.invocation) :
  same_step d1 i1 d2 i2 r1 r2 ->
  same_step d1 i1 d2 i2 (lib.after calls r1) (lib.after calls r2).
Proof.
  destruct r1 as [q1 [] n1 c1|q1 [] s1 c1], r2 as [q2 [] n2 c2|q2 [] s2 c2];
    simpl; try tauto.
  - intros (-> & ? & ? & ?). auto.
  - intros (-> & ? & ?). auto.
Qed.

Lemma erase_set_msg_head (q1 q2 : usyslog.syslog_parser)
    (h : usyslog.syslog_msg_head) :
  erase q1 = erase q2 ->
  erase (usyslog.set_msg_head q1 h) = erase (usyslog.set_msg_head q2 h).
Proof.
  intros H. apply erase_fields in H.
  destruct H as (? & ? & ? & ? & ? & ? & ? & ?).
  apply erase_intro; simpl; auto.
Qed.

Lemma complete_token_same (d1 d2 : bytestring) (i1 i2 : nat)
    (st : usyslog.pstate) (ts : usyslog.tstate) (tok : bytestring)
    (q1 q2 : usyslog.syslog_parser) :
  erase q1 = erase q2 ->
  same_step d1 i1 d2 i2
    (lib.complete_token quiet i1 st ts tok q1 tt)
    (lib.complete_token quiet i2 st ts tok q2 tt).
Proof.
  intros H. pose proof (erase_fields _ _ H) as (_ & _ & Hs & _ & Hm & _).
  unfold lib.complete_token. rewrite Hs, Hm.
  destruct (usyslog.state q2);
    try (now apply same_step_arrive);
    try (destruct tok;
         [now apply same_step_fail
         |apply same_step_arrive; now apply erase_set_msg_head]);
    try (unfold lib.invoke; simpl;
         apply (same_step_after _ _ _ _ _ _ [_]);
         now apply same_step_arrive).
  - destruct (lib.parse_priority tok).
    + apply same_step_arrive. now apply erase_set_msg_head.
    + now apply same_step_fail.
  - destruct (lib.parse_version tok).
    + apply same_step_arrive. now apply erase_set_msg_head.
    + now apply same_step_fail.
Qed.

Lemma structural_same (d1 d2 : bytestring) (i1 i2 : nat)
    (st : usyslog.pstate) (ts : usyslog.tstate)
    (q1 q2 : usyslog.syslog_parser) :
  erase q1 = erase q2 ->
  same_step d1 i1 d2 i2
    (lib.structural quiet i1 st ts q1 tt)
    (lib.structural quiet i2 st ts q2 tt).
Proof.
  intros H. pose proof (erase_fields _ _ H) as (_ & _ & Hs & _).
  unfold lib.structural. rewrite Hs.
  destruct (usyslog.state q2); destruct st;
    try (now apply same_step_arrive);
    unfold lib.invoke; simpl;
    apply same_step_arrive; auto using erase_set_msg_head.
Qed.

Lemma tokenize_reject (st : usyslog.pstate) (ts : usyslog.tstate)
    (c : byte) (e : usyslog.perror) :
  lib.tokenize st ts c = lib.Reject e -> e <> usyslog.NoError.
Proof.
  unfold lib.tokenize, lib.head_token.
  destruct st; destruct ts;
    repeat match goal with
           | |- context [if ?x then _ else _] => destruct x
           end;
    intros [= <-]; discriminate.
Qed.

Lemma feed_body_same (d1 d2 : bytestring) (i1 i2 : nat)
    (p1 p2 : usyslog.syslog_parser) (c : byte) :
  erase p1 = erase p2 ->
  usyslog.state p1 = usyslog.BODY ->
  same_step d1 i1 d2 i2 (lib.body_byte quiet i1 p1 tt c)
                        (lib.body_byte quiet i2 p2 tt c).
Proof.
  intros He Hst. unfold lib.body_byte, lib.invoke. simpl.
  destruct (lib.is_delimiter c).
  - now apply same_step_arrive.
  - simpl. split; [reflexivity|]. split; [lia|]. split; [lia|].
    split; [exact He|]. now rewrite Hst.
Qed.

Lemma feed_token_same (d1 d2 : bytestring) (m1 i1 m2 i2 : nat)
    (p1 p2 : usyslog.syslog_parser) (c : byte) (rest : bytestring) :
  erase p1 = erase p2 ->
  in_flight p1 d1 m1 i1 = in_flight p2 d2 m2 i2 ->
  (forall q1 q2 n1 n2,
      erase q1 = erase q2 -> usyslog.state q1 = usyslog.state p1 ->
      in_flight q1 d1 n1 (S i1) = in_flight q2 d2 n2 (S i2) ->
      same_situation q1 d1 n1 (S i1) q2 d2 n2 (S i2)) ->
  skipn i1 d1 = c :: rest -> skipn i2 d2 = c :: rest ->
  m1 <= i1 -> m2 <= i2 ->
  same_step d1 i1 d2 i2
    match lib.tokenize (usyslog.state p1) (usyslog.token_state p1) c with
    | lib.Reject e => lib.reject p1 tt e i1
    | lib.Continue ts => lib.Next (usyslog.set_token_state p1 ts) tt m1 []
    | lib.Transition st ts => lib.structural quiet i1 st ts p1 tt
    | lib.Emit st ts =>
        let (q, sp) := lib.take_token p1 d1 m1 i1 in
        lib.complete_token quiet i1 st ts (lib.span_bytes d1 q sp) q tt
    end
    match lib.tokenize (usyslog.state p2) (usyslog.token_state p2) c with
    | lib.Reject e => lib.reject p2 tt e i2
    | lib.Continue ts => lib.Next (usyslog.set_token_state p2 ts) tt m2 []
    | lib.Transition st ts => lib.structural quiet i2 st ts p2 tt
    | lib.Emit st ts =>
        let (q, sp) := lib.take_token p2 d2 m2 i2 in
        lib.complete_token quiet i2 st ts (lib.span_bytes d2 q sp) q tt
    end.
Proof.
  intros He Hs Hsit H1 H2 Hm1 Hm2.
  pose proof (erase_fields _ _ He) as (Hf & Hts & Hst & Her & Hmh & _).
  rewrite Hst, Hts.
  destruct (lib.tokenize (usyslog.state p2) (usyslog.token_state p2) c)
    as [ts|st ts|st ts|e] eqn:T.
  - simpl. split; [reflexivity|]. split; [lia|]. split; [lia|].
    apply Hsit.
    + pose proof (erase_fields _ _ He) as (? & ? & ? & ? & ? & ? & ? & ?).
      apply erase_intro; simpl; auto.
    + reflexivity.
    + unfold in_flight in *. simpl.
      rewrite (slice_next _ _ _ _ _ Hm1 H1), (slice_next _ _ _ _ _ Hm2 H2).
      now rewrite !app_assoc, Hs.
  - destruct (lib.take_token p1 d1 m1 i1) as [q1 sp1] eqn:T1.
    destruct (lib.take_token p2 d2 m2 i2) as [q2 sp2] eqn:T2.
    apply token_content in T1, T2.
    destruct T1 as [-> E1], T2 as [-> E2]. rewrite Hs.
    apply complete_token_same. congruence.
  - now apply structural_same.
  - unfold lib.reject. apply same_step_fail; [exact He|].
    eapply tokenize_reject; eauto.
Qed.

Lemma feed_not_body (A : Type) (cbs : usyslog.syslog_parser_settings A)
    (d : bytestring) (m i : nat) (p : usyslog.syslog_parser) (a : A)
    (c : byte) :
  usyslog.state p <> usyslog.BODY ->
  lib.feed cbs d m i p a c
  = match lib.tokenize (usyslog.state p) (usyslog.token_state p) c with
    | lib.Reject e => lib.reject p a e i
    | lib.Continue ts => lib.Next (usyslog.set_token_state p ts) a m []
    | lib.Transition st ts => lib.structural cbs i st ts p a
    | lib.Emit st ts =>
        let (q, sp) := lib.take_token p d m i in
        lib.complete_token cbs i st ts (lib.span_bytes d q sp) q a
    end.
Proof.
  intros H. unfold lib.feed.
  destruct (usyslog.state p); try reflexivity. congruence.
Qed.

Lemma feed_in_body (A : Type) (cbs : usyslog.syslog_parser_settings A)
    (d : bytestring) (m i : nat) (p : usyslog.syslog_parser) (a : A)
    (c : byte) :
  usyslog.state p = usyslog.BODY ->
  lib.feed cbs d m i p a c = lib.body_byte cbs i p a c.
Proof. intros H. unfold lib.feed. now rewrite H. Qed.

Lemma feed_same (d1 d2 : bytestring) (m1 i1 m2 i2 : nat)
    (p1 p2 : usyslog.syslog_parser) (c : byte) (rest : bytestring) :
  same_situation p1 d1 m1 i1 p2 d2 m2 i2 ->
  skipn i1 d1 = c :: rest -> skipn i2 d2 = c :: rest ->
  m1 <= i1 -> m2 <= i2 ->
  usyslog.state p1 <> usyslog.COMPLETE ->
  usyslog.state p1 <> usyslog.ERROR ->
  same_step d1 i1 d2 i2 (lib.feed quiet d1 m1 i1 p1 tt c)
                        (lib.feed quiet d2 m2 i2 p2 tt c).
Proof.
  intros [He Hs] H1 H2 Hm1 Hm2 Hc Her.
  pose proof (erase_fields _ _ He) as (_ & _ & Hst & _).
  destruct (usyslog.state p1) eqn:Est; try congruence.
  13:{ rewrite !feed_in_body by congruence.
       now apply feed_body_same. }
  all: rewrite !feed_not_body by congruence;
    apply (feed_token_same d1 d2 m1 i1 m2 i2 p1 p2 c rest); auto;
    intros q1 q2 n1 n2 Hq Hqs Hfl; split; [exact Hq|];
    rewrite Hqs, Est; exact Hfl.
Qed.

Lemma skipn_step (d rest : bytestring) (i : nat) (c : byte) :
  skipn i d = c :: rest -> skipn (S i) d = rest.
Proof.
  intros H. change (S i) with (1 + i). rewrite <- skipn_skipn, H. reflexivity.
Qed.

Lemma same_parser_refl (p : usyslog.syslog_parser) : same_parser p p.
Proof. split; [reflexivity|]. now destruct (usyslog.state p). Qed.

Lemma same_situation_refl (p : usyslog.syslog_parser) (d : bytestring)
    (m i : nat) :
  same_situation p d m i p d m i.
Proof. split; [reflexivity|]. now destruct (usyslog.state p). Qed.

Lemma run_terminal (A : Type) (cbs : usyslog.syslog_parser_settings A)
    (d rest : bytestring) (i m : nat) (p : usyslog.syslog_parser) (a : A) :
  halted (usyslog.state p) = true ->
  lib.run cbs d rest i m p a = lib.mkOutcome p a (lib.Consumed i) [].
Proof.
  intros H. destruct rest; simpl; unfold lib.chunk_end;
    destruct (usyslog.state p); try discriminate; reflexivity.
Qed.

Lemma run_cons (A : Type) (cbs : usyslog.syslog_parser_settings A)
    (d rest : bytestring) (c : byte) (i m : nat)
    (p : usyslog.syslog_parser) (a : A) :
  halted (usyslog.state p) = false ->
  lib.run cbs d (c :: rest) i m p a
  = match lib.feed cbs d m i p a c with
    | lib.Next p' a' m' calls =>
        lib.calls_before calls (lib.run cbs d rest (S i) m' p' a')
    | lib.Halt p' a' s calls => lib.mkOutcome p' a' s calls
    end.
Proof.
  intros H. simpl. destruct (usyslog.state p); try discriminate; reflexivity.
Qed.

Lemma push_carry_same (p1 p2 : usyslog.syslog_parser) (s1 s2 : bytestring) :
  erase p1 = erase p2 ->
  usyslog.bytes (usyslog.buffer p1) ++ s1
  = usyslog.bytes (usyslog.buffer p2) ++ s2 ->
  same_parser (lib.push_carry p1 s1) (lib.push_carry p2 s2).
Proof.
  intros He Hs.
  pose proof (erase_fields _ _ He) as (? & ? & ? & ? & ? & ? & ? & ?).
  split; [apply erase_intro; simpl; auto|].
  simpl. now destruct (usyslog.state p1).
Qed.

Lemma chunk_end_same (d1 d2 : bytestring) (m1 i1 m2 i2 : nat)
    (p1 p2 : usyslog.syslog_parser) :
  same_situation p1 d1 m1 i1 p2 d2 m2 i2 ->
  same_parser (lib.o_parser (lib.chunk_end d1 i1 m1 p1 tt))
              (lib.o_parser (lib.chunk_end d2 i2 m2 p2 tt)) /\
  lib.o_calls (lib.chunk_end d1 i1 m1 p1 tt)
  = lib.o_calls (lib.chunk_end d2 i2 m2 p2 tt).
Proof.
  intros [He Hs].
  pose proof (erase_fields _ _ He) as (_ & _ & Hst & _).
  unfold lib.chunk_end. rewrite <- Hst.
  destruct (usyslog.state p1) eqn:Est; simpl.
  13:{ split; [|reflexivity]. split; [exact He|now rewrite Est]. }
  13:{ split; [|reflexivity]. split; [exact He|now rewrite Est]. }
  13:{ split; [|reflexivity]. split; [exact He|now rewrite Est]. }
  all: split; [now apply push_carry_same|reflexivity].
Qed.

(** From the same situation the parser invokes the same callbacks and
    ends up the same, whatever the chunks looked like before. *)
Lemma run_same (rest : bytestring) :
  forall d1 m1 i1 p1 d2 m2 i2 p2,
    skipn i1 d1 = rest -> skipn i2 d2 = rest ->
    m1 <= i1 -> m2 <= i2 ->
    same_situation p1 d1 m1 i1 p2 d2 m2 i2 ->
    same_parser (lib.o_parser (lib.run quiet d1 rest i1 m1 p1 tt))
                (lib.o_parser (lib.run quiet d2 rest i2 m2 p2 tt)) /\
    lib.o_calls (lib.run quiet d1 rest i1 m1 p1 tt)
    = lib.o_calls (lib.run quiet d2 rest i2 m2 p2 tt).
Proof.
  induction rest as [|c rest IH];
    intros d1 m1 i1 p1 d2 m2 i2 p2 H1 H2 Hm1 Hm2 Hsit.
  - simpl. now apply chunk_end_same.
  - pose proof (erase_fields _ _ (proj1 Hsit)) as (_ & _ & Hst & _).
    destruct (halted (usyslog.state p1)) eqn:Hh.
    + rewrite !run_terminal by congruence. simpl.
      split; [|reflexivity]. split; [apply Hsit|].
      destruct (usyslog.state p1); try discriminate; exact I.
    + rewrite !run_cons by congruence.
      assert (F : same_step d1 i1 d2 i2 (lib.feed quiet d1 m1 i1 p1 tt c)
                            (lib.feed quiet d2 m2 i2 p2 tt c)).
      { apply (feed_same d1 d2 m1 i1 m2 i2 p1 p2 c rest); auto;
          intros E; rewrite E in Hh; discriminate. }
      destruct (lib.feed quiet d1 m1 i1 p1 tt c) as [q1 [] n1 c1|q1 [] s1 c1];
        destruct (lib.feed quiet d2 m2 i2 p2 tt c)
          as [q2 [] n2 c2|q2 [] s2 c2];
        simpl in F; try contradiction.
      * destruct F as (-> & Hn1 & Hn2 & Hs').
        destruct (IH d1 n1 (S i1) q1 d2 n2 (S i2) q2) as [IH1 IH2];
          eauto using skipn_step.
        simpl. split; [exact IH1|now rewrite IH2].
      * destruct F as (-> & Hp & _). simpl. split; [exact Hp|reflexivity].
Qed.

Lemma take_token_app (p : usyslog.syslog_parser) (c1 c2 : bytestring)
    (m i : nat) :
  m <= i -> i <= length c1 ->
  (let (q, sp) := lib.take_token p (c1 ++ c2) m i in
   (q, lib.span_bytes (c1 ++ c2) q sp))
  = (let (q, sp) := lib.take_token p c1 m i in (q, lib.span_bytes c1 q sp)).
Proof.
  intros Hm Hi. unfold lib.take_token.
  rewrite (slice_app c1 c2 m i Hm Hi).
  destruct (usyslog.position (usyslog.buffer p) =? 0); [|reflexivity].
  simpl. f_equal. exact (slice_app c1 c2 m i Hm Hi).
Qed.

(** A step reads the chunk only up to the current offset. *)
Lemma feed_app (A : Type) (cbs : usyslog.syslog_parser_settings A)
    (c1 c2 : bytestring) (m i : nat) (p : usyslog.syslog_parser) (a : A)
    (c : byte) :
  m <= i -> i <= length c1 ->
  lib.feed cbs (c1 ++ c2) m i p a c = lib.feed cbs c1 m i p a c.
Proof.
  intros Hm Hi.
  assert (T : forall st ts,
    (let (q, sp) := lib.take_token p (c1 ++ c2) m i in
     lib.complete_token cbs i st ts (lib.span_bytes (c1 ++ c2) q sp) q a)
    = (let (q, sp) := lib.take_token p c1 m i in
       lib.complete_token cbs i st ts (lib.span_bytes c1 q sp) q a)).
  { intros st ts. pose proof (take_token_app p c1 c2 m i Hm Hi) as E.
    destruct (lib.take_token p (c1 ++ c2) m i) as [q sp].
    destruct (lib.take_token p c1 m i) as [q' sp'].
    injection E as -> ->. reflexivity. }
  unfold lib.feed.
  destruct (usyslog.state p); try reflexivity;
    destruct (lib.tokenize _ _ c); try reflexivity; apply T.
Qed.

Lemma feed_next_error (d : bytestring) (m i : nat)
    (p q : usyslog.syslog_parser) (c : byte) (n : nat)
    (calls : list lib.invocation) :
  lib.feed quiet d m i p tt c = lib.Next q tt n calls ->
  usyslog.error q = usyslog.error p.
Proof.
  destruct (usyslog.state p) eqn:Est.
  13:{ rewrite feed_in_body by exact Est.
       unfold lib.body_byte, lib.invoke. simpl.
       destruct (lib.is_delimiter c); intros [= <- _ _]; reflexivity. }
  all: rewrite feed_not_body by congruence;
    destruct (lib.tokenize _ _ c) as [ts|st ts|st ts|e];
    [ intros [= <- _ _]; reflexivity
    | destruct (lib.take_token p d m i) as [q0 sp] eqn:T;
      apply token_content in T; destruct T as [_ T];
      apply erase_fields in T; destruct T as (_ & _ & Hs & He & _);
      unfold lib.complete_token; rewrite Hs, Est;
      repeat match goal with
             | |- context [match ?x with _ => _ end] => destruct x
             end;
      simpl; try discriminate; intros [= <- _ _]; exact He
    | unfold lib.structural; rewrite Est;
      destruct st; simpl; intros [= <- _ _]; reflexivity
    | discriminate ].
Qed.

Lemma same_parser_trans (p q r : usyslog.syslog_parser) :
  same_parser p q -> same_parser q r -> same_parser p r.
Proof.
  intros [E1 B1] [E2 B2].
  pose proof (erase_fields _ _ E1) as (_ & _ & Hst & _).
  split; [congruence|]. rewrite <- Hst in B2.
  destruct (usyslog.state p); auto; congruence.
Qed.

Lemma exec_run (A : Type) (cbs : usyslog.syslog_parser_settings A)
    (p : usyslog.syslog_parser) (a : A) (d : bytestring) :
  usyslog.error p = usyslog.NoError ->
  lib.uslg_parser_exec p cbs a d (length d) = lib.run cbs d d 0 0 p a.
Proof.
  intros H. unfold lib.uslg_parser_exec. now rewrite H, firstn_all.
Qed.

Lemma exec_error (A : Type) (cbs : usyslog.syslog_parser_settings A)
    (p : usyslog.syslog_parser) (a : A) (d : bytestring) (n : nat) :
  usyslog.error p <> usyslog.NoError ->
  lib.uslg_parser_exec p cbs a d n
  = lib.mkOutcome p a (lib.ErrorAt (usyslog.error p) 0) [].
Proof.
  intros H. unfold lib.uslg_parser_exec.
  destruct (usyslog.error p); try reflexivity. congruence.
Qed.

Lemma skipn_offset (d rest : bytestring) (i : nat) (c : byte) :
  skipn i d = c :: rest -> i < length d.
Proof.
  intros H. apply (f_equal (@length _)) in H.
  rewrite length_skipn in H. simpl in H. lia.
Qed.

(** Splitting a chunk in two: what the second call does after the
    first is what the single call does from the boundary on. *)
Lemma run_split (r1 : bytestring) :
  forall c1 c2 i m p,
    skipn i c1 = r1 -> m <= i -> i <= length c1 ->
    usyslog.error p = usyslog.NoError ->
    let whole := lib.run quiet (c1 ++ c2) (r1 ++ c2) i m p tt in
    let first := lib.run quiet c1 r1 i m p tt in
    let second := lib.uslg_parser_exec (lib.o_parser first) quiet tt c2
                                       (length c2) in
    lib.o_calls whole = lib.o_calls first ++ lib.o_calls second /\
    same_parser (lib.o_parser whole) (lib.o_parser second).
Proof.
  induction r1 as [|c r1 IH]; intros c1 c2 i m p Hsk Hm Hi Herr.
  - assert (Hlen : i = length c1).
    { apply (f_equal (@length _)) in Hsk. rewrite length_skipn in Hsk.
      simpl in Hsk. lia. }
    assert (Hsk2 : skipn i (c1 ++ c2) = c2).
    { rewrite skipn_app, Hsk, Hlen, Nat.sub_diag. reflexivity. }
    simpl app. simpl. unfold lib.chunk_end.
    destruct (usyslog.state p) eqn:Est; simpl lib.o_parser; simpl lib.o_calls.
    13:{ rewrite exec_run by exact Herr.
         destruct (run_same c2 (c1 ++ c2) m i p c2 0 0 p Hsk2 eq_refl Hm
                     (Nat.le_refl 0)) as [P C].
         - split; [reflexivity|now rewrite Est].
         - simpl. rewrite C. split; [reflexivity|exact P]. }
    13:{ rewrite exec_run by exact Herr.
         rewrite !run_terminal by now rewrite Est.
         split; [reflexivity|apply same_parser_refl]. }
    13:{ rewrite exec_run by exact Herr.
         rewrite !run_terminal by now rewrite Est.
         split; [reflexivity|apply same_parser_refl]. }
    all: rewrite exec_run by exact Herr;
      destruct (run_same c2 (c1 ++ c2) m i p c2 0 0
                  (lib.push_carry p (lib.slice c1 m i)) Hsk2 eq_refl Hm
                  (Nat.le_refl 0)) as [P C];
      [ split; [now destruct p|];
        rewrite Est; unfold in_flight; simpl;
        rewrite (slice_app c1 c2 m i Hm Hi), slice_empty;
        now rewrite app_nil_r
      | simpl; rewrite C; split; [reflexivity|exact P] ].
  - pose proof (skipn_offset _ _ _ _ Hsk) as Hlt.
    simpl app.
    destruct (halted (usyslog.state p)) eqn:Hh.
    + rewrite !run_terminal by exact Hh. simpl.
      rewrite exec_run by exact Herr.
      rewrite run_terminal by exact Hh. simpl.
      split; [reflexivity|apply same_parser_refl].
    + rewrite !run_cons by exact Hh.
      rewrite feed_app by lia.
      assert (F : same_step c1 i c1 i (lib.feed quiet c1 m i p tt c)
                            (lib.feed quiet c1 m i p tt c)).
      { apply (feed_same c1 c1 m i m i p p c r1); auto.
        - apply same_situation_refl.
        - intros E. rewrite E in Hh. discriminate.
        - intros E. rewrite E in Hh. discriminate. }
      destruct (lib.feed quiet c1 m i p tt c) as [q [] n calls|q [] s calls]
        eqn:Ef; simpl in F.
      * destruct F as (_ & Hn & _).
        destruct (IH c1 c2 (S i) n q (skipn_step _ _ _ _ Hsk) Hn) as [C P].
        -- lia.
        -- rewrite (feed_next_error _ _ _ _ _ _ _ _ Ef). exact Herr.
        -- simpl. split; [|exact P].
           rewrite <- app_assoc. now rewrite C.
      * destruct F as (_ & _ & He). simpl.
        rewrite exec_error by exact He. simpl. rewrite app_nil_r.
        split; [reflexivity|apply same_parser_refl].
Qed.

Lemma exec_chunks_error (chunks : list bytestring)
    (p : usyslog.syslog_parser) :
  usyslog.error p <> usyslog.NoError ->
  lib.o_calls (exec_chunks p quiet tt chunks) = [] /\
  lib.o_parser (exec_chunks p quiet tt chunks) = p.
Proof.
  intros H. induction chunks as [|c chunks [IH1 IH2]]; simpl; [auto|].
  rewrite exec_error by exact H. simpl. auto.
Qed.

(** Chunk invariance of the native parser, for callbacks that do not
    abort: any division of the bytes gives the callback sequence of the
    single call. *)
Lemma exec_chunks_whole (chunks : list bytestring) :
  forall p,
    lib.o_calls (exec_chunks p quiet tt chunks)
    = lib.o_calls (lib.uslg_parser_exec p quiet tt (concat chunks)
                     (length (concat chunks))) /\
    same_parser
      (lib.o_parser (lib.uslg_parser_exec p quiet tt (concat chunks)
                       (length (concat chunks))))
      (lib.o_parser (exec_chunks p quiet tt chunks)).
Proof.
  induction chunks as [|c chunks IH]; intros p.
  - simpl. unfold lib.uslg_parser_exec.
    destruct (usyslog.error p); simpl;
      try (split; [reflexivity|apply same_parser_refl]).
    unfold lib.chunk_end.
    destruct (usyslog.state p) eqn:Est; simpl;
      try (split; [reflexivity|apply same_parser_refl]);
      (split; [reflexivity|]);
      (split; [now destruct p|]); simpl; rewrite Est; apply app_nil_r.
  - simpl concat. simpl exec_chunks.
    destruct (usyslog.error p) eqn:Herr.
    2-7: (assert (Hne : usyslog.error p <> usyslog.NoError) by congruence;
          rewrite !exec_error by exact Hne; simpl;
          destruct (exec_chunks_error chunks p Hne) as [-> ->];
          split; [reflexivity|apply same_parser_refl]).
    rewrite (exec_run _ _ p tt (c ++ concat chunks)) by exact Herr.
    rewrite (exec_run _ _ p tt c) by exact Herr.
    destruct (run_split c c (concat chunks) 0 0 p eq_refl (Nat.le_refl 0)
                (Nat.le_0_l _) Herr) as [C P].
    destruct (IH (lib.o_parser (lib.run quiet c c 0 0 p tt))) as [C' P'].
    simpl.
    replace (lib.o_world (lib.run quiet c c 0 0 p tt)) with tt
      by now destruct (lib.o_world (lib.run quiet c c 0 0 p tt)).
    split.
    + rewrite C. now rewrite C'.
    + exact (same_parser_trans _ _ _ P P').
Qed.

(** ** Callbacks that never abort *)

Lemma step_view_after (A : Type) (calls : list lib.invocation)
    (r : lib.step A) :
  step_view (lib.after calls r) = lib.after calls (step_view r).
Proof. now destruct r. Qed.

Lemma invoke_view (A : Type) (r : A * Z) (c : lib.invocation) (i : nat)
    (p : usyslog.syslog_parser) (k : A -> lib.step A) :
  snd r = 0%Z ->
  step_view (lib.invoke r c i p k) = lib.after [c] (step_view (k (fst r))).
Proof.
  destruct r as [a rc]. simpl. intros ->. unfold lib.invoke. simpl.
  apply step_view_after.
Qed.

Section NeverAbort.

Variable A : Type.
Variable cbs : usyslog.syslog_parser_settings A.
Hypothesis Hcbs : never_abort cbs.

Lemma complete_token_view (i : nat) (st : usyslog.pstate)
    (ts : usyslog.tstate) (tok : bytestring) (p : usyslog.syslog_parser)
    (a : A) :
  step_view (lib.complete_token cbs i st ts tok p a)
  = lib.complete_token quiet i st ts tok p tt.
Proof.
  destruct Hcbs as (H1 & H2 & H3 & H4 & H5 & H6 & H7).
  unfold lib.complete_token.
  destruct (usyslog.state p); try reflexivity;
    try (destruct tok; reflexivity);
    try (rewrite invoke_view by auto; reflexivity).
  - now destruct (lib.parse_priority tok).
  - now destruct (lib.parse_version tok).
  - destruct tok; [reflexivity|]. rewrite invoke_view by auto. reflexivity.
Qed.

Lemma structural_view (i : nat) (st : usyslog.pstate) (ts : usyslog.tstate)
    (p : usyslog.syslog_parser) (a : A) :
  step_view (lib.structural cbs i st ts p a)
  = lib.structural quiet i st ts p tt.
Proof.
  destruct Hcbs as (H1 & H2 & H3 & H4 & H5 & H6 & H7).
  unfold lib.structural.
  destruct (usyslog.state p); destruct st; try reflexivity;
    rewrite invoke_view by auto; reflexivity.
Qed.

Lemma body_byte_view (i : nat) (p : usyslog.syslog_parser) (a : A)
    (c : byte) :
  step_view (lib.body_byte cbs i p a c) = lib.body_byte quiet i p tt c.
Proof.
  destruct Hcbs as (H1 & H2 & H3 & H4 & H5 & H6 & H7).
  unfold lib.body_byte.
  destruct (lib.is_delimiter c); rewrite invoke_view by auto; reflexivity.
Qed.

Lemma feed_view (d : bytestring) (m i : nat) (p : usyslog.syslog_parser)
    (a : A) (c : byte) :
  step_view (lib.feed cbs d m i p a c) = lib.feed quiet d m i p tt c.
Proof.
  assert (T : forall st ts,
    step_view (let (q, sp) := lib.take_token p d m i in
               lib.complete_token cbs i st ts (lib.span_bytes d q sp) q a)
    = (let (q, sp) := lib.take_token p d m i in
       lib.complete_token quiet i st ts (lib.span_bytes d q sp) q tt)).
  { intros st ts. destruct (lib.take_token p d m i).
    apply complete_token_view. }
  unfold lib.feed.
  destruct (usyslog.state p); try apply body_byte_view;
    destruct (lib.tokenize _ _ c); try reflexivity;
    try apply T; apply structural_view.
Qed.

Lemma chunk_end_view (d : bytestring) (i m : nat)
    (p : usyslog.syslog_parser) (a : A) :
  outcome_view (lib.chunk_end d i m p a) = lib.chunk_end d i m p tt.
Proof.
  unfold lib.chunk_end. now destruct (usyslog.state p).
Qed.

Lemma run_view (rest : bytestring) :
  forall d i m p a,
    outcome_view (lib.run cbs d rest i m p a) = lib.run quiet d rest i m p tt.
Proof.
  induction rest as [|c rest IH]; intros d i m p a.
  - apply chunk_end_view.
  - destruct (halted (usyslog.state p)) eqn:Hh.
    + rewrite !run_terminal by exact Hh. reflexivity.
    + rewrite !run_cons by exact Hh. rewrite <- (feed_view d m i p a c).
      destruct (lib.feed cbs d m i p a c) as [q a' n calls|q a' s calls];
        simpl; [|reflexivity].
      rewrite <- (IH d (S i) n q a'). reflexivity.
Qed.

Lemma exec_view (p : usyslog.syslog_parser) (a : A) (d : bytestring)
    (n : nat) :
  outcome_view (lib.uslg_parser_exec p cbs a d n)
  = lib.uslg_parser_exec p quiet tt d n.
Proof.
  unfold lib.uslg_parser_exec.
  destruct (usyslog.error p); try reflexivity. apply run_view.
Qed.

Lemma exec_chunks_view (chunks : list bytestring) :
  forall p a,
    outcome_view (exec_chunks p cbs a chunks) = exec_chunks p quiet tt chunks.
Proof.
  induction chunks as [|c chunks IH]; intros p a; [reflexivity|].
  simpl. rewrite <- (exec_view p a c (length c)).
  unfold outcome_view at 2. simpl.
  rewrite <- (IH (lib.o_parser (lib.uslg_parser_exec p cbs a c (length c)))
                 (lib.o_world (lib.uslg_parser_exec p cbs a c (length c)))).
  reflexivity.
Qed.

End NeverAbort.

Lemma ffi_callback_zero (f : py Z) (w : world) :
  (forall w0 w' rc, f w0 = (w', Ok rc) -> rc = 0%Z) ->
  snd (ffi_callback f w) = 0%Z.
Proof.
  intros H. unfold ffi_callback. specialize (H w).
  destruct (f w) as [w' [rc|e]]; simpl; eauto.
Qed.

Lemma ret_zero (w w' : world) (rc : Z) : ret 0%Z w = (w', Ok rc) -> rc = 0%Z.
Proof. unfold ret. now intros [= _ <-]. Qed.

(** Every callback of the module returns 0, also when it raises. *)
Lemma callbacks_never_abort : never_abort callbacks.
Proof.
  unfold never_abort, callbacks. simpl.
  repeat split; intros;
    apply ffi_callback_zero;
    repeat (apply bind_result; intros ?); apply ret_zero.
Qed.

(** ** Aborts *)

Lemma invoke_abort (A : Type) (r : A * Z) (c : lib.invocation) (i : nat)
    (p : usyslog.syslog_parser) (k : A -> lib.step A) :
  (forall a, abort_recorded (k a)) ->
  abort_recorded (lib.invoke r c i p k).
Proof.
  intros Hk. destruct r as [a rc]. unfold lib.invoke.
  destruct (rc =? 0)%Z eqn:E.
  - specialize (Hk a). now destruct (k a).
  - simpl. apply Z.eqb_neq in E. auto.
Qed.

Lemma feed_abort (A : Type) (cbs : usyslog.syslog_parser_settings A)
    (d : bytestring) (m i : nat) (p : usyslog.syslog_parser) (a : A)
    (c : byte) :
  abort_recorded (lib.feed cbs d m i p a c).
Proof.
  assert (T : forall st ts tok q,
             abort_recorded (lib.complete_token cbs i st ts tok q a)).
  { intros st ts tok q. unfold lib.complete_token.
    destruct (usyslog.state q); try exact I;
      try (destruct tok; exact I);
      try (apply invoke_abort; intros a'; exact I).
    - now destruct (lib.parse_priority tok).
    - now destruct (lib.parse_version tok).
    - destruct tok; [exact I|]. apply invoke_abort. intros a'. exact I. }
  unfold lib.feed.
  destruct (usyslog.state p) eqn:Est.
  13:{ unfold lib.body_byte.
       destruct (lib.is_delimiter c); apply invoke_abort; intros a';
         exact I. }
  all: destruct (lib.tokenize _ _ c) as [ts|st ts|st ts|e]; try exact I;
    [ destruct (lib.take_token p d m i) as [q sp]; apply T
    | unfold lib.structural; rewrite ?Est;
      destruct st; try exact I; apply invoke_abort; intros a'; exact I ].
Qed.

(** An abort that [uslg_parser_exec] reports came from a callback that
    returned non-zero, and is recorded in the native parser. *)
Lemma exec_abort (A : Type) (cbs : usyslog.syslog_parser_settings A)
    (p : usyslog.syslog_parser) (a : A) (d : bytestring) (n : nat)
    (rc : Z) (j : nat) :
  lib.o_status (lib.uslg_parser_exec p cbs a d n) = lib.Aborted rc j ->
  rc <> 0%Z /\
  usyslog.error (lib.o_parser (lib.uslg_parser_exec p cbs a d n))
  = usyslog.CallbackAborted /\
  usyslog.state (lib.o_parser (lib.uslg_parser_exec p cbs a d n))
  = usyslog.ERROR.
Proof.
  assert (R : forall rest data i m q b,
             lib.o_status (lib.run cbs data rest i m q b) = lib.Aborted rc j ->
             rc <> 0%Z /\
             usyslog.error (lib.o_parser (lib.run cbs data rest i m q b))
             = usyslog.CallbackAborted /\
             usyslog.state (lib.o_parser (lib.run cbs data rest i m q b))
             = usyslog.ERROR).
  { induction rest as [|c rest IH]; intros data i m q b.
    - simpl. unfold lib.chunk_end.
      destruct (usyslog.state q); discriminate.
    - destruct (halted (usyslog.state q)) eqn:Hh.
      + rewrite run_terminal by exact Hh. discriminate.
      + rewrite run_cons by exact Hh.
        pose proof (feed_abort A cbs data m i q b c) as F.
        destruct (lib.feed cbs data m i q b c) as [q' b' m' cs|q' b' s cs].
        * simpl. apply IH.
        * simpl. intros ->. exact F. }
  unfold lib.uslg_parser_exec.
  destruct (usyslog.error p); try discriminate. apply R.
Qed.

(** C6, as the code has it: an abort by a callback is not reported by
    [Parser.read], which raises nothing and evaluates to [None] after
    the callbacks ran; the abort is recorded in the native parser only,
    whose status [read] does not pass on.  An exception raised inside a
    callback does not even abort: the [ffi.callback] wrapper returns 0
    for it, and every callback of the module returns 0.  The class
    [MessageHandlerError] is defined, with the cause it wraps, distinct
    from [ParsingError] and with both message and cause in its
    [str()], but nothing raises it. *)
Theorem callback_abort_is_not_reported (self : Parser) (w : world)
    (data : bytestring) (msg : string) (cause : pyexc) :
  let r := Parser_read self data w in
  let o := lib.uslg_parser_exec (_cparser self) (_cparser_settings self) w
                                data (length data) in
  read_raises r = None /\
  r_value r = Ok VNone /\
  r_calls r = lib.o_calls o /\
  r_world r = lib.o_world o /\
  (forall rc i, lib.o_status o = lib.Aborted rc i ->
     rc <> 0%Z /\
     usyslog.error (_cparser (r_self r)) = usyslog.CallbackAborted /\
     usyslog.state (_cparser (r_self r)) = usyslog.ERROR) /\
  (forall (f : py Z) (w0 w1 : world) (e : exn),
     f w0 = (w1, Raise e) -> ffi_callback f w0 = (w1, 0%Z)) /\
  (forall (f : py Z) (w0 w1 : world) (rc : Z),
     f w0 = (w1, Ok rc) -> ffi_callback f w0 = (w1, rc)) /\
  never_abort callbacks /\
  (let e := EMessageHandlerError msg cause in
   exc_cause e = Some cause /\
   exc_msg e = Some msg /\
   isinstance e MessageHandlerError = true /\
   isinstance e SyslogError = true /\
   except_catches ParsingError e = false /\
   (forall m, except_catches MessageHandlerError (EParsingError m) = false) /\
   (forall m, exc_cause (EParsingError m) = None) /\
   exc_str e
   = ("MessageHandler exception: " ++ msg ++ " - " ++ exc_str cause)%string /\
   contains (exc_str e) msg = true /\
   contains (exc_str e) (exc_str cause) = true).
Proof.
  intros r o.
  split; [reflexivity|]. split; [reflexivity|]. split; [reflexivity|].
  split; [reflexivity|].
  split; [intros rc i H; exact (exec_abort _ _ _ _ _ _ rc i H)|].
  split; [intros f w0 w1 e H; unfold ffi_callback; now rewrite H|].
  split; [intros f w0 w1 rc H; unfold ffi_callback; now rewrite H|].
  split; [apply callbacks_never_abort|].
  apply MessageHandlerError_class.
Qed.

(** C6 as stated fails: the consumer's [on_msg_begin] rejects the
    message, [uslg_parser_exec] reports the abort, and [read] raises
    nothing, so no [MessageHandlerError] reaches the caller. *)
Lemma aborting_callback_raises_nothing :
  ~ (forall (self : Parser) (w : world) (data : bytestring)
            (rc : Z) (i : nat),
        lib.o_status (lib.uslg_parser_exec (_cparser self)
                        (_cparser_settings self) w data (length data))
        = lib.Aborted rc i ->
        exists msg cause,
          read_raises (Parser_read self data w)
          = Some (EMessageHandlerError msg cause)).
Proof.
  intros H.
  destruct (H (mkParserObject 0 0
                 (usyslog.set_app_data usyslog.zero_parser (Some 0))
                 rejecting)
              (r_world (used_parser VNone [])) (bs "<34>1 ") 7%Z 0 eq_refl)
    as (msg & cause & Hr).
  discriminate Hr.
Qed.

(** ** [Parser.read] over chunks *)

Lemma read_chunks_exec (chunks : list bytestring) :
  forall self w,
    r_calls (read_chunks self chunks w)
    = lib.o_calls (exec_chunks (_cparser self) (_cparser_settings self) w
                               chunks) /\
    _cparser (r_self (read_chunks self chunks w))
    = lib.o_parser (exec_chunks (_cparser self) (_cparser_settings self) w
                                chunks).
Proof.
  induction chunks as [|c chunks IH]; intros self w; [simpl; auto|].
  destruct (IH (r_self (Parser_read self c w)) (r_world (Parser_read self c w)))
    as [C P].
  cbn [read_chunks r_calls r_self]. rewrite C, P. split; reflexivity.
Qed.

(** C5: for a [Parser] with the callbacks of the module, whatever way
    the bytes are divided into chunks, feeding them one [read] per
    chunk invokes the callbacks that one [read] of all the bytes
    invokes: the same kinds in the same order, with the same contents;
    the native parser ends in the same state. *)
Theorem chunked_read_same_calls (self : Parser) (w : world)
    (chunks : list bytestring)
    (Hcallbacks : _cparser_settings self = callbacks) :
  let chunked := read_chunks self chunks w in
  let whole := Parser_read self (concat chunks) w in
  r_calls chunked = r_calls whole /\
  same_parser (_cparser (r_self whole)) (_cparser (r_self chunked)).
Proof.
  intros chunked whole.
  assert (Hna : never_abort (_cparser_settings self))
    by (rewrite Hcallbacks; apply callbacks_never_abort).
  destruct (read_chunks_exec chunks self w) as [C P].
  fold chunked in C, P.
  pose proof (exec_chunks_view _ _ Hna chunks (_cparser self) w) as V.
  pose proof (exec_view _ _ Hna (_cparser self) w (concat chunks)
                (length (concat chunks))) as V'.
  destruct (exec_chunks_whole chunks (_cparser self)) as [E S].
  rewrite <- V, <- V' in E, S. simpl in E, S.
  split; [rewrite C; exact E|rewrite P; exact S].
Qed.

Lemma chunked_read_same_calls_witness :
  let fresh := used_parser VNone [] in
  r_calls (read_chunks (r_self fresh) scenario_a_chunks (r_world fresh))
  = r_calls (Parser_read (r_self fresh) scenario_a (r_world fresh)) /\
  r_calls (read_chunks (r_self fresh) (map (fun c => [c]) scenario_a)
                       (r_world fresh))
  = r_calls (Parser_read (r_self fresh) scenario_a (r_world fresh)).
Proof.
  intros fresh. split.
  - exact (proj1 (chunked_read_same_calls
                    (r_self fresh) (r_world fresh) scenario_a_chunks
                    eq_refl)).
  - exact (proj1 (chunked_read_same_calls
                    (r_self fresh) (r_world fresh)
                    (map (fun c => [c]) scenario_a) eq_refl)).
Defined.

(* ================================================================= *)
(** * Further properties *)

(** ** The exception hierarchy *)

(** X1: [except SyslogError] handles exactly the exceptions of the
    module, which are those that carry a [msg]; [except Exception]
    handles every exception; a handler for one of the classes handles
    an exception only if it names the exception's own class,
    [SyslogError] or [Exception], so that no subclass handles a sibling;
    and the [str()] of every exception of the module contains its
    message. *)
Theorem except_SyslogError_catches_module_errors (e : pyexc) :
  (except_catches SyslogError e = true <-> exists m, exc_msg e = Some m) /\
  except_catches Exception e = true /\
  (forall c, except_catches c e = true ->
             c = class_of e \/ c = SyslogError \/ c = Exception) /\
  (forall m, exc_msg e = Some m -> contains (exc_str e) m = true).
Proof.
  split; [|split; [|split]].
  - destruct e; simpl; split; try discriminate; eauto.
    intros [m H]. discriminate H.
  - destruct e; reflexivity.
  - intros c. destruct e, c; simpl; try discriminate; auto.
  - intros m. destruct e; simpl; intros [= <-].
    + apply contains_end.
    + apply contains_end.
    + apply contains_end.
    + apply (contains_skip "MessageHandler exception: "). apply contains_here.
Qed.

(** ** The structured-data operations, call by call *)

(** What one operation does to an accumulator that satisfies the
    invariant, object by object. *)
Lemma run_op_effect (w : world) (self : loc) (op : sd_op)
    (h : SyslogMessageHead) (d : pydict) :
  sd_inv w self -> head_at w self = Some h -> dict_at w (sd h) = Some d ->
  let w' := fst (run_op self op w) in
  exists h',
    head_at w' self = Some h' /\ sd h' = sd h /\
    handles w' = handles w /\ stdout w' = stdout w /\
    match op with
    | CreateSde n =>
        current_sde h' = Some (length (heap w)) /\
        current_sd_field h' = current_sd_field h /\
        dict_at w' (sd h) = Some (dict_set n (VRef (length (heap w))) d) /\
        dict_at w' (length (heap w)) = Some [] /\
        length (heap w') = S (length (heap w)) /\
        forall l, l <> self -> l <> sd h -> l < length (heap w) ->
                  nth_error (heap w') l = nth_error (heap w) l
    | SetSdField f =>
        current_sde h' = current_sde h /\
        current_sd_field h' = f /\
        length (heap w') = length (heap w) /\
        forall l, l <> self -> nth_error (heap w') l = nth_error (heap w) l
    | SetSdValue v =>
        h' = h /\
        length (heap w') = length (heap w) /\
        match current_sde h with
        | None => run_op self op w = (w, Raise TypeError)
        | Some c =>
            snd (run_op self op w) = Ok tt /\
            c <> sd h /\ c <> self /\
            (exists e, dict_at w c = Some e /\
                       dict_at w' c = Some (dict_set (current_sd_field h) v e)) /\
            forall l, l <> c -> nth_error (heap w') l = nth_error (heap w) l
        end
    end.
Proof.
  intros (h0 & d0 & Hh0 & Hd0 & Hn & Hrefs & Hcur) Hh Hd w'.
  rewrite Hh in Hh0. injection Hh0 as <-.
  rewrite Hd in Hd0. injection Hd0 as <-.
  pose proof (head_at_bound _ _ _ Hh) as Hbh.
  pose proof (dict_at_bound _ _ _ Hd) as Hbd.
  pose proof (head_dict_distinct _ _ _ _ _ Hh Hd) as Hne.
  subst w'. destruct w as [hp hd so]. simpl in Hbh, Hbd.
  destruct op as [n|f|v]; simpl run_op.
  - rewrite (create_sde_run _ _ n _ _ Hh Hd). simpl.
    eexists. split.
    { rewrite head_at_upd_other by auto.
      apply head_at_upd. rewrite length_app. lia. }
    simpl. repeat split.
    + apply dict_at_upd_same. rewrite length_upd, length_app. lia.
    + rewrite dict_at_upd_other by lia.
      rewrite dict_at_upd_other by lia.
      unfold dict_at. simpl. now rewrite nth_error_snoc.
    + rewrite !length_upd, length_app. simpl. lia.
    + intros l H1 H2 H3.
      rewrite !nth_error_upd_neq by auto.
      now apply nth_error_app1.
  - rewrite (set_sd_field_run _ _ f _ Hh). simpl.
    eexists. split; [now apply head_at_upd|].
    simpl. repeat split.
    + now rewrite length_upd.
    + intros l H1. now rewrite nth_error_upd_neq by auto.
  - destruct (current_sde h) as [c|] eqn:Hc.
    + destruct (Hcur c eq_refl) as (name & Hin).
      destruct (Hrefs _ _ Hin) as (l' & e & [= <-] & Hl & He & Hu).
      pose proof (head_dict_distinct _ _ _ _ _ Hh He) as Hne'.
      pose proof (dict_at_bound _ _ _ He) as Hbl. simpl in Hbl.
      rewrite (set_sd_value_run _ _ c v _ _ Hh Hc He). simpl.
      exists h. split; [rewrite head_at_upd_other by auto; exact Hh|].
      repeat split; auto.
      * now rewrite length_upd.
      * exists e. split; [exact He|]. now apply dict_at_upd_same.
      * intros l H1. now rewrite nth_error_upd_neq by auto.
    + rewrite (set_sd_value_none _ _ v _ Hh Hc). simpl.
      exists h. repeat split; auto.
Qed.



Lemma sd_inv_fresh (w : world) (ops : list sd_op) :
  sd_inv (run_ops (length (heap w)) ops (fst (SyslogMessageHead_new w)))
         (length (heap w)).
Proof. apply sd_inv_run, sd_inv_new. Qed.

Lemma dict_at_nth (w w' : world) (l : loc) :
  nth_error (heap w') l = nth_error (heap w) l -> dict_at w' l = dict_at w l.
Proof. intros H. unfold dict_at. now rewrite H. Qed.

(** Declaring fields one after the other in the current element. *)
Lemma declare_all_run (pairs : list (pykey * pyval)) :
  forall (w : world) (self c : loc) (h : SyslogMessageHead) (d e : pydict),
    sd_inv w self ->
    head_at w self = Some h -> dict_at w (sd h) = Some d ->
    current_sde h = Some c -> dict_at w c = Some e ->
    let w' := run_ops self (flat_map declare pairs) w in
    exists h',
      head_at w' self = Some h' /\ sd h' = sd h /\
      current_sde h' = Some c /\
      dict_at w' (sd h) = Some d /\
      dict_at w' c
      = Some (fold_left (fun e fv => dict_set (fst fv) (snd fv) e) pairs e) /\
      length (heap w') = length (heap w) /\
      forall l, l <> self -> l <> c ->
                nth_error (heap w') l = nth_error (heap w) l.
Proof.
  induction pairs as [|[f v] pairs IH]; intros w self c h d e Hi Hh Hd Hc He.
  - simpl. exists h. repeat split; auto.
  - intros w'. subst w'. simpl.
    destruct (run_op_effect w self (SetSdField f) h d Hi Hh Hd)
      as (h1 & Hh1 & Hs1 & _ & _ & Hc1 & Hf1 & Hl1 & Hfr1).
    pose proof (sd_inv_step w self (SetSdField f) Hi) as Hi1.
    set (w1 := fst (run_op self (SetSdField f) w)) in *.
    pose proof (head_dict_distinct _ _ _ _ _ Hh Hd) as Hne.
    pose proof (head_dict_distinct _ _ _ _ _ Hh He) as Hnc.
    assert (Hd1 : dict_at w1 (sd h1) = Some d).
    { rewrite Hs1. rewrite (dict_at_nth w w1); auto. }
    destruct (run_op_effect w1 self (SetSdValue v) h1 d Hi1 Hh1 Hd1)
      as (h2 & Hh2 & Hs2 & _ & _ & -> & Hl2 & Hv).
    rewrite Hc1, Hc in Hv.
    destruct Hv as (_ & Hcs & Hcself & (e1 & He1 & He2) & Hfr2).
    pose proof (sd_inv_step w1 self (SetSdValue v) Hi1) as Hi2.
    set (w2 := fst (run_op self (SetSdValue v) w1)) in *.
    assert (Ee : e1 = e).
    { rewrite (dict_at_nth w w1) in He1 by auto. congruence. }
    subst e1. rewrite Hf1 in He2.
    assert (Hd2 : dict_at w2 (sd h1) = Some d).
    { rewrite (dict_at_nth w1 w2); auto. }
    assert (Hc2 : current_sde h1 = Some c) by congruence.
    destruct (IH w2 self c h1 d _ Hi2 Hh2 Hd2 Hc2 He2)
      as (h3 & Hh3 & Hs3 & Hc3 & Hd3 & He3 & Hl3 & Hfr3).
    exists h3. rewrite Hs1 in *.
    split; [exact Hh3|]. split; [congruence|]. split; [exact Hc3|].
    split; [exact Hd3|]. split; [exact He3|].
    split.
    { transitivity (length (heap w2)); [exact Hl3|].
      transitivity (length (heap w1)); [exact Hl2|exact Hl1]. }
    intros l H1 H2.
    transitivity (nth_error (heap w2) l); [exact (Hfr3 l H1 H2)|].
    transitivity (nth_error (heap w1) l); [exact (Hfr2 l H2)|exact (Hfr1 l H1)].
Qed.

Lemma dict_get_set_other (k k' : pykey) (v : pyval) (d : pydict) :
  k' <> k -> dict_get k' (dict_set k v d) = dict_get k' d.
Proof.
  intros Hne. induction d as [|[k0 v0] d IH]; simpl.
  - now rewrite pykey_eqb_neq.
  - destruct (pykey_eqb k k0) eqn:E; simpl.
    + apply pykey_eqb_eq in E. subst k0. now rewrite !pykey_eqb_neq.
    + now rewrite IH.
Qed.

Lemma dict_get_some_in (k : pykey) (v : pyval) (d : pydict) :
  dict_get k d = Some v -> In (k, v) d.
Proof.
  induction d as [|[k0 v0] d IH]; simpl; [discriminate|].
  destruct (pykey_eqb k k0) eqn:E.
  - apply pykey_eqb_eq in E. intros [= <-]. left. congruence.
  - auto.
Qed.

Lemma dict_set_keys (k : pykey) (v : pyval) (d : pydict) :
  dict_keys (dict_set k v d) = add_name (dict_keys d) k.
Proof.
  unfold add_name, dict_keys. induction d as [|[k0 v0] d IH]; simpl.
  - reflexivity.
  - destruct (pykey_eqb k k0) eqn:E; simpl; [reflexivity|].
    rewrite IH. now destruct (existsb (pykey_eqb k) (map fst d)).
Qed.

(** The head of an accumulator after a sequence of operations. *)
Lemma head_after_ops (ops : list sd_op) :
  forall (w : world) (self : loc) (h : SyslogMessageHead) (d : pydict),
    sd_inv w self -> head_at w self = Some h -> dict_at w (sd h) = Some d ->
    exists h' d',
      head_at (run_ops self ops w) self = Some h' /\
      dict_at (run_ops self ops w) (sd h') = Some d' /\
      sd h' = sd h /\
      (if existsb is_create ops
       then exists c, current_sde h' = Some c
       else current_sde h' = current_sde h) /\
      current_sd_field h'
      = fold_left (fun k op => match op with SetSdField f => f | _ => k end)
                  ops (current_sd_field h) /\
      dict_keys d'
      = fold_left (fun ks op => match op with
                                | CreateSde n => add_name ks n
                                | _ => ks
                                end) ops (dict_keys d).
Proof.
  induction ops as [|op ops IH]; intros w self h d Hi Hh Hd.
  - simpl. exists h, d. repeat split; auto.
  - simpl run_ops.
    destruct (run_op_effect w self op h d Hi Hh Hd)
      as (h1 & Hh1 & Hs1 & _ & _ & Hop).
    pose proof (sd_inv_step w self op Hi) as Hi1.
    set (w1 := fst (run_op self op w)) in *.
    pose proof (head_dict_distinct _ _ _ _ _ Hh Hd) as Hne.
    assert (Hd1 : exists d1, dict_at w1 (sd h1) = Some d1 /\
              dict_keys d1 = match op with
                             | CreateSde n => add_name (dict_keys d) n
                             | _ => dict_keys d
                             end).
    { rewrite Hs1. destruct op as [n|f|v].
      - destruct Hop as (_ & _ & Hd1 & _). eexists. split; [exact Hd1|].
        apply dict_set_keys.
      - destruct Hop as (_ & _ & _ & Hfr). exists d. split; [|reflexivity].
        rewrite (dict_at_nth w w1); auto.
      - destruct Hop as (-> & _ & Hv). exists d. split; [|reflexivity].
        destruct (current_sde h) as [c|].
        + destruct Hv as (_ & Hc & _ & _ & Hfr).
          rewrite (dict_at_nth w w1); auto.
        + unfold w1. rewrite Hv. exact Hd. }
    destruct Hd1 as (d1 & Hd1 & Hk1).
    destruct (IH w1 self h1 d1 Hi1 Hh1 Hd1)
      as (h' & d' & Hh' & Hd' & Hs' & Hc' & Hf' & Hk').
    exists h', d'. split; [exact Hh'|]. split; [exact Hd'|].
    split; [congruence|].
    revert Hc'.
    destruct op as [n|f|v]; simpl existsb; simpl fold_left;
      destruct (existsb is_create ops); intros Hc'.
    + destruct Hop as (Hc1 & Hf1 & _).
      split; [exact Hc'|split; congruence].
    + destruct Hop as (Hc1 & Hf1 & _).
      split; [|split; congruence].
      exists (length (heap w)). rewrite Hc'. exact Hc1.
    + destruct Hop as (Hc1 & Hf1 & _).
      split; [exact Hc'|split; congruence].
    + destruct Hop as (Hc1 & Hf1 & _).
      split; [congruence|split; congruence].
    + destruct Hop as (-> & _).
      split; [exact Hc'|split; congruence].
    + destruct Hop as (-> & _).
      split; [exact Hc'|split; congruence].
Qed.

Lemma fresh_head (w : world) :
  let self := length (heap w) in
  let w0 := fst (SyslogMessageHead_new w) in
  head_at w0 self = Some (initial_head (S self)) /\
  dict_at w0 (S self) = Some [].
Proof.
  intros self w0. subst w0. rewrite SyslogMessageHead_new_run.
  unfold head_at, dict_at. cbn [fst heap]. fold self.
  assert (L : length (heap w ++ [OBlank]) = S self)
    by (rewrite length_app; simpl; unfold self; lia).
  rewrite L. split.
  - rewrite nth_error_upd_eq; [reflexivity|].
    rewrite length_app, L. simpl. lia.
  - rewrite nth_error_upd_neq by lia.
    rewrite <- L. now rewrite nth_error_snoc.
Qed.

(** The accumulator right after [create_sde]. *)
Lemma after_create (w : world) (ops : list sd_op) (n : pykey) :
  let self := length (heap w) in
  let w0 := fst (SyslogMessageHead_new w) in
  let w1 := run_ops self ops w0 in
  let w2 := run_ops self (ops ++ [CreateSde n]) w0 in
  exists h1 d1 h2,
    head_at w1 self = Some h1 /\ dict_at w1 (sd h1) = Some d1 /\
    current_sd_field h1 = last_field ops /\
    head_at w2 self = Some h2 /\ sd h2 = sd h1 /\
    current_sde h2 = Some (length (heap w1)) /\
    current_sd_field h2 = last_field ops /\
    dict_at w2 (sd h1) = Some (dict_set n (VRef (length (heap w1))) d1) /\
    dict_at w2 (length (heap w1)) = Some [] /\
    sd_inv w2 self /\
    forall l, l <> self -> l <> sd h1 -> l < length (heap w1) ->
              nth_error (heap w2) l = nth_error (heap w1) l.
Proof.
  intros self w0 w1 w2.
  destruct (fresh_head w) as [Hh0 Hd0]. fold self w0 in Hh0, Hd0.
  pose proof (sd_inv_new w) as Hi0. fold self w0 in Hi0.
  destruct (head_after_ops ops w0 self _ [] Hi0 Hh0 Hd0)
    as (h1 & d1 & Hh1 & Hd1 & _ & _ & Hf1 & _).
  fold w1 in Hh1, Hd1.
  pose proof (sd_inv_run ops _ _ Hi0) as Hi1. fold w1 in Hi1.
  destruct (run_op_effect w1 self (CreateSde n) h1 d1 Hi1 Hh1 Hd1)
    as (h2 & Hh2 & Hs2 & _ & _ & Hc2 & Hf2 & Hd2 & He2 & _ & Hfr).
  assert (E : w2 = fst (run_op self (CreateSde n) w1)).
  { unfold w2, w1. now rewrite run_ops_app. }
  clearbody w2. subst w2.
  exists h1, d1, h2.
  split; [exact Hh1|]. split; [exact Hd1|]. split; [exact Hf1|].
  split; [exact Hh2|]. split; [exact Hs2|]. split; [exact Hc2|].
  split; [now rewrite Hf2|]. split; [exact Hd2|]. split; [exact He2|].
  split; [now apply sd_inv_step|exact Hfr].
Qed.

(** X4: after [create_sde(n)], whatever the accumulator received before,
    [get_sd(n)] returns the new, empty element; declaring fields with
    [set_sd_field] and [set_sd_value] then fills that very object:
    [get_sd(n)] returns the same reference, which now holds the
    declared pairs in the order of their first declaration, a later
    value replacing an earlier one for the same field name. *)
Theorem declared_fields_round_trip (w : world) (ops : list sd_op) (n : pykey)
    (pairs : list (pykey * pyval)) :
  let self := length (heap w) in
  let w0 := fst (SyslogMessageHead_new w) in
  let w1 := run_ops self (ops ++ [CreateSde n]) w0 in
  let w2 := run_ops self (flat_map declare pairs) w1 in
  exists l,
    get_sd self n w1 = (w1, Ok (VRef l)) /\
    dict_at w1 l = Some [] /\
    get_sd self n w2 = (w2, Ok (VRef l)) /\
    dict_at w2 l = Some (dict_of pairs).
Proof.
  intros self w0 w1 w2.
  destruct (after_create w ops n)
    as (h1 & d1 & h2 & _ & _ & _ & Hh2 & Hs2 & Hc2 & _ & Hd2 & He2 & Hi2 & _).
  fold self w0 w1 in Hh2, Hc2, Hd2, He2, Hi2.
  set (l := length (heap (run_ops self ops w0))) in *.
  rewrite <- Hs2 in Hd2.
  destruct (declare_all_run pairs w1 self l h2 _ [] Hi2 Hh2 Hd2 Hc2 He2)
    as (h3 & Hh3 & Hs3 & _ & Hd3 & He3 & _).
  fold w2 in Hh3, Hd3, He3. rewrite <- Hs3 in Hd3.
  exists l. split; [|split; [exact He2|split; [|exact He3]]].
  - rewrite (get_sd_key _ _ n _ _ Hh2 Hd2). now rewrite dict_get_set_same.
  - rewrite (get_sd_key _ _ n _ _ Hh3 Hd3). now rewrite dict_get_set_same.
Qed.

(** X5: creating an element and declaring its fields leaves every
    element of another name as it was: [get_sd] returns the same value
    for that name, and the element it designates has the same
    contents. *)
Theorem declaring_keeps_other_elements (w : world) (ops : list sd_op)
    (n n' : pykey) (pairs : list (pykey * pyval)) (Hn : n' <> n) :
  let self := length (heap w) in
  let w0 := fst (SyslogMessageHead_new w) in
  let w1 := run_ops self ops w0 in
  let w2 := run_ops self (flat_map declare pairs)
                    (run_ops self (ops ++ [CreateSde n]) w0) in
  snd (get_sd self n' w2) = snd (get_sd self n' w1) /\
  forall l, snd (get_sd self n' w1) = Ok (VRef l) ->
            dict_at w2 l = dict_at w1 l.
Proof.
  intros self w0 w1 w2.
  destruct (after_create w ops n)
    as (h1 & d1 & h2 & Hh1 & Hd1 & _ & Hh2 & Hs2 & Hc2 & _ & Hd2 & He2 & Hi2
        & Hfr).
  fold self w0 w1 in Hh1, Hd1, Hh2, Hc2, Hd2, He2, Hi2, Hfr.
  set (wc := run_ops self (ops ++ [CreateSde n]) w0) in *.
  rewrite <- Hs2 in Hd2.
  destruct (declare_all_run pairs wc self _ h2 _ [] Hi2 Hh2 Hd2 Hc2 He2)
    as (h3 & Hh3 & Hs3 & _ & Hd3 & _ & _ & Hfr3).
  fold w2 in Hh3, Hd3, Hfr3. rewrite <- Hs3 in Hd3.
  rewrite (get_sd_key _ _ n' _ _ Hh3 Hd3), (get_sd_key _ _ n' _ _ Hh1 Hd1).
  cbn [snd]. rewrite dict_get_set_other by exact Hn.
  split; [reflexivity|].
  intros l Hl.
  destruct (dict_get n' d1) as [v|] eqn:Hg; [|discriminate].
  injection Hl as ->. apply dict_get_some_in in Hg.
  assert (Hi1 : sd_inv w1 self) by apply sd_inv_fresh.
  destruct Hi1 as (h & d & Hh & Hd & _ & Hrefs & _).
  rewrite Hh1 in Hh. injection Hh as <-.
  rewrite Hd1 in Hd. injection Hd as <-.
  destruct (Hrefs _ _ Hg) as (l' & e & [= <-] & Hl & He & _).
  pose proof (dict_at_bound _ _ _ He) as Hb.
  pose proof (head_dict_distinct _ _ _ _ _ Hh1 He) as Hne.
  apply dict_at_nth.
  rewrite Hfr3 by (auto; lia). apply Hfr; auto.
Qed.

Lemma declaring_keeps_other_elements_witness :
  let w2 := run_ops 0
              ([CreateSde (KStr (bs "a")); SetSdField (KStr (bs "x"));
                SetSdValue (VStr (bs "1"))]
               ++ [CreateSde (KStr (bs "b"))]
               ++ flat_map declare [(KStr (bs "x"), VStr (bs "2"))])
              (fst (SyslogMessageHead_new empty_world)) in
  snd (get_sd 0 (KStr (bs "a")) w2) = Ok (VRef 2) /\
  dict_at w2 2 = Some [(KStr (bs "x"), VStr (bs "1"))].
Proof.
  intros w2.
  assert (Hn : KStr (bs "a") <> KStr (bs "b")) by discriminate.
  pose proof (declaring_keeps_other_elements empty_world
                [CreateSde (KStr (bs "a")); SetSdField (KStr (bs "x"));
                 SetSdValue (VStr (bs "1"))]
                (KStr (bs "b")) (KStr (bs "a"))
                [(KStr (bs "x"), VStr (bs "2"))] Hn) as [H1 H2].
  split; [exact H1|]. exact (H2 2 eq_refl).
Defined.

(** X6: [create_sde] does not reset [current_sd_field]: a value set
    right after [create_sde(n)] is stored in the new element under the
    field name of the last [set_sd_field] call, made for whichever
    element, and under the key [None] when no field name was ever
    set. *)
Theorem set_sd_value_uses_last_field_name (w : world) (ops : list sd_op)
    (n : pykey) (v : pyval) :
  let self := length (heap w) in
  let w0 := fst (SyslogMessageHead_new w) in
  let w2 := run_ops self (ops ++ [CreateSde n; SetSdValue v]) w0 in
  exists l,
    get_sd self n w2 = (w2, Ok (VRef l)) /\
    dict_at w2 l = Some [(last_field ops, v)].
Proof.
  intros self w0 w2.
  destruct (after_create w ops n)
    as (h1 & d1 & h2 & _ & _ & _ & Hh2 & Hs2 & Hc2 & Hf2 & Hd2 & He2 & Hi2 & _).
  fold self w0 in Hh2, Hc2, Hd2, He2, Hi2.
  set (wc := run_ops self (ops ++ [CreateSde n]) w0) in *.
  set (l := length (heap (run_ops self ops w0))) in *.
  rewrite <- Hs2 in Hd2.
  destruct (run_op_effect wc self (SetSdValue v) h2 _ Hi2 Hh2 Hd2)
    as (h3 & Hh3 & Hs3 & _ & _ & -> & _ & Hv).
  rewrite Hc2 in Hv. destruct Hv as (_ & Hls & _ & (e & He & He') & Hfr).
  assert (E : w2 = fst (run_op self (SetSdValue v) wc)).
  { unfold w2, wc.
    change [CreateSde n; SetSdValue v] with ([CreateSde n] ++ [SetSdValue v]).
    now rewrite app_assoc, run_ops_app. }
  clearbody w2. subst w2.
  rewrite He2 in He. injection He as <-. rewrite Hf2 in He'.
  exists l. split; [|exact He'].
  assert (Hd3 : dict_at (fst (run_op self (SetSdValue v) wc)) (sd h2)
                = Some (dict_set n (VRef l) d1)).
  { rewrite (dict_at_nth wc); auto. }
  rewrite (get_sd_key _ _ n _ _ Hh3 Hd3). now rewrite dict_get_set_same.
Qed.

(** X3: on an accumulator that received any sequence of operations
    since its construction, [set_sd_value] returns if [create_sde] was
    called and raises [TypeError] otherwise, leaving the store as it
    was; after [reset] it raises [TypeError] in any case, since
    [current_sde] is [None] again. *)
Theorem set_sd_value_needs_create_sde (w : world) (ops : list sd_op)
    (v : pyval) :
  let self := length (heap w) in
  let w0 := fst (SyslogMessageHead_new w) in
  let w1 := run_ops self ops w0 in
  let w2 := fst (reset self w1) in
  snd (set_sd_value self v w1)
  = (if existsb is_create ops then Ok tt else Raise TypeError) /\
  (snd (set_sd_value self v w1) = Raise TypeError ->
   fst (set_sd_value self v w1) = w1) /\
  set_sd_value self v w2 = (w2, Raise TypeError).
Proof.
  intros self w0 w1 w2.
  destruct (fresh_head w) as [Hh0 Hd0]. fold self w0 in Hh0, Hd0.
  pose proof (sd_inv_new w) as Hi0. fold self w0 in Hi0.
  destruct (head_after_ops ops w0 self _ [] Hi0 Hh0 Hd0)
    as (h1 & d1 & Hh1 & Hd1 & _ & Hc1 & _ & _).
  fold w1 in Hh1, Hd1.
  pose proof (sd_inv_run ops _ _ Hi0) as Hi1. fold w1 in Hi1.
  destruct (run_op_effect w1 self (SetSdValue v) h1 d1 Hi1 Hh1 Hd1)
    as (h2 & _ & _ & _ & _ & _ & _ & Hv).
  simpl run_op in Hv.
  split; [|split].
  - destruct (existsb is_create ops).
    + destruct Hc1 as [c Hc]. rewrite Hc in Hv. apply Hv.
    + simpl in Hc1. rewrite Hc1 in Hv. now rewrite Hv.
  - destruct (current_sde h1).
    + destruct Hv as (Hv & _). rewrite Hv. discriminate.
    + now rewrite Hv.
  - unfold w2. rewrite (reset_head _ _ _ Hh1). simpl.
    pose proof (head_at_bound _ _ _ Hh1) as Hb.
    apply set_sd_value_none with (h := initial_head (length (heap w1))).
    + apply head_at_upd. rewrite length_app. lia.
    + reflexivity.
Qed.

(** X7: the keys of [sd] are the names given to [create_sde], in the
    order of their first creation, each once. *)
Theorem element_names_in_creation_order (w : world) (ops : list sd_op) :
  let self := length (heap w) in
  let w1 := run_ops self ops (fst (SyslogMessageHead_new w)) in
  exists h d,
    head_at w1 self = Some h /\ dict_at w1 (sd h) = Some d /\
    dict_keys d = created ops.
Proof.
  intros self w1.
  destruct (fresh_head w) as [Hh0 Hd0].
  destruct (head_after_ops ops _ _ _ [] (sd_inv_new w) Hh0 Hd0)
    as (h1 & d1 & Hh1 & Hd1 & _ & _ & _ & Hk).
  now exists h1, d1.
Qed.

(** X2: [reset] binds [sd] to a new empty dictionary instead of
    clearing the old one: no object other than the accumulator
    changes, so the previous mapping, and every element obtained from
    it, keeps its contents, while [get_sd] on the accumulator returns
    [None] for every name. *)
Theorem reset_rebinds_sd (w : world) (self : loc) (h : SyslogMessageHead)
    (Hself : head_at w self = Some h) :
  let w' := fst (reset self w) in
  (forall l, l <> self -> l < length (heap w) ->
             nth_error (heap w') l = nth_error (heap w) l) /\
  handles w' = handles w /\ stdout w' = stdout w /\
  (exists h', head_at w' self = Some h' /\ sd h' = length (heap w) /\
              dict_at w' (sd h') = Some []) /\
  (forall d, dict_at w (sd h) = Some d -> dict_at w' (sd h) = Some d) /\
  (forall name, get_sd self name w' = (w', Ok VNone)).
Proof.
  intros w'. subst w'. rewrite (reset_head _ _ _ Hself). simpl.
  pose proof (head_at_bound _ _ _ Hself) as Hb.
  assert (Hh : head_at
            (mkWorld (upd self (OHead (initial_head (length (heap w))))
                          (heap w ++ [ODict []])) (handles w) (stdout w))
            self = Some (initial_head (length (heap w)))).
  { apply head_at_upd. rewrite length_app. lia. }
  assert (Hd : dict_at
            (mkWorld (upd self (OHead (initial_head (length (heap w))))
                          (heap w ++ [ODict []])) (handles w) (stdout w))
            (length (heap w)) = Some []).
  { rewrite dict_at_upd_other by lia. unfold dict_at. simpl.
    now rewrite nth_error_snoc. }
  split; [|split; [reflexivity|split; [reflexivity|split; [|split]]]].
  - intros l H1 H2. rewrite nth_error_upd_neq by auto.
    now apply nth_error_app1.
  - eexists. split; [exact Hh|]. split; [reflexivity|exact Hd].
  - intros d Hd0.
    pose proof (head_dict_distinct _ _ _ _ _ Hself Hd0) as Hne.
    rewrite dict_at_upd_other by auto.
    destruct w as [hp hd so]. now apply dict_at_app.
  - intros name. now rewrite (get_sd_key _ _ name _ _ Hh Hd).
Qed.

Lemma reset_rebinds_sd_witness :
  let w := sample_accumulator in
  dict_at (fst (reset 0 w)) 2 = Some [(KStr (bs "iut"), VStr (bs "3"))] /\
  get_sd 0 (KStr (bs "exampleSDID@32473")) (fst (reset 0 w))
  = (fst (reset 0 w), Ok VNone).
Proof.
  intros w.
  pose proof (reset_rebinds_sd w 0
                (mkHead (VStr []) (VStr []) (VStr []) (VStr []) (VStr [])
                        (VStr []) (VStr []) 1 (Some 2) (KStr (bs "iut")))
                eq_refl) as (H1 & _ & _ & _ & _ & H6).
  split; [|apply H6].
  unfold dict_at. rewrite H1 by (simpl; lia). reflexivity.
Defined.

(** ** What [as_dict] returns *)

(** The dictionary [as_dict] returns: the head entries. *)
Lemma as_dict_dictionary (B : builtins) (self : loc) (w : world)
    (h : SyslogMessageHead) :
  head_at w self = Some h ->
  wp (as_dict B self)
     (fun v w' =>
        v = VRef (length (heap w) + 1) /\
        copies (length (heap w))
          [ (KStr (bs "priority"), VStr (py_str B (priority h)));
            (KStr (bs "version"), VStr (py_str B (version h)));
            (KStr (bs "timestamp"), VStr (py_str B (timestamp h)));
            (KStr (bs "hostname"), VStr (py_str B (hostname h)));
            (KStr (bs "appname"), VStr (py_str B (appname h)));
            (KStr (bs "processid"), VStr (py_str B (processid h)));
            (KStr (bs "messageid"), VStr (py_str B (messageid h)));
            (KStr (bs "sd"), VRef (length (heap w))) ] w')
     (fun _ => True) w.
Proof.
  intros Hself.
  pose proof (head_at_bound _ _ _ Hself) as Hbs.
  set (n := length (heap w)) in *.
  unfold as_dict.
  apply wp_bind, wp_alloc. fold n.
  set (w1 := mkWorld (heap w ++ [ODict []]) (handles w) (stdout w)).
  assert (X1 : ext n w w1) by (apply ext_alloc; unfold n; lia).
  assert (L1 : length (heap w1) = n + 1)
    by (unfold w1, n; simpl; now rewrite length_app).
  assert (D1 : dict_at w1 n = Some []).
  { unfold dict_at, w1, n. simpl. now rewrite nth_error_snoc. }
  clearbody w1.
  apply wp_bind.
  apply (wp_exact _ _ _ _ _ h);
    [apply get_head_run; now apply (ext_head n w)|].
  apply wp_bind, wp_alloc.
  match goal with
  | |- wp _ _ _ (mkWorld (_ ++ [ODict ?x]) _ _) => set (dd := x)
  end.
  set (w2 := mkWorld (heap w1 ++ [ODict dd]) (handles w1) (stdout w1)).
  assert (X2 : ext n w w2).
  { apply (ext_trans _ _ _ _ X1). apply ext_alloc. lia. }
  assert (C2 : copies n dd w2).
  { unfold copies. split; [|split].
    - unfold w2. simpl. rewrite length_app. simpl. lia.
    - unfold w2, dict_at. simpl. rewrite <- L1. now rewrite nth_error_snoc.
    - exists []. split; [|intros k v []].
      destruct w1 as [hp1 hd1 so1]. unfold w2. simpl.
      now apply dict_at_app. }
  clearbody w2.
  rewrite L1.
  apply wp_bind, wp_read; [auto with reads| |exact I].
  intros names _.
  apply wp_bind.
  apply wp_mono with (Q := fun _ w' => ext n w w' /\ copies n dd w')
                     (E := fun w' => True).
  2:{ intros _ w' [X C]. unfold wp, ret. split; [reflexivity|exact C]. }
  2:{ auto. }
  apply (wp_for_each _ _ (fun _ w' => ext n w w' /\ copies n dd w'));
    [|now split].
  clear w1 X1 w2 L1 D1 X2 C2.
  intros _ sd_name _ w3 _ [X3 C3].
  apply wp_bind, wp_alloc.
  set (w4 := mkWorld (heap w3 ++ [ODict []]) (handles w3) (stdout w3)).
  assert (B3 : n + 1 < length (heap w3)) by apply C3.
  assert (X4 : ext n w w4).
  { apply (ext_trans _ _ _ _ X3). apply ext_alloc. lia. }
  assert (C4 : copies n dd w4) by now apply copies_alloc.
  assert (E4 : dict_at w4 (length (heap w3)) = Some []).
  { unfold dict_at, w4. simpl. now rewrite nth_error_snoc. }
  destruct C4 as (Hb4 & Hdd4 & cd4 & Hcd4 & Hall4).
  apply wp_bind, (wp_setitem _ _ _ cd4); [exact Hcd4|].
  set (w5 := mkWorld _ _ _).
  assert (X5 : ext n w w5).
  { apply (ext_trans _ _ _ _ X4). apply ext_upd. lia. }
  assert (C5 : copies n dd w5).
  { apply (copies_bind_element n dd cd4 w4);
      [unfold copies; eauto 10|exact Hcd4|lia|exact E4]. }
  clearbody w5. clear w4 X4 E4 Hb4 Hdd4 Hcd4 Hall4 cd4 w3 X3 C3 B3.
  apply wp_bind, wp_read; [auto 10 with reads| |exact I].
  intros fields _.
  apply (wp_for_each _ _ (fun _ w' => ext n w w' /\ copies n dd w'));
    [|now split].
  clear w5 X5 C5.
  intros _ sd_fieldname _ w6 _ [X6 C6].
  apply wp_bind, wp_read; [auto 10 with reads| |exact I].
  intros u Hu.
  assert (Hy : exists y, u = VUnicode y).
  { match type of Hu with
    | ?m _ = _ =>
        assert (G : forall w0 w0' u0,
                   m w0 = (w0', Ok u0) -> exists y, u0 = VUnicode y)
    end.
    { repeat (apply bind_result; intros ?). apply decode_unicode. }
    exact (G _ _ _ Hu). }
  destruct Hy as [y ->]. clear Hu.
  apply wp_bind, wp_read; [auto 10 with reads| |exact I].
  intros c Hc. apply getitem_ref in Hc. destruct Hc as (cd & Hcd & Hin).
  pose proof C6 as (Hb6 & Hdd6 & cd6 & Hcd6 & Hall6).
  rewrite Hcd in Hcd6. injection Hcd6 as <-.
  destruct (Hall6 _ _ Hin) as (l & ce & [= <-] & Hl & Hce & Hun).
  apply (wp_setitem _ _ _ ce); [exact Hce|].
  split.
  - apply (ext_trans _ _ _ _ X6). apply ext_upd. lia.
  - now apply copies_set_field.
Qed.

(** X8: when [as_dict] returns, the dictionary it returns has the keys
    ['priority'], ['version'], ['timestamp'], ['hostname'], ['appname'],
    ['processid'], ['messageid'] and ['sd'], in this order; the first
    seven hold [str()] of the accumulator's head fields, the last the
    copy of [sd]. *)
Theorem as_dict_head_entries (B : builtins) (w : world) (self : loc)
    (h : SyslogMessageHead) (v : pyval)
    (Hself : head_at w self = Some h)
    (Hret : snd (as_dict B self w) = Ok v) :
  let n := length (heap w) in
  v = VRef (n + 1) /\
  dict_at (fst (as_dict B self w)) (n + 1)
  = Some [ (KStr (bs "priority"), VStr (py_str B (priority h)));
           (KStr (bs "version"), VStr (py_str B (version h)));
           (KStr (bs "timestamp"), VStr (py_str B (timestamp h)));
           (KStr (bs "hostname"), VStr (py_str B (hostname h)));
           (KStr (bs "appname"), VStr (py_str B (appname h)));
           (KStr (bs "processid"), VStr (py_str B (processid h)));
           (KStr (bs "messageid"), VStr (py_str B (messageid h)));
           (KStr (bs "sd"), VRef n) ].
Proof.
  intros n. pose proof (as_dict_dictionary B self w h Hself) as H.
  unfold wp in H. fold n in H.
  destruct (as_dict B self w) as [w' [v'|e]]; simpl in *; [|discriminate].
  injection Hret as ->. destruct H as (-> & _ & Hdd & _).
  split; [reflexivity|exact Hdd].
Qed.

Lemma as_dict_head_entries_witness :
  let h := mkHead (VStr (bs "34")) (VStr (bs "1"))
                  (VStr (bs "2003-10-11T22:14:15.003Z"))
                  (VStr (bs "mymachine")) (VStr (bs "su"))
                  (VStr (bs "1234")) (VStr (bs "ID47")) 1 None KNone in
  let w := mkWorld [OHead h; ODict []] [] [] in
  dict_at (fst (as_dict ascii_builtins 0 w)) 3
  = Some [ (KStr (bs "priority"), VStr (bs "34"));
           (KStr (bs "version"), VStr (bs "1"));
           (KStr (bs "timestamp"), VStr (bs "2003-10-11T22:14:15.003Z"));
           (KStr (bs "hostname"), VStr (bs "mymachine"));
           (KStr (bs "appname"), VStr (bs "su"));
           (KStr (bs "processid"), VStr (bs "1234"));
           (KStr (bs "messageid"), VStr (bs "ID47"));
           (KStr (bs "sd"), VRef 2) ].
Proof.
  intros h w.
  exact (proj2 (as_dict_head_entries ascii_builtins w 0 h (VRef 3)
                  eq_refl eq_refl)).
Defined.

Lemma dict_get_key (k : pykey) (d : pydict) :
  In k (dict_keys d) -> exists v, dict_get k d = Some v.
Proof.
  unfold dict_keys. induction d as [|[k' v'] d IH]; simpl; [intros []|].
  intros [H|H].
  - subst k'. rewrite pykey_eqb_refl. eauto.
  - destruct (pykey_eqb k k'); eauto.
Qed.

Lemma decode_ok (B : builtins) (x : pyval) (w w' : world) (u : pyval) :
  decode B x w = (w', Ok u) ->
  exists s y, x = VStr s /\ decode_utf8 B s = Some y /\ u = VUnicode y.
Proof.
  destruct x; simpl; try discriminate.
  destruct (decode_utf8 B s) eqn:E; simpl; [|discriminate].
  intros [= _ <-]. eauto.
Qed.

(** When [as_dict] returns, every value it read was a byte string that
    decodes. *)
Lemma as_dict_checked (B : builtins) (self : loc) (w : world)
    (h : SyslogMessageHead) (d : pydict) :
  head_at w self = Some h ->
  dict_at w (sd h) = Some d ->
  NoDup (dict_keys d) ->
  (forall k v, In (k, v) d ->
     exists l e, v = VRef l /\ dict_at w l = Some e /\ NoDup (dict_keys e)) ->
  wp (as_dict B self)
     (fun _ _ =>
        forall k l e f x,
          In (k, VRef l) d -> dict_at w l = Some e -> In (f, x) e ->
          exists s u, x = VStr s /\ decode_utf8 B s = Some u)
     (fun _ => True) w.
Proof.
  intros Hh Hd Hnd Hel.
  set (n := length (heap w)).
  pose proof (head_at_bound _ _ _ Hh) as Hbs. fold n in Hbs.
  pose proof (dict_at_bound _ _ _ Hd) as Hbd. fold n in Hbd.
  set (good := fun x : pyval =>
                 exists s u, x = VStr s /\ decode_utf8 B s = Some u).
  unfold as_dict.
  apply wp_bind, wp_alloc. fold n.
  set (w1 := mkWorld (heap w ++ [ODict []]) (handles w) (stdout w)).
  assert (X1 : ext n w w1) by (apply ext_alloc; unfold n; lia).
  assert (L1 : length (heap w1) = n + 1)
    by (unfold w1, n; simpl; now rewrite length_app).
  assert (D1 : dict_at w1 n = Some []).
  { unfold dict_at, w1, n. simpl. now rewrite nth_error_snoc. }
  clearbody w1.
  apply wp_bind.
  apply (wp_exact _ _ _ _ _ h);
    [apply get_head_run; now apply (ext_head n w)|].
  apply wp_bind, wp_alloc.
  match goal with
  | |- wp _ _ _ (mkWorld (_ ++ [ODict ?x]) _ _) => set (dd := x)
  end.
  set (w2 := mkWorld (heap w1 ++ [ODict dd]) (handles w1) (stdout w1)).
  assert (X2 : ext n w w2).
  { apply (ext_trans _ _ _ _ X1). apply ext_alloc. lia. }
  assert (C2 : copies n dd w2).
  { unfold copies. split; [|split].
    - unfold w2. simpl. rewrite length_app. simpl. lia.
    - unfold w2, dict_at. simpl. rewrite <- L1. now rewrite nth_error_snoc.
    - exists []. split; [|intros k v []].
      destruct w1 as [hp1 hd1 so1]. unfold w2. simpl.
      now apply dict_at_app. }
  clearbody w2. rewrite L1.
  apply wp_bind.
  apply (wp_exact _ _ _ _ _ (dict_keys d)).
  { erewrite bind_ok
      by (apply self_sd_run; apply (ext_head n w); eauto).
    erewrite bind_ok
      by (apply load_dict_run; apply (ext_dict n w); eauto).
    reflexivity. }
  set (Inv := fun (done : list pykey) (w' : world) =>
    ext n w w' /\ copies n dd w' /\
    forall k l e f x,
      In k done -> In (k, VRef l) d -> dict_at w l = Some e ->
      In (f, x) e -> good x).
  apply wp_bind.
  apply wp_mono with (Q := fun _ w' => Inv (dict_keys d) w')
                     (E := fun _ => True); [| |auto].
  2:{ intros _ w' (_ & _ & Hgood). unfold wp, ret.
      intros k l e f x Hin He Hf. apply (Hgood k l e f x); auto.
      change k with (fst (k, VRef l)). now apply in_map. }
  apply (wp_for_each _ _ Inv).
  2:{ split; [exact X2|]. split; [exact C2|]. intros k l e f x []. }
  unfold Inv. clear Inv w1 X1 L1 D1 w2 X2 C2.
  intros done sd_name rest w3 Hsplit (X3 & C3 & Hdone).
  assert (Hkey : In sd_name (dict_keys d)).
  { rewrite Hsplit. apply in_or_app. right. now left. }
  destruct (dict_get_key _ _ Hkey) as (v & Hget).
  destruct (Hel _ _ (dict_get_some_in _ _ _ Hget)) as (l & e & -> & He & Hne).
  pose proof (dict_at_bound _ _ _ He) as Hbl. fold n in Hbl.
  apply wp_bind, wp_alloc.
  set (w4 := mkWorld (heap w3 ++ [ODict []]) (handles w3) (stdout w3)).
  assert (B3 : n + 1 < length (heap w3)) by apply C3.
  assert (X4 : ext n w w4).
  { apply (ext_trans _ _ _ _ X3). apply ext_alloc. lia. }
  assert (C4 : copies n dd w4) by now apply copies_alloc.
  assert (E4 : dict_at w4 (length (heap w3)) = Some []).
  { unfold dict_at, w4. simpl. now rewrite nth_error_snoc. }
  destruct C4 as (Hb4 & Hdd4 & cd4 & Hcd4 & Hall4).
  apply wp_bind, (wp_setitem _ _ _ cd4); [exact Hcd4|].
  set (w5 := mkWorld _ _ _).
  assert (X5 : ext n w w5).
  { apply (ext_trans _ _ _ _ X4). apply ext_upd. lia. }
  assert (C5 : copies n dd w5).
  { apply (copies_bind_element n dd cd4 w4);
      [unfold copies; eauto 10|exact Hcd4|lia|exact E4]. }
  clearbody w5. clear w4 X4 E4 Hb4 Hdd4 Hcd4 Hall4 cd4 X3 C3 B3.
  apply wp_bind.
  apply (wp_exact _ _ _ _ _ (dict_keys e)).
  { erewrite bind_ok by (apply self_sd_run; apply (ext_head n w); eauto).
    erewrite bind_ok
      by (eapply getitem_run; [apply (ext_dict n w); eauto|exact Hget]).
    erewrite bind_ok by reflexivity.
    erewrite bind_ok by (apply load_dict_run; apply (ext_dict n w); eauto).
    reflexivity. }
  set (Inv2 := fun (donef : list pykey) (w' : world) =>
    ext n w w' /\ copies n dd w' /\
    forall f x, In f donef -> In (f, x) e -> good x).
  apply wp_mono with (Q := fun _ w' => Inv2 (dict_keys e) w')
                     (E := fun _ => True); [| |auto].
  2:{ intros _ w' (X & C & Hgood). split; [exact X|]. split; [exact C|].
      intros k l0 e0 f x Hk Hin0 He0 Hf.
      apply in_app_or in Hk. destruct Hk as [Hk|[<-|[]]].
      - now apply (Hdone k l0 e0 f x).
      - pose proof (dict_get_in _ _ _ Hnd Hin0) as Hg.
        rewrite Hget in Hg. injection Hg as <-.
        rewrite He in He0. injection He0 as <-.
        apply (Hgood f x); [|exact Hf].
        change f with (fst (f, x)). now apply in_map. }
  apply (wp_for_each _ _ Inv2).
  2:{ split; [exact X5|]. split; [exact C5|]. intros f x []. }
  unfold Inv2. clear Inv2 w5 X5 C5.
  intros donef f restf w6 Hsplitf (X6 & C6 & Hdonef).
  assert (Hkeyf : In f (dict_keys e)).
  { rewrite Hsplitf. apply in_or_app. right. now left. }
  destruct (dict_get_key _ _ Hkeyf) as (x0 & Hgetf).
  apply wp_bind, wp_read; [auto 10 with reads| |exact I].
  intros u Hu.
  erewrite bind_ok in Hu
    by (apply self_sd_run; apply (ext_head n w); eauto).
  erewrite bind_ok in Hu
    by (eapply getitem_run; [apply (ext_dict n w); eauto|exact Hget]).
  erewrite bind_ok in Hu by reflexivity.
  erewrite bind_ok in Hu
    by (eapply getitem_run; [apply (ext_dict n w); eauto|exact Hgetf]).
  destruct (decode_ok _ _ _ _ _ Hu) as (s & y & -> & Hy & ->). clear Hu.
  apply wp_bind, wp_read; [auto 10 with reads| |exact I].
  intros c Hc. apply getitem_ref in Hc. destruct Hc as (cd & Hcd & Hin).
  pose proof C6 as (Hb6 & Hdd6 & cd6 & Hcd6 & Hall6).
  rewrite Hcd in Hcd6. injection Hcd6 as <-.
  destruct (Hall6 _ _ Hin) as (l' & ce & [= <-] & Hl & Hce & Hun).
  apply (wp_setitem _ _ _ ce); [exact Hce|].
  split; [|split].
  - apply (ext_trans _ _ _ _ X6). apply ext_upd. lia.
  - now apply copies_set_field.
  - intros f' x Hf' Hin'.
    apply in_app_or in Hf'. destruct Hf' as [Hf'|[<-|[]]].
    + now apply (Hdonef f' x).
    + pose proof (dict_get_in _ _ _ Hne Hin') as Hg.
      rewrite Hgetf in Hg. injection Hg as <-.
      exists s, y. auto.
Qed.

(** X9: on an accumulator filled by [create_sde], [set_sd_field] and
    [set_sd_value], [as_dict] returns exactly when every value stored in
    an element is a byte string that decodes as UTF-8; one value that is
    [None], a number, or bytes that do not decode makes it raise. *)
Theorem as_dict_returns_iff_values_decode (B : builtins) (w : world)
    (self : loc) (Hinv : sd_inv w self) :
  (exists v, snd (as_dict B self w) = Ok v) <-> decodable B w self.
Proof.
  pose proof Hinv as (h & d & Hh & Hd & Hn & Hrefs & _).
  split.
  - intros [v Hv].
    assert (C : wp (as_dict B self)
       (fun _ _ =>
          forall k l e f x,
            In (k, VRef l) d -> dict_at w l = Some e -> In (f, x) e ->
            exists s u, x = VStr s /\ decode_utf8 B s = Some u)
       (fun _ => True) w).
    { apply (as_dict_checked B self w h d Hh Hd Hn).
      intros k v0 Hin. destruct (Hrefs k v0 Hin) as (l & e & -> & _ & He & Hu).
      now exists l, e. }
    unfold wp in C.
    destruct (as_dict B self w) as [w1 [v1|e]]; [|discriminate].
    intros h' d' k l e f x Hh' Hd' Hin He Hf.
    rewrite Hh in Hh'. injection Hh' as <-.
    rewrite Hd in Hd'. injection Hd' as <-.
    exact (C k l e f x Hin He Hf).
  - intros Hdec.
    assert (C : wp (as_dict B self)
       (fun v w' =>
          v = VRef (length (heap w) + 1) /\
          exists cd,
            dict_at w' (length (heap w)) = Some cd /\
            dict_keys cd = dict_keys d /\
            forall k l e, In (k, VRef l) d -> dict_at w l = Some e ->
              exists l', dict_get k cd = Some (VRef l') /\
                         dict_at w' l' = Some (decoded_dict B e))
       (fun _ => False) w).
    { apply (as_dict_copy B self w h d Hh Hd Hn).
      intros k v Hin. destruct (Hrefs k v Hin) as (l & e & -> & _ & He & Hu).
      exists l, e. repeat split; auto.
      intros f x Hf. exact (Hdec h d k l e f x Hh Hd Hin He Hf). }
    unfold wp in C.
    destruct (as_dict B self w) as [w1 [v|e]]; [|destruct C].
    now exists v.
Qed.

Lemma as_dict_returns_iff_values_decode_witness :
  let w := run_ops 0 [CreateSde (KStr (bs "origin"));
                      SetSdField (KStr (bs "ip")); SetSdValue VNone]
                   (fst (SyslogMessageHead_new empty_world)) in
  snd (as_dict ascii_builtins 0 w) = Raise AttributeError /\
  ~ decodable ascii_builtins w 0.
Proof.
  intros w. split; [reflexivity|].
  intros H.
  destruct (proj2 (as_dict_returns_iff_values_decode ascii_builtins w 0
                     (sd_inv_run _ _ _ (sd_inv_new empty_world))) H)
    as [v Hv].
  discriminate Hv.
Defined.

Lemma sd_inv_ext (n : nat) (w w' : world) (self : loc) :
  ext n w w' -> length (heap w) <= n -> sd_inv w self -> sd_inv w' self.
Proof.
  intros X Hn (h & d & Hh & Hd & Hnd & Hrefs & Hcur).
  pose proof (head_at_bound _ _ _ Hh) as Hbh.
  pose proof (dict_at_bound _ _ _ Hd) as Hbd.
  exists h, d. split; [apply (ext_head n w); auto; lia|].
  split; [apply (ext_dict n w); auto; lia|].
  split; [exact Hnd|]. split; [|exact Hcur].
  intros k v Hin. destruct (Hrefs k v Hin) as (l & e & -> & Hl & He & Hu).
  pose proof (dict_at_bound _ _ _ He) as Hbl.
  exists l, e. repeat split; auto. apply (ext_dict n w); auto. lia.
Qed.

(** The operations write to the accumulator, to [sd], to elements of
    [sd] and to new objects only. *)
Lemma run_op_region (n m : nat) (self : loc) (op : sd_op) (w : world) :
  (exists h d,
      head_at w self = Some h /\ dict_at w (sd h) = Some d /\
      self < n /\ sd h < n /\
      (forall k l, In (k, VRef l) d -> l < n \/ m <= l) /\
      sd_inv w self /\ m <= length (heap w)) ->
  let w' := fst (run_op self op w) in
  (exists h d,
      head_at w' self = Some h /\ dict_at w' (sd h) = Some d /\
      self < n /\ sd h < n /\
      (forall k l, In (k, VRef l) d -> l < n \/ m <= l) /\
      sd_inv w' self /\ m <= length (heap w')) /\
  forall l, n <= l < m -> nth_error (heap w') l = nth_error (heap w) l.
Proof.
  intros (h & d & Hh & Hd & Hs & Hsd & Hel & Hi & Hm) w'.
  destruct (run_op_effect w self op h d Hi Hh Hd)
    as (h1 & Hh1 & Hs1 & _ & _ & Hop).
  pose proof (sd_inv_step w self op Hi) as Hi1.
  fold w' in Hh1, Hop, Hi1.
  pose proof (head_dict_distinct _ _ _ _ _ Hh Hd) as Hne.
  destruct op as [name|f|v].
  - destruct Hop as (_ & _ & Hd1 & _ & Hl1 & Hfr).
    split.
    + exists h1, (dict_set name (VRef (length (heap w))) d).
      rewrite Hs1. repeat split; auto; [|lia].
      intros k l Hin. destruct (dict_set_in _ _ _ _ _ Hin) as [Hold|[_ E]].
      * now apply (Hel k l).
      * injection E as ->. right. exact Hm.
    + intros l Hl. apply Hfr; lia.
  - destruct Hop as (_ & _ & Hl1 & Hfr).
    split.
    + exists h1, d. rewrite Hs1. repeat split; auto; [|lia].
      rewrite (dict_at_nth w w'); auto.
    + intros l Hl. apply Hfr. lia.
  - destruct Hop as (-> & Hl1 & Hv).
    destruct (current_sde h) as [c|] eqn:Hc.
    + destruct Hv as (_ & Hcs & Hcself & _ & Hfr).
      destruct Hi as (h0 & d0 & Hh0 & Hd0 & _ & _ & Hcur).
      rewrite Hh in Hh0. injection Hh0 as <-.
      rewrite Hd in Hd0. injection Hd0 as <-.
      destruct (Hcur c Hc) as (name & Hin).
      split.
      * exists h, d. repeat split; auto; [|lia].
        rewrite (dict_at_nth w w'); auto.
      * intros l Hl. apply Hfr. destruct (Hel _ _ Hin); lia.
    + assert (E : w' = w) by (unfold w'; now rewrite Hv).
      rewrite E. split; [|reflexivity].
      exists h, d. repeat split; auto.
Qed.

Lemma run_ops_region (n m : nat) (self : loc) (ops : list sd_op) :
  forall w,
    (exists h d,
        head_at w self = Some h /\ dict_at w (sd h) = Some d /\
        self < n /\ sd h < n /\
        (forall k l, In (k, VRef l) d -> l < n \/ m <= l) /\
        sd_inv w self /\ m <= length (heap w)) ->
    forall l, n <= l < m ->
              nth_error (heap (run_ops self ops w)) l = nth_error (heap w) l.
Proof.
  induction ops as [|op ops IH]; intros w Hw l Hl; [reflexivity|].
  simpl. destruct (run_op_region n m self op w Hw) as [Hw1 Hfr].
  rewrite (IH _ Hw1 l Hl). now apply Hfr.
Qed.

(** X10: what [as_dict] built is a snapshot: the objects it created (the
    returned dictionary, the copy of [sd] and the element copies) are
    unchanged by any later [create_sde], [set_sd_field] and
    [set_sd_value] calls on the accumulator, whether [as_dict] returned
    or raised. *)
Theorem as_dict_result_is_snapshot (B : builtins) (w : world)
    (ops0 ops : list sd_op) :
  let self := length (heap w) in
  let w1 := run_ops self ops0 (fst (SyslogMessageHead_new w)) in
  let w2 := fst (as_dict B self w1) in
  let w3 := run_ops self ops w2 in
  forall l, length (heap w1) <= l < length (heap w2) ->
            nth_error (heap w3) l = nth_error (heap w2) l.
Proof.
  intros self w1 w2 w3 l Hl.
  assert (Hi1 : sd_inv w1 self) by apply sd_inv_fresh.
  assert (X : ext (length (heap w1)) w1 w2).
  { pose proof (as_dict_frame B self w1) as F. unfold wp in F.
    unfold w2. destruct (as_dict B self w1) as [w' [v|e]]; simpl;
      [apply F|exact F]. }
  pose proof (sd_inv_ext _ _ _ _ X (le_n _) Hi1) as Hi2.
  destruct Hi1 as (h & d & Hh & Hd & _ & Hrefs & _).
  pose proof (head_at_bound _ _ _ Hh) as Hbh.
  pose proof (dict_at_bound _ _ _ Hd) as Hbd.
  apply (run_ops_region (length (heap w1)) (length (heap w2))); [|exact Hl].
  exists h, d.
  split; [now apply (ext_head (length (heap w1)) w1)|].
  split; [now apply (ext_dict (length (heap w1)) w1)|].
  split; [exact Hbh|]. split; [exact Hbd|].
  split; [|split; [exact Hi2|apply le_n]].
  intros k l0 Hin. destruct (Hrefs _ _ Hin) as (l' & e & [= <-] & _ & He & _).
  left. now apply (dict_at_bound _ _ _ He).
Qed.

Lemma as_dict_result_is_snapshot_witness :
  let w2 := fst (as_dict ascii_builtins 0 sample_accumulator) in
  let w3 := run_ops 0 [SetSdValue (VStr (bs "4"))] w2 in
  dict_at w3 2 = Some [(KStr (bs "iut"), VStr (bs "4"))] /\
  nth_error (heap w3) 5 = nth_error (heap w2) 5.
Proof.
  intros w2 w3. split; [reflexivity|].
  apply (as_dict_result_is_snapshot ascii_builtins empty_world
           [CreateSde (KStr (bs "exampleSDID@32473"));
            SetSdField (KStr (bs "iut")); SetSdValue (VStr (bs "3"))]
           [SetSdValue (VStr (bs "4"))] 5).
  vm_compute. lia.
Defined.

(** ** The callbacks under [Parser.read] *)

Lemma arrive_ok (h : option nat) (p : usyslog.syslog_parser)
    (st : usyslog.pstate) (ts : usyslog.tstate) :
  parser_ok h p -> parser_ok h (lib.arrive p st ts).
Proof. intros H. exact H. Qed.



Lemma fail_ok (h : option nat) (p : usyslog.syslog_parser)
    (e : usyslog.perror) :
  parser_ok h p -> parser_ok h (lib.fail p e).
Proof. intros H. exact H. Qed.

Lemma take_token_ok (h : option nat) (p : usyslog.syslog_parser)
    (d : bytestring) (m i : nat) :
  parser_ok h p -> parser_ok h (fst (lib.take_token p d m i)).
Proof.
  intros H. unfold lib.take_token.
  destruct (usyslog.position (usyslog.buffer p) =? 0); exact H.
Qed.

Section CallbackInvariant.

Variable A : Type.
Variable cbs : usyslog.syslog_parser_settings A.
Variable h : option nat.
Variable Inv : A -> Prop.
Hypothesis Hna : never_abort cbs.
Hypothesis Hbegin : forall p a,
  usyslog.app_data p = h -> Inv a -> Inv (fst (usyslog.on_msg_begin cbs p a)).
Hypothesis Hhead : forall p a,
  usyslog.app_data p = h -> Inv a -> Inv (fst (usyslog.on_msg_head cbs p a)).
Hypothesis Helement : forall p s a,
  usyslog.app_data p = h -> Inv a -> Inv (fst (usyslog.on_sd_element cbs p s a)).
Hypothesis Hfield : forall p s a,
  usyslog.app_data p = h -> Inv a -> Inv (fst (usyslog.on_sd_field cbs p s a)).
Hypothesis Hvalue : forall p s a,
  usyslog.app_data p = h -> Inv a -> Inv (fst (usyslog.on_sd_value cbs p s a)).
Hypothesis Hmsg : forall p s a,
  usyslog.app_data p = h -> Inv a -> Inv (fst (usyslog.on_msg cbs p s a)).
Hypothesis Hcomplete : forall p a,
  usyslog.app_data p = h -> Inv a -> Inv (fst (usyslog.on_msg_complete cbs p a)).

Lemma invoke_ok (r : A * Z) (c : lib.invocation) (i : nat)
    (p : usyslog.syslog_parser) (k : A -> lib.step A) :
  snd r = 0%Z -> Inv (fst r) -> (forall a, Inv a -> step_ok h Inv (k a)) ->
  step_ok h Inv (lib.invoke r c i p k).
Proof.
  destruct r as [a rc]. simpl. intros -> Ha Hk. unfold lib.invoke. simpl.
  specialize (Hk a Ha). now destruct (k a).
Qed.

Lemma complete_token_ok (i : nat) (st : usyslog.pstate)
    (ts : usyslog.tstate) (tok : bytestring) (p : usyslog.syslog_parser)
    (a : A) :
  parser_ok h p -> Inv a ->
  step_ok h Inv (lib.complete_token cbs i st ts tok p a).
Proof.
  intros Hp Ha.
  destruct Hna as (H1 & H2 & H3 & H4 & H5 & H6 & H7).
  assert (Hrej : forall e, step_ok h Inv (lib.reject p a e i)).
  { intros e. simpl. split; [now apply fail_ok|]. split; [exact Ha|exact I]. }
  assert (Hnext : forall q a', parser_ok h q -> Inv a' ->
            step_ok h Inv (lib.Next (lib.arrive q st ts) a' (S i) [])).
  { intros q a' Hq Ha'. simpl. split; [now apply arrive_ok|exact Ha']. }
  unfold lib.complete_token.
  destruct (usyslog.state p); try (now apply Hnext).
  - destruct (lib.parse_priority tok);
      [now apply Hnext|apply Hrej].
  - destruct (lib.parse_version tok);
      [now apply Hnext|apply Hrej].
  - destruct tok; [apply Hrej|now apply Hnext].
  - destruct tok; [apply Hrej|now apply Hnext].
  - destruct tok; [apply Hrej|now apply Hnext].
  - destruct tok; [apply Hrej|now apply Hnext].
  - destruct tok; [apply Hrej|].
    apply invoke_ok; [apply H2|apply Hhead; [exact Hp|exact Ha]|].
    intros a' Ha'. now apply Hnext.
  - apply invoke_ok; [apply H3|apply Helement; [exact Hp|exact Ha]|].
    intros a' Ha'. now apply Hnext.
  - apply invoke_ok; [apply H4|apply Hfield; [exact Hp|exact Ha]|].
    intros a' Ha'. now apply Hnext.
  - apply invoke_ok; [apply H5|apply Hvalue; [exact Hp|exact Ha]|].
    intros a' Ha'. now apply Hnext.
Qed.

Lemma structural_ok (i : nat) (st : usyslog.pstate) (ts : usyslog.tstate)
    (p : usyslog.syslog_parser) (a : A) :
  parser_ok h p -> Inv a -> step_ok h Inv (lib.structural cbs i st ts p a).
Proof.
  intros Hp Ha.
  destruct Hna as (H1 & H2 & H3 & H4 & H5 & H6 & H7).
  assert (Hnext : forall q a', parser_ok h q -> Inv a' ->
            step_ok h Inv (lib.Next (lib.arrive q st ts) a' (S i) [])).
  { intros q a' Hq Ha'. simpl. split; [now apply arrive_ok|exact Ha']. }
  unfold lib.structural.
  destruct (usyslog.state p); destruct st; try (now apply Hnext);
    try (apply invoke_ok; [apply H1|apply Hbegin; [exact Hp|exact Ha]|];
         intros a' Ha'; now apply Hnext);
    (apply invoke_ok; [apply H7|apply Hcomplete; [exact Hp|exact Ha]|];
     intros a' Ha'; now apply Hnext).
Qed.

Lemma body_byte_ok (i : nat) (p : usyslog.syslog_parser) (a : A)
    (c : byte) :
  parser_ok h p -> Inv a -> step_ok h Inv (lib.body_byte cbs i p a c).
Proof.
  intros Hp Ha.
  destruct Hna as (H1 & H2 & H3 & H4 & H5 & H6 & H7).
  unfold lib.body_byte. destruct (lib.is_delimiter c).
  - apply invoke_ok; [apply H7|apply Hcomplete; [exact Hp|exact Ha]|].
    intros a' Ha'. simpl. split; [now apply arrive_ok|exact Ha'].
  - apply invoke_ok; [apply H6|apply Hmsg; [exact Hp|exact Ha]|].
    intros a' Ha'. now split.
Qed.

Lemma feed_ok (d : bytestring) (m i : nat) (p : usyslog.syslog_parser)
    (a : A) (c : byte) :
  parser_ok h p -> Inv a -> step_ok h Inv (lib.feed cbs d m i p a c).
Proof.
  intros Hp Ha.
  assert (T : forall st ts,
    step_ok h Inv (let (q, sp) := lib.take_token p d m i in
                 lib.complete_token cbs i st ts (lib.span_bytes d q sp) q a)).
  { intros st ts. pose proof (take_token_ok h p d m i Hp) as Hq.
    destruct (lib.take_token p d m i) as [q sp].
    now apply complete_token_ok. }
  unfold lib.feed.
  destruct (usyslog.state p); try (now apply body_byte_ok);
    destruct (lib.tokenize _ _ c);
    try (now split); try apply T; try (now apply structural_ok);
    (simpl; split; [now apply fail_ok|split; [exact Ha|exact I]]).
Qed.

Lemma chunk_end_ok (d : bytestring) (i m : nat)
    (p : usyslog.syslog_parser) (a : A) :
  parser_ok h p -> Inv a -> outcome_ok h Inv (lib.chunk_end d i m p a).
Proof.
  intros Hp Ha. unfold lib.chunk_end.
  destruct (usyslog.state p); now repeat split; try exact Hp.
Qed.

Lemma run_ok (rest : bytestring) :
  forall d i m p a,
    parser_ok h p -> Inv a -> outcome_ok h Inv (lib.run cbs d rest i m p a).
Proof.
  induction rest as [|c rest IH]; intros d i m p a Hp Ha.
  - now apply chunk_end_ok.
  - destruct (halted (usyslog.state p)) eqn:Hh.
    + rewrite run_terminal by exact Hh. now repeat split; try exact Hp.
    + rewrite run_cons by exact Hh.
      pose proof (feed_ok d m i p a c Hp Ha) as Hf.
      destruct (lib.feed cbs d m i p a c) as [q a' n calls|q a' s calls].
      * destruct Hf as [Hq Ha']. exact (IH d (S i) n q a' Hq Ha').
      * exact Hf.
Qed.

Lemma exec_ok (p : usyslog.syslog_parser) (a : A) (d : bytestring)
    (n : nat) :
  parser_ok h p -> Inv a ->
  outcome_ok h Inv (lib.uslg_parser_exec p cbs a d n).
Proof.
  intros Hp Ha. unfold lib.uslg_parser_exec.
  destruct (usyslog.error p); try (now apply run_ok);
    now repeat split; try exact Hp.
Qed.

End CallbackInvariant.

Lemma read_frame_refl (self : option loc) (w : world) : read_frame self w w.
Proof.
  repeat split. exists []. now rewrite app_nil_r.
Qed.

Lemma read_frame_trans (self : option loc) (w1 w2 w3 : world) :
  read_frame self w1 w2 -> read_frame self w2 w3 -> read_frame self w1 w3.
Proof.
  intros (H1 & [o1 H2] & H3 & H4) (G1 & [o2 G2] & G3 & G4).
  split; [congruence|]. split; [|split; [congruence|]].
  - exists (o1 ++ o2). rewrite G2, H2. now rewrite app_assoc.
  - intros l Hl. rewrite G4, H4; auto.
Qed.

Lemma read_frame_print (self : option loc) (w0 w : world) (v : pyval) :
  read_frame self w0 w ->
  read_frame self w0 (mkWorld (heap w) (handles w) (stdout w ++ [v])).
Proof.
  intros (H1 & [o H2] & H3 & H4). repeat split; auto.
  exists (o ++ [v]). simpl. rewrite H2. now rewrite app_assoc.
Qed.

Lemma map_forget_upd (hp : list obj) (l : loc) (h h' : SyslogMessageHead) :
  nth_error hp l = Some (OHead h) ->
  forget_fields (OHead h') = forget_fields (OHead h) ->
  map forget_fields (upd l (OHead h') hp) = map forget_fields hp.
Proof.
  revert l. induction hp as [|o hp IH]; intros [|l] Hn Hf; simpl in *;
    try discriminate.
  - injection Hn as ->. now rewrite Hf.
  - now rewrite IH.
Qed.

Lemma wp_keep_bind (A B : Type) (m : py A) (f : A -> py B)
    (J : world -> Prop) (Q : B -> world -> Prop) (w : world) :
  wp m (fun _ => J) J w ->
  (forall a w', J w' -> wp (f a) Q J w') ->
  wp (bind m f) Q J w.
Proof.
  intros Hm Hf. apply wp_bind.
  apply wp_mono with (Q := fun _ => J) (E := J); auto.
Qed.

Lemma keep_print (self : option loc) (w0 w : world) (v : pyval) :
  read_frame self w0 w ->
  wp (print v) (fun _ => read_frame self w0) (read_frame self w0) w.
Proof. intros H. unfold wp, print. now apply read_frame_print. Qed.

Lemma keep_setattr (self : option loc) (w0 w : world) (l : loc)
    (f : SyslogMessageHead -> SyslogMessageHead) :
  self = Some l ->
  (forall h, forget_fields (OHead (f h)) = forget_fields (OHead h)) ->
  read_frame self w0 w ->
  wp (setattr l f) (fun _ => read_frame self w0) (read_frame self w0) w.
Proof.
  intros Hl Hf HJ. unfold wp.
  destruct (head_at w l) as [h|] eqn:Hh.
  - rewrite (setattr_head _ _ _ f Hh).
    apply (read_frame_trans _ _ _ _ HJ).
    split; [reflexivity|]. split; [exists []; simpl; now rewrite app_nil_r|].
    split.
    + simpl. apply map_forget_upd with (h := h); [|apply Hf].
      now apply head_at_load.
    + intros l' Hl'. simpl. apply nth_error_upd_neq. congruence.
  - unfold setattr, get_head, bind, load. unfold head_at in Hh.
    destruct (nth_error (heap w) l) as [[| |]|]; try discriminate; exact HJ.
Qed.

Lemma reads_ffi_string (c : option bytestring) (n : nat) :
  reads (ffi_string c n).
Proof. destruct c; intros w; reflexivity. Qed.

Lemma keep_reads (A : Type) (m : py A) (J : world -> Prop) (w : world) :
  reads m -> J w -> wp m (fun _ => J) J w.
Proof.
  intros Hm HJ. unfold wp. specialize (Hm w).
  destruct (m w) as [w' [a|e]]; simpl in Hm; now subst.
Qed.

Lemma keep_print_attr (self : option loc) (w0 w : world) (l : loc)
    (f : SyslogMessageHead -> pyval) :
  read_frame self w0 w ->
  wp (print_attr l f) (fun _ => read_frame self w0) (read_frame self w0) w.
Proof.
  intros HJ. unfold print_attr.
  apply wp_keep_bind; [apply keep_reads; [apply reads_get_head|exact HJ]|].
  intros h w' HJ'. now apply keep_print.
Qed.

Lemma ffi_callback_keeps (f : py Z) (J : world -> Prop) (w : world) :
  wp f (fun _ => J) J w -> J (fst (ffi_callback f w)).
Proof.
  unfold wp, ffi_callback. now destruct (f w) as [w' [rc|e]].
Qed.

Lemma designated_handles (w w' : world) (h : option nat) :
  handles w' = handles w -> designated w' h = designated w h.
Proof.
  intros H. unfold designated, from_handle. rewrite H.
  destruct h as [n|]; [|reflexivity].
  now destruct (nth_error (handles w) n).
Qed.

Lemma from_handle_designated (w w' : world) (h : option nat) (l : loc) :
  from_handle h w = (w', Ok l) -> designated w h = Some l.
Proof. intros H. unfold designated. now rewrite H. Qed.

Lemma reads_from_handle (h : option nat) : reads (from_handle h).
Proof.
  intros w. unfold from_handle. destruct h as [n|]; [|reflexivity].
  now destruct (nth_error (handles w) n).
Qed.

(** [on_msg_head] changes nothing but the head fields of the
    accumulator its handle designates, whether it raises or not. *)
Lemma on_msg_head_keeps (w0 w : world) (parser : usyslog.syslog_parser) :
  read_frame (designated w0 (usyslog.app_data parser)) w0 w ->
  read_frame (designated w0 (usyslog.app_data parser)) w0
             (fst (on_msg_head parser w)).
Proof.
  intros HJ. unfold on_msg_head. apply ffi_callback_keeps.
  apply wp_keep_bind; [now apply keep_print|]. intros _ w1 H1.
  apply wp_bind, wp_read; [apply reads_from_handle| |exact H1].
  intros l Hl. apply from_handle_designated in Hl.
  rewrite (designated_handles w0 w1) in Hl by apply H1.
  symmetry in Hl.
  repeat first
    [ apply wp_keep_bind;
      [ first [ now apply keep_print
              | now apply keep_setattr
              | now apply keep_print_attr
              | apply keep_reads; [apply reads_ffi_string|assumption] ]
      | intros ? ? ? ] ].
  assumption.
Qed.

Lemma print_only_keeps (self : option loc) (w0 w : world) (v : pyval) :
  read_frame self w0 w ->
  read_frame self w0 (fst (ffi_callback (print v ;;; ret 0%Z) w)).
Proof. intros H. now apply read_frame_print. Qed.

(** Reading chunks keeps the handle in the native parser and changes
    the store within [read_frame]. *)
Lemma read_chunks_frame (chunks : list bytestring) :
  forall (P : Parser) (w0 w : world),
    _cparser_settings P = callbacks ->
    read_frame (designated w0 (usyslog.app_data (_cparser P))) w0 w ->
    let r := read_chunks P chunks w in
    usyslog.app_data (_cparser (r_self r)) = usyslog.app_data (_cparser P) /\
    _cparser_settings (r_self r) = callbacks /\
    _msg_head (r_self r) = _msg_head P /\
    read_frame (designated w0 (usyslog.app_data (_cparser P))) w0 (r_world r).
Proof.
  induction chunks as [|c chunks IH]; intros P w0 w Hcb HJ; [simpl; auto|].
  cbn [read_chunks r_self r_world].
  set (h := usyslog.app_data (_cparser P)) in *.
  assert (O : outcome_ok h (read_frame (designated w0 h) w0)
                (lib.uslg_parser_exec (_cparser P) (_cparser_settings P) w c
                                      (length c))).
  { rewrite Hcb. apply exec_ok; auto.
    - apply callbacks_never_abort.
    - intros p a Hp Ha. now apply print_only_keeps.
    - intros p a Hp Ha. simpl. rewrite <- Hp. apply on_msg_head_keeps.
      now rewrite Hp.
    - intros p s a Hp Ha. now apply print_only_keeps.
    - intros p s a Hp Ha. now apply print_only_keeps.
    - intros p s a Hp Ha. now apply print_only_keeps.
    - intros p s a Hp Ha. now apply print_only_keeps.
    - intros p a Hp Ha. now apply print_only_keeps.
    - reflexivity. }
  destruct O as (Op & Ow & _).
  destruct (IH (r_self (Parser_read P c w)) w0 (r_world (Parser_read P c w)))
    as (H1 & H2 & H3 & H4).
  - exact Hcb.
  - simpl. unfold parser_ok in Op. rewrite Op. exact Ow.
  - simpl in H1, H2, H3, H4. unfold parser_ok in Op. rewrite Op in H1, H4.
    split; [exact H1|]. split; [exact H2|]. split; [exact H3|exact H4].
Qed.

Lemma frame_nth (self : option loc) (w w' : world) (l : loc) :
  read_frame self w w' ->
  option_map forget_fields (nth_error (heap w') l)
  = option_map forget_fields (nth_error (heap w) l).
Proof.
  intros (_ & _ & H & _). rewrite <- !nth_error_map. now rewrite H.
Qed.

Lemma frame_head (self : option loc) (w w' : world) (l : loc)
    (h : SyslogMessageHead) :
  read_frame self w w' -> head_at w l = Some h ->
  exists h', head_at w' l = Some h' /\ sd h' = sd h /\
             current_sde h' = current_sde h /\
             current_sd_field h' = current_sd_field h.
Proof.
  intros HJ Hh. pose proof (frame_nth self w w' l HJ) as E.
  unfold head_at in *.
  destruct (nth_error (heap w) l) as [[|h0|]|]; try discriminate.
  injection Hh as ->.
  destruct (nth_error (heap w') l) as [[|h'|]|]; try discriminate.
  simpl in E. injection E as E1 E2 E3. eauto.
Qed.

Lemma frame_dict (self : option loc) (w w' : world) (l : loc) (d : pydict) :
  read_frame self w w' -> dict_at w l = Some d -> dict_at w' l = Some d.
Proof.
  intros HJ Hd. pose proof (frame_nth self w w' l HJ) as E.
  unfold dict_at in *.
  destruct (nth_error (heap w) l) as [[| |d0]|]; try discriminate.
  injection Hd as ->.
  destruct (nth_error (heap w') l) as [[| |d']|]; try discriminate.
  simpl in E. now injection E as ->.
Qed.

Lemma frame_length (self : option loc) (w w' : world) :
  read_frame self w w' -> length (heap w') = length (heap w).
Proof.
  intros (_ & _ & H & _). apply (f_equal (@length _)) in H.
  now rewrite !length_map in H.
Qed.

Lemma designated_from_handle (w : world) (h : option nat) (l : loc) :
  designated w h = Some l -> from_handle h w = (w, Ok l).
Proof.
  unfold designated, from_handle. destruct h as [n|]; [|discriminate].
  destruct (nth_error (handles w) n); simpl; congruence.
Qed.

(** X11: [Parser.read], over any chunks and whatever the native parser
    finds in them, adds output and may assign the seven head fields of
    the accumulator the parser's handle designates; it allocates
    nothing, keeps every handle, every dictionary and every other
    object as they were, and leaves [sd], [current_sde] and
    [current_sd_field] of every accumulator untouched. *)
Theorem read_changes_head_fields_only (P : Parser) (w : world)
    (chunks : list bytestring) (Hcb : _cparser_settings P = callbacks) :
  let r := read_chunks P chunks w in
  let w' := r_world r in
  handles w' = handles w /\
  (exists out, stdout w' = stdout w ++ out) /\
  length (heap w') = length (heap w) /\
  (forall l, from_handle (usyslog.app_data (_cparser P)) w <> (w, Ok l) ->
             nth_error (heap w') l = nth_error (heap w) l) /\
  (forall l d, dict_at w l = Some d -> dict_at w' l = Some d) /\
  (forall l h, head_at w l = Some h ->
     exists h', head_at w' l = Some h' /\ sd h' = sd h /\
                current_sde h' = current_sde h /\
                current_sd_field h' = current_sd_field h) /\
  usyslog.app_data (_cparser (r_self r)) = usyslog.app_data (_cparser P).
Proof.
  intros r w'.
  destruct (read_chunks_frame chunks P w w Hcb (read_frame_refl _ _))
    as (Ha & _ & _ & HJ).
  fold r in Ha. fold r w' in HJ.
  split; [apply HJ|]. split; [apply HJ|].
  split; [now apply (frame_length _ _ _ HJ)|].
  split; [|split; [|split]].
  - intros l Hl. apply HJ. intros Hd. apply Hl.
    now apply designated_from_handle.
  - intros l d. now apply frame_dict with (1 := HJ).
  - intros l h. now apply frame_head with (1 := HJ).
  - exact Ha.
Qed.

Lemma read_changes_head_fields_only_witness :
  let fresh := used_parser VNone [] in
  let w' := r_world (read_chunks (r_self fresh) [scenario_a] (r_world fresh)) in
  handles w' = [0] /\ dict_at w' 1 = Some [].
Proof.
  intros fresh w'.
  pose proof (read_changes_head_fields_only (r_self fresh) (r_world fresh)
                [scenario_a] eq_refl) as (H1 & _ & _ & _ & H5 & _).
  split; [exact H1|]. exact (H5 1 [] eq_refl).
Defined.

Lemma Parser_init_run (msg_delegate : pyval) (w : world) :
  Parser_init msg_delegate w
  = (mkWorld (upd (length (heap w))
                  (OHead (initial_head (length (heap w ++ [OBlank]))))
                  ((heap w ++ [OBlank]) ++ [ODict []]))
             (handles w ++ [length (heap w)]) (stdout w),
     Ok (mkParserObject (length (heap w)) (length (handles w))
           (usyslog.set_app_data usyslog.zero_parser
                                 (Some (length (handles w))))
           callbacks)).
Proof.
  unfold Parser_init.
  erewrite bind_ok by apply SyslogMessageHead_new_run.
  erewrite bind_ok by reflexivity. reflexivity.
Qed.

(** What [Parser.__init__] sets up, for any store. *)
Lemma Parser_init_spec (msg_delegate : pyval) (w : world) :
  exists w1 P,
    Parser_init msg_delegate w = (w1, Ok P) /\
    _msg_head P = length (heap w) /\
    _msg_head_ctype P = length (handles w) /\
    usyslog.app_data (_cparser P) = Some (length (handles w)) /\
    _cparser_settings P = callbacks /\
    handles w1 = handles w ++ [length (heap w)] /\
    stdout w1 = stdout w /\
    length (heap w1) = length (heap w) + 2 /\
    (forall l, l < length (heap w) ->
               nth_error (heap w1) l = nth_error (heap w) l) /\
    head_at w1 (length (heap w))
    = Some (initial_head (S (length (heap w)))) /\
    dict_at w1 (S (length (heap w))) = Some [].
Proof.
  eexists _, _. split; [apply Parser_init_run|]. simpl.
  destruct (fresh_head w) as [Hh Hd].
  rewrite SyslogMessageHead_new_run in Hh, Hd. simpl in Hh, Hd.
  repeat split; auto.
  - rewrite length_upd, !length_app. simpl. lia.
  - intros l Hl. rewrite nth_error_upd_neq by lia.
    rewrite <- app_assoc. now apply nth_error_app1.
Qed.

(** X12: the structured-data callbacks only print: whatever a [Parser]
    is given to read after its construction, the [sd] mapping of its
    accumulator stays empty, [current_sde] and [current_sd_field] stay
    [None], and [get_sd] returns [None] for every name. *)
Theorem read_leaves_sd_empty (msg_delegate : pyval) (w0 : world)
    (chunks : list bytestring) :
  exists w1 P,
    Parser_init msg_delegate w0 = (w1, Ok P) /\
    let w' := r_world (read_chunks P chunks w1) in
    (exists fields,
        observe w' (_msg_head P) = Some (mkState fields [] None KNone)) /\
    forall name, get_sd (_msg_head P) name w' = (w', Ok VNone).
Proof.
  destruct (Parser_init_spec msg_delegate w0)
    as (w1 & P & Hinit & Hm & _ & _ & Hcb & _ & _ & _ & _ & Hh & Hd).
  exists w1, P. split; [exact Hinit|]. intros w'.
  destruct (read_chunks_frame chunks P w1 w1 Hcb (read_frame_refl _ _))
    as (_ & _ & _ & HJ).
  fold w' in HJ. rewrite Hm.
  destruct (frame_head _ _ _ _ _ HJ Hh) as (h' & Hh' & Hs & Hc & Hf).
  pose proof (frame_dict _ _ _ _ _ HJ Hd) as Hd'.
  simpl in Hs, Hc, Hf. rewrite <- Hs in Hd'.
  split.
  - exists (head_fields h'). unfold observe.
    rewrite Hh', Hd'. simpl. now rewrite Hc, Hf.
  - intros name. now rewrite (get_sd_key _ _ name _ _ Hh' Hd').
Qed.

(** X13: two [Parser] instances constructed one after the other, in
    any store, have distinct accumulators, each designated by the
    handle of its own native parser; construction does not depend on
    [msg_delegate] and leaves the objects that existed before as they
    were; and whatever one instance reads, the accumulator of the other
    is unchanged and still designated by its handle. *)
Theorem parsers_do_not_share_state (d1 d2 : pyval) (w0 : world)
    (chunks : list bytestring) :
  exists w1 P1 w2 P2,
    Parser_init d1 w0 = (w1, Ok P1) /\
    Parser_init d2 w1 = (w2, Ok P2) /\
    (forall d, Parser_init d w0 = (w1, Ok P1)) /\
    _msg_head P1 <> _msg_head P2 /\
    (forall l, l < length (heap w0) ->
               nth_error (heap w2) l = nth_error (heap w0) l) /\
    from_handle (usyslog.app_data (_cparser P1)) w2 = (w2, Ok (_msg_head P1)) /\
    from_handle (usyslog.app_data (_cparser P2)) w2 = (w2, Ok (_msg_head P2)) /\
    (let w' := r_world (read_chunks P1 chunks w2) in
     nth_error (heap w') (_msg_head P2) = nth_error (heap w2) (_msg_head P2) /\
     from_handle (usyslog.app_data (_cparser P2)) w'
     = (w', Ok (_msg_head P2))) /\
    (let w' := r_world (read_chunks P2 chunks w2) in
     nth_error (heap w') (_msg_head P1) = nth_error (heap w2) (_msg_head P1) /\
     from_handle (usyslog.app_data (_cparser P1)) w'
     = (w', Ok (_msg_head P1))).
Proof.
  destruct (Parser_init_spec d1 w0)
    as (w1 & P1 & Hi1 & Hm1 & _ & Ha1 & Hcb1 & Hhd1 & _ & Hl1 & Hfr1 & _).
  destruct (Parser_init_spec d2 w1)
    as (w2 & P2 & Hi2 & Hm2 & _ & Ha2 & Hcb2 & Hhd2 & _ & Hl2 & Hfr2 & _).
  exists w1, P1, w2, P2.
  assert (D1 : designated w2 (usyslog.app_data (_cparser P1))
               = Some (_msg_head P1)).
  { unfold designated, from_handle. rewrite Ha1, Hhd2, Hhd1, Hm1.
    rewrite nth_error_app1 by (rewrite length_app; simpl; lia).
    now rewrite nth_error_snoc. }
  assert (D2 : designated w2 (usyslog.app_data (_cparser P2))
               = Some (_msg_head P2)).
  { unfold designated, from_handle. rewrite Ha2, Hhd2, Hm2.
    now rewrite nth_error_snoc. }
  assert (Hne : _msg_head P1 <> _msg_head P2) by (rewrite Hm1, Hm2; lia).
  split; [exact Hi1|]. split; [exact Hi2|].
  split; [intros d; rewrite <- Hi1; now rewrite !Parser_init_run|].
  split; [exact Hne|].
  split; [intros l Hl; rewrite Hfr2 by lia; now apply Hfr1|].
  split; [now apply designated_from_handle|].
  split; [now apply designated_from_handle|].
  split.
  - intros w'.
    destruct (read_chunks_frame chunks P1 w2 w2 Hcb1 (read_frame_refl _ _))
      as (_ & _ & _ & HJ).
    fold w' in HJ. split.
    + apply HJ. rewrite D1. congruence.
    + apply designated_from_handle.
      rewrite (designated_handles w2 w') by apply HJ. exact D2.
  - intros w'.
    destruct (read_chunks_frame chunks P2 w2 w2 Hcb2 (read_frame_refl _ _))
      as (_ & _ & _ & HJ).
    fold w' in HJ. split.
    + apply HJ. rewrite D2. congruence.
    + apply designated_from_handle.
      rewrite (designated_handles w2 w') by apply HJ. exact D1.
Qed.

(** X14: every callback of the module returns 0 for every parser, span
    and store, [on_msg_head] also when it raises (a handle that
    designates no accumulator, a null field pointer), so that the call
    of [uslg_parser_exec] that [Parser.read] makes never reports an
    abort by a callback. *)
Theorem callbacks_always_return_zero (P : Parser) (w : world)
    (data : bytestring) (Hcb : _cparser_settings P = callbacks) :
  never_abort (_cparser_settings P) /\
  not_aborted
    (lib.o_status (lib.uslg_parser_exec (_cparser P) (_cparser_settings P) w
                                        data (length data))).
Proof.
  rewrite Hcb. split; [apply callbacks_never_abort|].
  apply (exec_ok world callbacks (usyslog.app_data (_cparser P))
                 (fun _ => True)); auto.
  - apply callbacks_never_abort.
  - reflexivity.
Qed.

Lemma callbacks_always_return_zero_witness :
  let fresh := used_parser VNone [] in
  snd (on_msg_head usyslog.zero_parser (r_world fresh)) = 0%Z /\
  lib.o_status (lib.uslg_parser_exec (_cparser (r_self fresh)) callbacks
                  (r_world fresh) scenario_a (length scenario_a))
  = lib.Consumed 73.
Proof.
  intros fresh.
  pose proof (callbacks_always_return_zero (r_self fresh) (r_world fresh)
                scenario_a eq_refl) as [(_ & H2 & _) _].
  split; [apply H2|reflexivity].
Defined.
